(** * Constraint parser of [api/parse.py]: a shallow embedding

    The core of the service is the method [_parse_constraint] of the
    request handler and the helpers it calls.  They are pure functions
    of the submitted text, so each method becomes a Rocq function of the
    same name.

    Modelling conventions.
    - A Python [str] is a list of code points.  The model covers the
      code points 0..255 (Latin-1), one [ascii] per code point; the
      character classes [\w], [\s], [\d], [str.lower] and the
      case-insensitive comparison of [re.IGNORECASE] are those of
      CPython restricted to that range.  Texts with other code points
      are outside the model: there [re.IGNORECASE] also lets U+017F
      match "s" and U+0130, U+0131 match "i".
    - A Python [dict] with a fixed set of keys is a record; the empty
      dict [{}] that initialises the five category slots is [None].
    - A raised exception is the [Raise] constructor of [result].
    - A Python [float] that results from arithmetic, the confidence of
      a result, is an IEEE 754 binary64 number with the correctly
      rounded operations of the Standard Library's [SpecFloat]; a float
      literal that is only stored (the confidence of an entity, the
      weight of a preference) is the decimal as written. *)

From Stdlib Require Import List Ascii String Bool Arith NArith ZArith.
From Stdlib Require Import QArith Lia.
From Stdlib Require Import PrimFloat SpecFloat FloatOps.
Import ListNotations.

Set Implicit Arguments.
Set Warnings "-inexact-float".

Close Scope Q_scope.
Open Scope nat_scope.

(** ** Text and character classes *)

Definition text := list ascii.

Definition txt (s : string) : text := list_ascii_of_string s.

Definition code (c : ascii) : N := N_of_ascii c.

Definition in_range (lo hi : N) (c : ascii) : bool :=
  ((lo <=? code c) && (code c <=? hi))%N.

(** [\d] *)
Definition is_digit (c : ascii) : bool := in_range 48 57 c.

(** [[A-Z]] *)
Definition is_upper_AZ (c : ascii) : bool := in_range 65 90 c.

(** [\w]: alphanumeric code points and the underscore. *)
Definition is_word (c : ascii) : bool :=
  in_range 48 57 c || in_range 65 90 c || in_range 95 95 c
  || in_range 97 122 c || in_range 170 170 c || in_range 178 179 c
  || in_range 181 181 c || in_range 185 186 c || in_range 188 190 c
  || in_range 192 214 c || in_range 216 246 c || in_range 248 255 c.

(** [\s] *)
Definition is_space (c : ascii) : bool :=
  in_range 9 13 c || in_range 28 32 c || in_range 133 133 c
  || in_range 160 160 c.

(** [str.lower] on one code point. *)
Definition lower_char (c : ascii) : ascii :=
  if in_range 65 90 c
     || (in_range 192 222 c && negb (code c =? 215)%N)
  then ascii_of_N (code c + 32)
  else c.

(** [str.upper] on one ASCII code point.  [capitalize] is applied to day
    names only, whose first character is an ASCII letter. *)
Definition upper_char (c : ascii) : ascii :=
  if in_range 97 122 c then ascii_of_N (code c - 32) else c.

(** [text.lower()] *)
Definition lower (t : text) : text := map lower_char t.

(** [s.capitalize()]: first character upper-cased, the rest lower-cased. *)
Definition capitalize (t : text) : text :=
  match t with
  | [] => []
  | c :: t' => upper_char c :: lower t'
  end.

(** [s.rstrip('s')]: drop every trailing lower-case [s]. *)
Fixpoint rstrip_s (t : text) : text :=
  match t with
  | [] => []
  | c :: t' =>
      match rstrip_s t' with
      | [] => if Ascii.eqb c "s"%char then [] else [c]
      | r => c :: r
      end
  end.

(** ** Substring containment: [kw in text] *)

Fixpoint starts_with (p t : text) : bool :=
  match p, t with
  | [], _ => true
  | _ :: _, [] => false
  | a :: p', b :: t' => Ascii.eqb a b && starts_with p' t'
  end.

Fixpoint contains (kw t : text) : bool :=
  starts_with kw t
  || match t with
     | [] => false
     | _ :: t' => contains kw t'
     end.

(** [kw in text] for a keyword given as a literal. *)
Definition kw_in (kw : string) (t : text) : bool := contains (txt kw) t.

(** ** The classifier *)

Inductive constraint_type : Type :=
| Temporal | Capacity | Location | Rest | Preference | Unknown.

Definition type_name (c : constraint_type) : string :=
  match c with
  | Temporal => "temporal"
  | Capacity => "capacity"
  | Location => "location"
  | Rest => "rest"
  | Preference => "preference"
  | Unknown => "unknown"
  end.

Definition constraint_type_eqb (a b : constraint_type) : bool :=
  match a, b with
  | Temporal, Temporal | Capacity, Capacity | Location, Location
  | Rest, Rest | Preference, Preference | Unknown, Unknown => true
  | _, _ => false
  end.

Definition temporal_keywords : list string :=
  ["monday"; "tuesday"; "wednesday"; "thursday"; "friday"; "saturday";
   "sunday"; "time"; "hour"; "am"; "pm"; "morning"; "afternoon";
   "evening"; "night"; "before"; "after"; "during"; "date"; "week";
   "month"; "day"]%string.

Definition capacity_keywords : list string :=
  ["maximum"; "minimum"; "limit"; "capacity"; "more than"; "less than";
   "no more"; "at least"; "per day"; "per week"; "games";
   "matches"]%string.

Definition location_keywords : list string :=
  ["field"; "venue"; "location"; "home"; "away"; "court"; "stadium";
   "ground"; "facility"; "site"; "place"]%string.

Definition rest_keywords : list string :=
  ["rest"; "break"; "between"; "gap"; "interval"; "recovery";
   "days between"; "hours between"; "time between"]%string.

Definition preference_keywords : list string :=
  ["prefer"; "like"; "want"; "wish"; "would like"; "ideally"; "better";
   "favor"; "rather"]%string.

(** [sum(1 for keyword in keywords if keyword in text)] *)
Definition count_keywords (keywords : list string) (t : text) : nat :=
  list_sum (map (fun keyword => if kw_in keyword t then 1 else 0) keywords).

(** The [scores] dict, in insertion order. *)
Definition scores (t : text) : list (constraint_type * nat) :=
  [ (Temporal, count_keywords temporal_keywords t);
    (Capacity, count_keywords capacity_keywords t);
    (Location, count_keywords location_keywords t);
    (Rest, count_keywords rest_keywords t);
    (Preference, count_keywords preference_keywords t) ].

(** [max(values)] of a list of naturals. *)
Definition max_of (l : list nat) : nat := fold_left Nat.max l 0.

(** [max(d, key=d.get)] keeps the first key seen and replaces it only by
    a key whose value is strictly larger. *)
Fixpoint max_key_from (best : constraint_type * nat)
         (l : list (constraint_type * nat)) : constraint_type :=
  match l with
  | [] => fst best
  | x :: l' => max_key_from (if snd best <? snd x then x else best) l'
  end.

(** The [scores] dict always has its five keys; the empty case is not
    reached. *)
Definition max_key (l : list (constraint_type * nat)) : constraint_type :=
  match l with
  | [] => Unknown
  | x :: l' => max_key_from x l'
  end.

Definition _classify_constraint_type (t : text) : constraint_type :=
  if max_of (map snd (scores t)) =? 0 then Unknown
  else max_key (scores t).

(** ** Exceptions *)

Inductive exn : Type := ValueError | TypeError.

Inductive result (A : Type) : Type :=
| Ok (a : A)
| Raise (e : exn).

Arguments Ok {A} a.
Arguments Raise {A} e.

Definition bind {A B : Type} (c : result A) (k : A -> result B) : result B :=
  match c with
  | Ok a => k a
  | Raise e => Raise e
  end.

Notation "x <- c ;; k" := (bind c (fun x => k))
  (at level 61, c at next level, right associativity).

(** [[f(x) for x in l]] where [f] may raise: stops at the first exception. *)
Fixpoint map_result {A B : Type} (f : A -> result B) (l : list A)
  : result (list B) :=
  match l with
  | [] => Ok []
  | x :: l' => y <- f x ;; ys <- map_result f l' ;; Ok (y :: ys)
  end.

(** ** [int(s)] on a matched digit group

    CPython limits the conversion of a decimal string to an integer:
    a literal of more than [sys.int_info.default_max_str_digits] = 4300
    digits makes [int] raise [ValueError] ("Exceeds the limit (4300
    digits) for integer string conversion"); leading zeros count.  The
    program does not change the limit.  The digit groups of this program
    are matches of [\d+], so signs, blanks and underscores do not occur;
    any other character is reported as [ValueError] too. *)

Definition int_max_str_digits : nat := 4300.

Definition digit_value (c : ascii) : Z := (Z.of_N (code c) - 48)%Z.

Definition int_of_digits (s : text) : Z :=
  fold_left (fun acc c => (10 * acc + digit_value c)%Z) s 0%Z.

Definition int (s : text) : result Z :=
  match s with
  | [] => Raise ValueError
  | _ :: _ =>
      if forallb is_digit s && (List.length s <=? int_max_str_digits)
      then Ok (int_of_digits s)
      else Raise ValueError
  end.

(** ** Regular expressions

    The patterns of the program use literals, character classes, greedy
    repetition of a character class, alternation, [\b] and one capturing
    group.  [matcher] is a backtracking matcher with the priorities of
    Python's [re]: the left alternative first, the longest repetition
    first. *)

Inductive regex : Type :=
| Eps
| Chr (c : ascii)
| Cls (p : ascii -> bool)
| Seq (r1 r2 : regex)
| Alt (r1 r2 : regex)
| Rep (p : ascii -> bool) (lo : nat) (hi : option nat)
| Bnd
| Grp (r : regex).

(** A literal string. *)
Definition Lit (s : string) : regex :=
  fold_right (fun c r => Seq (Chr c) r) Eps (txt s).

(** [r1 r2 ... rn] *)
Definition cat (rs : list regex) : regex := fold_right Seq Eps rs.

(** [r | r1 | ... | rn] *)
Fixpoint alts (r : regex) (rs : list regex) : regex :=
  match rs with
  | [] => r
  | r' :: rs' => Alt r (alts r' rs')
  end.

(** [r?] *)
Definition Opt (r : regex) : regex := Alt r Eps.

(** A match object: [group()] and [group(1)]. *)
Record match_obj : Type := {
  group0 : text;
  group1 : option text
}.

Definition opt_is_word (c : option ascii) : bool :=
  match c with
  | Some c => is_word c
  | None => false
  end.

Definition has_room (hi : option nat) : bool :=
  match hi with
  | None => true
  | Some n => 0 <? n
  end.

Definition one_less (hi : option nat) : option nat :=
  match hi with
  | None => None
  | Some n => Some (pred n)
  end.

Section Matcher.

(** [re.IGNORECASE] *)
Variable icase : bool.

(** Comparison of a pattern character with a text character, both in
    0..255.  (On other code points CPython has further equivalences:
    U+017F with "s", U+0130 and U+0131 with "i".) *)
Definition chr_eqb (c t : ascii) : bool :=
  if icase then Ascii.eqb (lower_char c) (lower_char t)
  else Ascii.eqb c t.

(** The continuation receives the character before the current
    position, the rest of the text and the capture so far. *)
Definition cont : Type :=
  option ascii -> text -> option text -> option match_obj.

(** Greedy repetition of a character class, between [lo] and [hi]
    times: one more character first, stopping here second. *)
Fixpoint rep (p : ascii -> bool) (lo : nat) (hi : option nat)
         (prev : option ascii) (s : text) (cap : option text) (k : cont)
  : option match_obj :=
  let stop := match lo with 0 => k prev s cap | S _ => None end in
  match s with
  | c :: s' =>
      if p c && has_room hi then
        match rep p (pred lo) (one_less hi) (Some c) s' cap k with
        | Some m => Some m
        | None => stop
        end
      else stop
  | [] => stop
  end.

Fixpoint matcher (r : regex) (prev : option ascii) (s : text)
         (cap : option text) (k : cont) : option match_obj :=
  match r with
  | Eps => k prev s cap
  | Chr c =>
      match s with
      | t :: s' => if chr_eqb c t then k (Some t) s' cap else None
      | [] => None
      end
  | Cls p =>
      match s with
      | t :: s' => if p t then k (Some t) s' cap else None
      | [] => None
      end
  | Seq r1 r2 =>
      matcher r1 prev s cap
              (fun prev' s' cap' => matcher r2 prev' s' cap' k)
  | Alt r1 r2 =>
      match matcher r1 prev s cap k with
      | Some m => Some m
      | None => matcher r2 prev s cap k
      end
  | Rep p lo hi => rep p lo hi prev s cap k
  | Bnd =>
      if xorb (opt_is_word prev) (opt_is_word (hd_error s))
      then k prev s cap else None
  | Grp r1 =>
      matcher r1 prev s cap
              (fun prev' s' _ =>
                 k prev' s' (Some (firstn (List.length s - List.length s') s)))
  end.

(** A match that starts exactly at the current position. *)
Definition match_here (r : regex) (prev : option ascii) (s : text)
  : option match_obj :=
  matcher r prev s None
          (fun _ s' cap =>
             Some {| group0 := firstn (List.length s - List.length s') s;
                     group1 := cap |}).

(** [re.search]: the match at the leftmost position that has one. *)
Fixpoint search_from (r : regex) (prev : option ascii) (s : text)
  : option match_obj :=
  match match_here r prev s with
  | Some m => Some m
  | None =>
      match s with
      | c :: s' => search_from r (Some c) s'
      | [] => None
      end
  end.

Definition search (r : regex) (s : text) : option match_obj :=
  search_from r None s.

(** [re.finditer]: the non-overlapping matches from left to right.
    [skip] counts the characters of the last match that are still to
    be passed over; a match of length 0 moves on by one character. *)
Fixpoint finditer_from (r : regex) (prev : option ascii) (s : text)
         (skip : nat) : list match_obj :=
  let here := match skip with
              | 0 => match_here r prev s
              | S _ => None
              end in
  match here, s with
  | Some m, c :: s' =>
      m :: finditer_from r (Some c) s' (pred (List.length (group0 m)))
  | Some m, [] => [m]
  | None, c :: s' => finditer_from r (Some c) s' (pred skip)
  | None, [] => []
  end.

Definition finditer (r : regex) (s : text) : list match_obj :=
  finditer_from r None s 0.

End Matcher.

(** ** Entities *)

Inductive entity_kind : Type :=
| Team | DayOfWeek | Time | Number | Venue.

Inductive entity_value : Type :=
| EStr (s : text)
| EInt (z : Z).

Record entity : Type := {
  e_type : entity_kind;
  e_value : entity_value;
  e_confidence : Q
}.

(** [\b(Team\s+[A-Z]\w*|[A-Z]\w+\s+Team|[A-Z]\w+s)\b] *)
Definition team_pattern : regex :=
  cat [Bnd;
       Grp (alts
              (cat [Lit "Team"; Rep is_space 1 None; Cls is_upper_AZ;
                    Rep is_word 0 None])
              [cat [Cls is_upper_AZ; Rep is_word 1 None;
                    Rep is_space 1 None; Lit "Team"];
               cat [Cls is_upper_AZ; Rep is_word 1 None; Lit "s"]]);
       Bnd].

(** [\b(Monday|...|Sunday|Mondays|...|Sundays)\b] *)
Definition days_pattern : regex :=
  cat [Bnd;
       Grp (alts (Lit "Monday")
              [Lit "Tuesday"; Lit "Wednesday"; Lit "Thursday";
               Lit "Friday"; Lit "Saturday"; Lit "Sunday";
               Lit "Mondays"; Lit "Tuesdays"; Lit "Wednesdays";
               Lit "Thursdays"; Lit "Fridays"; Lit "Saturdays";
               Lit "Sundays"]);
       Bnd].

(** [\d{1,2}:\d{2}\s*(?:X)?|\d{1,2}\s*(?:X)] for a meridiem alternation
    [X]. *)
Definition clock (meridiem : regex) : regex :=
  Alt (cat [Rep is_digit 1 (Some 2); Lit ":"; Rep is_digit 2 (Some 2);
            Rep is_space 0 None; Opt meridiem])
      (cat [Rep is_digit 1 (Some 2); Rep is_space 0 None; meridiem]).

(** [\b(\d{1,2}:\d{2}\s*(?:AM|PM|am|pm)?|\d{1,2}\s*(?:AM|PM|am|pm))\b] *)
Definition time_pattern : regex :=
  cat [Bnd;
       Grp (clock (alts (Lit "AM") [Lit "PM"; Lit "am"; Lit "pm"]));
       Bnd].

(** [\b(\d+)\b] *)
Definition number_pattern : regex :=
  cat [Bnd; Grp (Rep is_digit 1 None); Bnd].

(** [\b(Field\s+\d+|Court\s+\d+|Stadium|Arena|Gym|Gymnasium)\b] *)
Definition venue_pattern : regex :=
  cat [Bnd;
       Grp (alts
              (cat [Lit "Field"; Rep is_space 1 None; Rep is_digit 1 None])
              [cat [Lit "Court"; Rep is_space 1 None; Rep is_digit 1 None];
               Lit "Stadium"; Lit "Arena"; Lit "Gym"; Lit "Gymnasium"]);
       Bnd].

Definition mk_entity (k : entity_kind) (v : entity_value) (c : Q) : entity :=
  {| e_type := k; e_value := v; e_confidence := c |}.

(** The five scans, each the body of one [for] loop. *)
Definition team_scan (t : text) : list entity :=
  map (fun m => mk_entity Team (EStr (group0 m)) 0.8%Q)
      (finditer false team_pattern t).

Definition day_scan (t : text) : list entity :=
  map (fun m =>
         mk_entity DayOfWeek (EStr (capitalize (rstrip_s (group0 m))))
                   0.95%Q)
      (finditer true days_pattern t).

Definition time_scan (t : text) : list entity :=
  map (fun m => mk_entity Time (EStr (group0 m)) 0.9%Q)
      (finditer false time_pattern t).

Definition number_scan (t : text) : result (list entity) :=
  map_result (fun m => n <- int (group0 m) ;;
                       Ok (mk_entity Number (EInt n) 0.85%Q))
             (finditer false number_pattern t).

Definition venue_scan (t : text) : list entity :=
  map (fun m => mk_entity Venue (EStr (group0 m)) 0.9%Q)
      (finditer true venue_pattern t).

(** The list [entities] is threaded through the five loops. *)
Definition _extract_entities (t : text) : result (list entity) :=
  let entities := [] in
  let entities := entities ++ team_scan t in
  let entities := entities ++ day_scan t in
  let entities := entities ++ time_scan t in
  numbers <- number_scan t ;;
  let entities := entities ++ numbers in
  let entities := entities ++ venue_scan t in
  Ok entities.

(** ** Category fields *)

Record temporal_fields : Type := {
  days_of_week : list text;
  excluded_dates : list text;
  time_ranges : list text;
  before_time : option text;
  after_time : option text
}.

Record capacity_fields : Type := {
  max_count : option Z;
  min_count : option Z;
  per_period : option text;
  resource : option text
}.

Record location_fields : Type := {
  required_venue : option text;
  excluded_venues : list text;
  home_away_preference : option text
}.

Record rest_fields : Type := {
  min_hours : option Z;
  min_days : option Z;
  between_events : bool
}.

Record preference_fields : Type := {
  preferred_times : list text;
  preferred_days : list text;
  weight : Q
}.

(** [\d{1,2}:\d{2}\s*(?:am|pm)?|\d{1,2}\s*(?:am|pm)] *)
Definition lower_clock : regex := clock (Alt (Lit "am") (Lit "pm")).

(** [before\s+(...)] and [after\s+(...)] *)
Definition before_pattern : regex :=
  cat [Lit "before"; Rep is_space 1 None; Grp lower_clock].

Definition after_pattern : regex :=
  cat [Lit "after"; Rep is_space 1 None; Grp lower_clock].

Definition days : list string :=
  ["monday"; "tuesday"; "wednesday"; "thursday"; "friday"; "saturday";
   "sunday"]%string.

(** [m.group(1)] of an optional match object that is tested first. *)
Definition group1_of (m : option match_obj) : option text :=
  match m with
  | Some m => group1 m
  | None => None
  end.

Definition _parse_temporal_constraint (t : text) : temporal_fields :=
  let days_found :=
    fold_left
      (fun acc day =>
         if kw_in day t || contains (txt day ++ txt "s") t
         then acc ++ [capitalize (txt day)] else acc)
      days [] in
  let before :=
    if kw_in "before" t then group1_of (search false before_pattern t)
    else None in
  let after :=
    if kw_in "after" t then group1_of (search false after_pattern t)
    else None in
  {| days_of_week := days_found;
     excluded_dates := [];
     time_ranges := [];
     before_time := before;
     after_time := after |}.

Definition digits1 : regex := Grp (Rep is_digit 1 None).

Definition max_patterns : list regex :=
  [ Seq (Lit "no more than ") digits1;
    Seq (Lit "maximum ") digits1;
    Seq (Lit "at most ") digits1;
    Seq digits1 (Lit " or fewer") ].

Definition min_patterns : list regex :=
  [ Seq (Lit "at least ") digits1;
    Seq (Lit "minimum ") digits1;
    Seq digits1 (Lit " or more") ].

(** The [for pattern in patterns: ... break] loop: the match of the
    first pattern that has one. *)
Fixpoint first_search (patterns : list regex) (t : text)
  : option match_obj :=
  match patterns with
  | [] => None
  | pattern :: rest =>
      match search false pattern t with
      | Some m => Some m
      | None => first_search rest t
      end
  end.

(** [int(match.group(1))]; [int(None)] is a [TypeError]. *)
Definition int_group1 (m : match_obj) : result Z :=
  match group1 m with
  | Some g => int g
  | None => Raise TypeError
  end.

(** [d[key] = int(m.group(1))] when there is a match, else the field
    keeps [None]. *)
Definition int_field (m : option match_obj) : result (option Z) :=
  match m with
  | Some m => n <- int_group1 m ;; Ok (Some n)
  | None => Ok None
  end.

Definition _parse_capacity_constraint (t : text) : result capacity_fields :=
  max <- int_field (first_search max_patterns t) ;;
  min <- int_field (first_search min_patterns t) ;;
  let period :=
    if kw_in "per day" t then Some (txt "day")
    else if kw_in "per week" t then Some (txt "week")
    else if kw_in "per hour" t then Some (txt "hour")
    else None in
  Ok {| max_count := max;
        min_count := min;
        per_period := period;
        resource := None |}.

Definition _parse_location_constraint (t : text) : location_fields :=
  {| required_venue := None;
     excluded_venues := [];
     home_away_preference := None |}.

(** [(\d+)\s+days?\s+between] and [(\d+)\s+hours?\s+between] *)
Definition day_between_pattern : regex :=
  cat [digits1; Rep is_space 1 None; Lit "day"; Opt (Lit "s");
       Rep is_space 1 None; Lit "between"].

Definition hour_between_pattern : regex :=
  cat [digits1; Rep is_space 1 None; Lit "hour"; Opt (Lit "s");
       Rep is_space 1 None; Lit "between"].

Definition _parse_rest_constraint (t : text) : result rest_fields :=
  d <- int_field (search false day_between_pattern t) ;;
  h <- int_field (search false hour_between_pattern t) ;;
  Ok {| min_hours := h; min_days := d; between_events := true |}.

Definition _parse_preference_constraint (t : text) : preference_fields :=
  {| preferred_times := []; preferred_days := []; weight := 0.5%Q |}.

(** ** Conditions *)

Inductive operator : Type :=
| equals | not_equals | less_than | greater_than
| less_than_or_equal | greater_than_or_equal | prefer.

Record condition : Type := {
  c_operator : operator;
  c_value : string
}.

Definition mk_condition (o : operator) (v : string) : condition :=
  {| c_operator := o; c_value := v |}.

Definition _extract_temporal_conditions (t : text) : list condition :=
  let conditions := [] in
  if kw_in "cannot" t || kw_in "not" t then
    conditions ++ [mk_condition not_equals "specified_time"]
  else if kw_in "must" t || kw_in "only" t then
    conditions ++ [mk_condition equals "specified_time"]
  else if kw_in "before" t then
    conditions ++ [mk_condition less_than "specified_time"]
  else if kw_in "after" t then
    conditions ++ [mk_condition greater_than "specified_time"]
  else conditions.

Definition _extract_capacity_conditions (t : text) : list condition :=
  let conditions := [] in
  if kw_in "no more than" t || kw_in "maximum" t then
    conditions ++ [mk_condition less_than_or_equal "max_count"]
  else if kw_in "at least" t || kw_in "minimum" t then
    conditions ++ [mk_condition greater_than_or_equal "min_count"]
  else conditions.

Definition _extract_location_conditions (t : text) : list condition :=
  let conditions := [] in
  if kw_in "must" t && kw_in "home" t then
    conditions ++ [mk_condition equals "home_venue"]
  else if kw_in "cannot" t then
    conditions ++ [mk_condition not_equals "specified_venue"]
  else conditions.

Definition _extract_rest_conditions (t : text) : list condition :=
  let conditions := [] in
  if kw_in "at least" t || kw_in "minimum" t then
    conditions ++ [mk_condition greater_than_or_equal "min_rest_period"]
  else conditions.

Definition _extract_preference_conditions (t : text) : list condition :=
  let conditions := [] in
  if kw_in "prefer" t || kw_in "like" t then
    conditions ++ [mk_condition prefer "specified_option"]
  else conditions.

(** ** Floating-point numbers

    The score of [_calculate_confidence] is computed with Python floats,
    which are IEEE 754 binary64 numbers: [spec_float] with precision 53
    and maximal exponent 1024, every operation rounded to the nearest
    number, ties to even. *)

Definition binary64 : Type := spec_float.

(** A float literal of the source: the binary64 number nearest to the
    decimal, which the literal denotes in Python as in Rocq. *)
Definition lit (f : float) : binary64 := Prim2SF f.

(** [x + y] and [x * y] *)
Definition fadd (x y : binary64) : binary64 := SFadd prec emax x y.

Definition fmul (x y : binary64) : binary64 := SFmul prec emax x y.

(** [float(n)] of an int, which Python applies to the int operand of
    [n * x]: the nearest binary64 number.  CPython raises OverflowError
    from 2^1024 on, where this conversion gives infinity; the length of
    a list is at most [sys.maxsize = 2^63 - 1], far below. *)
Definition float_of_int (z : Z) : binary64 :=
  binary_normalize prec emax z 0 false.

(** [n * x] for the length [n] of a list and a float [x] *)
Definition int_times (n : nat) (x : binary64) : binary64 :=
  fmul (float_of_int (Z.of_nat n)) x.

(** The builtin [min(a, b)]: the first argument, unless the second is
    smaller. *)
Definition py_min (a b : binary64) : binary64 :=
  if SFltb b a then b else a.

(** ** The result record *)

Record ParseResult : Type := {
  r_type : constraint_type;
  r_entities : list entity;
  r_conditions : list condition;
  r_confidence : binary64;
  r_temporal : option temporal_fields;
  r_capacity : option capacity_fields;
  r_location : option location_fields;
  r_preference : option preference_fields;
  r_rest : option rest_fields
}.

(** Values of a dict, as far as the confidence score tells them apart. *)
Inductive value : Type :=
| VNone
| VBool (b : bool)
| VInt (z : Z)
| VFloat (q : Q)
| VStr (s : text)
| VList (l : list text).

Definition opt_value {A : Type} (f : A -> value) (o : option A) : value :=
  match o with
  | Some a => f a
  | None => VNone
  end.

Definition temporal_values (d : temporal_fields) : list value :=
  [VList (days_of_week d); VList (excluded_dates d); VList (time_ranges d);
   opt_value VStr (before_time d); opt_value VStr (after_time d)].

Definition capacity_values (d : capacity_fields) : list value :=
  [opt_value VInt (max_count d); opt_value VInt (min_count d);
   opt_value VStr (per_period d); opt_value VStr (resource d)].

Definition location_values (d : location_fields) : list value :=
  [opt_value VStr (required_venue d); VList (excluded_venues d);
   opt_value VStr (home_away_preference d)].

Definition rest_values (d : rest_fields) : list value :=
  [opt_value VInt (min_hours d); opt_value VInt (min_days d);
   VBool (between_events d)].

Definition preference_values (d : preference_fields) : list value :=
  [VList (preferred_times d); VList (preferred_days d); VFloat (weight d)].

(** The values of an optional dict; [{}] has none. *)
Definition slot_values {A : Type} (f : A -> list value) (o : option A)
  : list value :=
  match o with
  | Some d => f d
  | None => []
  end.

(** [parsed_result.get(parsed_result["type"], {}).values()]: the result
    has no key ["unknown"], so the default [{}] is taken for it. *)
Definition constraint_data (r : ParseResult) : list value :=
  match r_type r with
  | Temporal => slot_values temporal_values (r_temporal r)
  | Capacity => slot_values capacity_values (r_capacity r)
  | Location => slot_values location_values (r_location r)
  | Rest => slot_values rest_values (r_rest r)
  | Preference => slot_values preference_values (r_preference r)
  | Unknown => []
  end.

(** [v is not None and v != []] *)
Definition is_set (v : value) : bool :=
  match v with
  | VNone => false
  | VList [] => false
  | _ => true
  end.

Definition _calculate_confidence (t : text) (parsed_result : ParseResult)
  : binary64 :=
  let score := lit 0.0 in
  let score :=
    if negb (constraint_type_eqb (r_type parsed_result) Unknown)
    then fadd score (lit 0.3) else score in
  let entity_count := List.length (r_entities parsed_result) in
  let score :=
    if 0 <? entity_count
    then fadd score (py_min (lit 0.3) (int_times entity_count (lit 0.1)))
    else score in
  let condition_count := List.length (r_conditions parsed_result) in
  let score :=
    if 0 <? condition_count
    then fadd score (py_min (lit 0.2) (int_times condition_count (lit 0.1)))
    else score in
  let data := constraint_data parsed_result in
  let score :=
    if negb (match data with [] => true | _ => false end)
       && existsb is_set data
    then fadd score (lit 0.2) else score in
  py_min (lit 1.0) score.

(** ** The pipeline *)

Definition initial_result : ParseResult :=
  {| r_type := Unknown; r_entities := []; r_conditions := [];
     r_confidence := lit 0.0;
     r_temporal := None; r_capacity := None; r_location := None;
     r_preference := None; r_rest := None |}.

Definition set_type (c : constraint_type) (r : ParseResult) : ParseResult :=
  {| r_type := c; r_entities := r_entities r;
     r_conditions := r_conditions r; r_confidence := r_confidence r;
     r_temporal := r_temporal r; r_capacity := r_capacity r;
     r_location := r_location r; r_preference := r_preference r;
     r_rest := r_rest r |}.

Definition set_entities (es : list entity) (r : ParseResult) : ParseResult :=
  {| r_type := r_type r; r_entities := es;
     r_conditions := r_conditions r; r_confidence := r_confidence r;
     r_temporal := r_temporal r; r_capacity := r_capacity r;
     r_location := r_location r; r_preference := r_preference r;
     r_rest := r_rest r |}.

Definition set_conditions (cs : list condition) (r : ParseResult)
  : ParseResult :=
  {| r_type := r_type r; r_entities := r_entities r;
     r_conditions := cs; r_confidence := r_confidence r;
     r_temporal := r_temporal r; r_capacity := r_capacity r;
     r_location := r_location r; r_preference := r_preference r;
     r_rest := r_rest r |}.

Definition set_confidence (q : binary64) (r : ParseResult) : ParseResult :=
  {| r_type := r_type r; r_entities := r_entities r;
     r_conditions := r_conditions r; r_confidence := q;
     r_temporal := r_temporal r; r_capacity := r_capacity r;
     r_location := r_location r; r_preference := r_preference r;
     r_rest := r_rest r |}.

Definition set_temporal (d : temporal_fields) (r : ParseResult)
  : ParseResult :=
  {| r_type := r_type r; r_entities := r_entities r;
     r_conditions := r_conditions r; r_confidence := r_confidence r;
     r_temporal := Some d; r_capacity := r_capacity r;
     r_location := r_location r; r_preference := r_preference r;
     r_rest := r_rest r |}.

Definition set_capacity (d : capacity_fields) (r : ParseResult)
  : ParseResult :=
  {| r_type := r_type r; r_entities := r_entities r;
     r_conditions := r_conditions r; r_confidence := r_confidence r;
     r_temporal := r_temporal r; r_capacity := Some d;
     r_location := r_location r; r_preference := r_preference r;
     r_rest := r_rest r |}.

Definition set_location (d : location_fields) (r : ParseResult)
  : ParseResult :=
  {| r_type := r_type r; r_entities := r_entities r;
     r_conditions := r_conditions r; r_confidence := r_confidence r;
     r_temporal := r_temporal r; r_capacity := r_capacity r;
     r_location := Some d; r_preference := r_preference r;
     r_rest := r_rest r |}.

Definition set_preference (d : preference_fields) (r : ParseResult)
  : ParseResult :=
  {| r_type := r_type r; r_entities := r_entities r;
     r_conditions := r_conditions r; r_confidence := r_confidence r;
     r_temporal := r_temporal r; r_capacity := r_capacity r;
     r_location := r_location r; r_preference := Some d;
     r_rest := r_rest r |}.

Definition set_rest (d : rest_fields) (r : ParseResult) : ParseResult :=
  {| r_type := r_type r; r_entities := r_entities r;
     r_conditions := r_conditions r; r_confidence := r_confidence r;
     r_temporal := r_temporal r; r_capacity := r_capacity r;
     r_location := r_location r; r_preference := r_preference r;
     r_rest := Some d |}.

Definition _parse_constraint (t : text) : result ParseResult :=
  let text_lower := lower t in
  let result := initial_result in
  let constraint_type := _classify_constraint_type text_lower in
  let result := set_type constraint_type result in
  entities <- _extract_entities t ;;
  let result := set_entities entities result in
  result <-
    match constraint_type with
    | Temporal =>
        let result :=
          set_temporal (_parse_temporal_constraint text_lower) result in
        Ok (set_conditions (_extract_temporal_conditions text_lower) result)
    | Capacity =>
        d <- _parse_capacity_constraint text_lower ;;
        let result := set_capacity d result in
        Ok (set_conditions (_extract_capacity_conditions text_lower) result)
    | Location =>
        let result :=
          set_location (_parse_location_constraint text_lower) result in
        Ok (set_conditions (_extract_location_conditions text_lower) result)
    | Rest =>
        d <- _parse_rest_constraint text_lower ;;
        let result := set_rest d result in
        Ok (set_conditions (_extract_rest_conditions text_lower) result)
    | Preference =>
        let result :=
          set_preference (_parse_preference_constraint text_lower) result in
        Ok (set_conditions (_extract_preference_conditions text_lower)
                           result)
    | Unknown => Ok result
    end ;;
  Ok (set_confidence (_calculate_confidence t result) result).

(** ** Definitions used to state the properties *)

(** The keyword set of a category and its score, as the classifier
    counts it. *)
Definition keywords_of (c : constraint_type) : list string :=
  match c with
  | Temporal => temporal_keywords
  | Capacity => capacity_keywords
  | Location => location_keywords
  | Rest => rest_keywords
  | Preference => preference_keywords
  | Unknown => []
  end.

Definition category_score (c : constraint_type) (t : text) : nat :=
  count_keywords (keywords_of c) t.

(** Position of a category in the order of the [scores] dict. *)
Definition rank (c : constraint_type) : nat :=
  match c with
  | Temporal => 0
  | Capacity => 1
  | Location => 2
  | Rest => 3
  | Preference => 4
  | Unknown => 5
  end.

Definition categories : list constraint_type :=
  [Temporal; Capacity; Location; Rest; Preference].

(** The number of keywords of a set that occur in the text. *)
Definition containment_count (keywords : list string) (t : text) : nat :=
  List.length (filter (fun kw => kw_in kw t) keywords).

(** Length of the run of digits at the head of a text, and of the
    longest run of digits anywhere in it. *)
Fixpoint digit_prefix (t : text) : nat :=
  match t with
  | c :: t' => if is_digit c then S (digit_prefix t') else 0
  | [] => 0
  end.

Fixpoint longest_digit_run (t : text) : nat :=
  match t with
  | [] => 0
  | _ :: t' => Nat.max (digit_prefix t) (longest_digit_run t')
  end.

(** The words a pattern can match, leaving aside what [\b] requires of
    the surrounding characters and the case rule of literals. *)
Fixpoint lang (r : regex) (w : text) : Prop :=
  match r with
  | Eps => w = []
  | Chr _ => exists c, w = [c]
  | Cls p => exists c, w = [c] /\ p c = true
  | Seq r1 r2 => exists u v, w = u ++ v /\ lang r1 u /\ lang r2 v
  | Alt r1 r2 => lang r1 w \/ lang r2 w
  | Rep p lo _ => forallb p w = true /\ lo <= List.length w
  | Bnd => w = []
  | Grp r1 => lang r1 w
  end.

(** The words the capturing group of a pattern can record. *)
Fixpoint caps (r : regex) (g : text) : Prop :=
  match r with
  | Seq r1 r2 => caps r1 g \/ caps r2 g
  | Alt r1 r2 => caps r1 g \/ caps r2 g
  | Grp r1 => lang r1 g
  | _ => False
  end.

(** Patterns in which every match passes through the capturing group. *)
Fixpoint always_caps (r : regex) : bool :=
  match r with
  | Seq r1 r2 => always_caps r1 || always_caps r2
  | Alt r1 r2 => always_caps r1 && always_caps r2
  | Grp _ => true
  | _ => false
  end.

(** [g] occurs in [t] as a contiguous piece. *)
Definition piece_of (g t : text) : Prop := exists a b, t = a ++ g ++ b.

(** How the capture changes while [r] matches the word [w]. *)
Definition cap_step (r : regex) (w : text) (cap cap' : option text) : Prop :=
  (cap' = cap /\ always_caps r = false)
  \/ exists g, cap' = Some g /\ caps r g /\ piece_of g w.

(** What a match object of pattern [r] on text [t] is. *)
Definition sound_match (r : regex) (t : text) (m : match_obj) : Prop :=
  lang r (group0 m) /\ piece_of (group0 m) t
  /\ cap_step r t None (group1 m).

(** A non-empty word of digits. *)
Definition digit_word (w : text) : Prop :=
  forallb is_digit w = true /\ 1 <= List.length w.

(** The patterns whose group is handed to [int]. *)
Definition int_patterns : list regex :=
  max_patterns ++ min_patterns ++ [day_between_pattern; hour_between_pattern].

(** An [if]/[elif] chain as an ordered list of rules: the condition of
    the first rule whose cue test holds, none if no test holds. *)
Fixpoint first_rule (rules : list ((text -> bool) * condition)) (t : text)
  : list condition :=
  match rules with
  | [] => []
  | (cue, c) :: rules' => if cue t then [c] else first_rule rules' t
  end.

Definition temporal_rules : list ((text -> bool) * condition) :=
  [ (fun t => kw_in "cannot" t || kw_in "not" t,
     mk_condition not_equals "specified_time");
    (fun t => kw_in "must" t || kw_in "only" t,
     mk_condition equals "specified_time");
    (fun t => kw_in "before" t, mk_condition less_than "specified_time");
    (fun t => kw_in "after" t,
     mk_condition greater_than "specified_time") ].

Definition capacity_rules : list ((text -> bool) * condition) :=
  [ (fun t => kw_in "no more than" t || kw_in "maximum" t,
     mk_condition less_than_or_equal "max_count");
    (fun t => kw_in "at least" t || kw_in "minimum" t,
     mk_condition greater_than_or_equal "min_count") ].

Definition location_rules : list ((text -> bool) * condition) :=
  [ (fun t => kw_in "must" t && kw_in "home" t,
     mk_condition equals "home_venue");
    (fun t => kw_in "cannot" t,
     mk_condition not_equals "specified_venue") ].

Definition rest_rules : list ((text -> bool) * condition) :=
  [ (fun t => kw_in "at least" t || kw_in "minimum" t,
     mk_condition greater_than_or_equal "min_rest_period") ].

Definition preference_rules : list ((text -> bool) * condition) :=
  [ (fun t => kw_in "prefer" t || kw_in "like" t,
     mk_condition prefer "specified_option") ].

(** The four terms of the confidence score, as binary64 numbers. *)
Definition type_term (r : ParseResult) : binary64 :=
  match r_type r with
  | Unknown => lit 0.0
  | _ => lit 0.3
  end.

Definition entity_term (r : ParseResult) : binary64 :=
  py_min (lit 0.3) (int_times (List.length (r_entities r)) (lit 0.1)).

Definition condition_term (r : ParseResult) : binary64 :=
  py_min (lit 0.2) (int_times (List.length (r_conditions r)) (lit 0.1)).

Definition data_term (r : ParseResult) : binary64 :=
  if existsb is_set (constraint_data r) then lit 0.2 else lit 0.0.

(** Their sum, added from left to right as the code adds them. *)
Definition score_sum (r : ParseResult) : binary64 :=
  fadd (fadd (fadd (type_term r) (entity_term r)) (condition_term r))
       (data_term r).

(** [x <= y] and [x < y] on binary64 numbers; both fail on NaN. *)
Definition fle (x y : binary64) : Prop := SFleb x y = true.

Definition flt (x y : binary64) : Prop := SFltb x y = true.

(** The slots of a result that differ from the initial [{}]. *)
Definition is_some {A : Type} (o : option A) : bool :=
  match o with
  | Some _ => true
  | None => false
  end.

Definition filled_slots (r : ParseResult) : list constraint_type :=
  (if is_some (r_temporal r) then [Temporal] else [])
  ++ (if is_some (r_capacity r) then [Capacity] else [])
  ++ (if is_some (r_location r) then [Location] else [])
  ++ (if is_some (r_rest r) then [Rest] else [])
  ++ (if is_some (r_preference r) then [Preference] else []).

(** The inputs of the scenarios. *)
Definition scenario1 : text :=
  txt "Team A cannot play before 6:00 PM on Fridays".

Definition scenario3 : text :=
  txt "Teams need at least 2 days between matches".

(** A text of [n] digits. *)
Definition digits (n : nat) : text := repeat "1"%char n.

(** ** The request handler

    The handler methods return nothing; what they do is the sequence of
    calls they make on the response: it is the value of the model.  The
    bytes of the request are read and decoded by the library
    ([rfile.read], [bytes.decode], [json.loads]); the model starts from
    what these calls give, and ends at the argument of [json.dumps]. *)

(** [s.strip()]: white space removed at both ends. *)
Fixpoint lstrip (t : text) : text :=
  match t with
  | [] => []
  | c :: t' => if is_space c then lstrip t' else t
  end.

Definition rstrip (t : text) : text := rev (lstrip (rev t)).

Definition strip (t : text) : text := rstrip (lstrip t).

(** The objects [json.loads] builds.  A dict is the list of its items;
    its keys are distinct, and a lookup takes the first item of a key. *)
#[warnings="-register-all"]
Inductive pyobj : Type :=
| PNone
| PBool (b : bool)
| PInt (z : Z)
| PFloat (q : Q)
| PStr (s : text)
| PList (l : list pyobj)
| PDict (items : list (text * pyobj)).

Fixpoint text_eqb (a b : text) : bool :=
  match a, b with
  | [], [] => true
  | x :: a', y :: b' => Ascii.eqb x y && text_eqb a' b'
  | _, _ => false
  end.

Fixpoint dict_lookup (key : text) (items : list (text * pyobj))
  : option pyobj :=
  match items with
  | [] => None
  | (k, v) :: items' =>
      if text_eqb key k then Some v else dict_lookup key items'
  end.

(** The exceptions [do_POST] can meet: [JSONDecodeError] from
    [json.loads]; [AttributeError] from [data.get] or [.strip] on an
    object that has no such method; an exception of the core; any other
    exception of reading and decoding the request (a missing or
    malformed [Content-Length], bytes that are not UTF-8). *)
Inductive handler_exn : Type :=
| JSONDecodeError
| AttributeError
| CoreError (e : exn)
| RequestError.

Inductive attempt (A : Type) : Type :=
| Done (a : A)
| Thrown (e : handler_exn).

Arguments Done {A} a.
Arguments Thrown {A} e.

Definition and_then {A B : Type} (c : attempt A) (k : A -> attempt B)
  : attempt B :=
  match c with
  | Done a => k a
  | Thrown e => Thrown e
  end.

(** What lines 11 to 13 of [do_POST] give. *)
Inductive request : Type :=
| Unreadable
| InvalidJson
| Json (data : pyobj).

Definition load (req : request) : attempt pyobj :=
  match req with
  | Unreadable => Thrown RequestError
  | InvalidJson => Thrown JSONDecodeError
  | Json data => Done data
  end.

(** [data.get('text', '')] *)
Definition get_text (data : pyobj) : attempt pyobj :=
  match data with
  | PDict items =>
      Done match dict_lookup (txt "text") items with
           | Some v => v
           | None => PStr []
           end
  | _ => Thrown AttributeError
  end.

(** [value.strip()] *)
Definition strip_value (value : pyobj) : attempt text :=
  match value with
  | PStr s => Done (strip s)
  | _ => Thrown AttributeError
  end.

(** [self._parse_constraint(constraint_text)] inside the [try]. *)
Definition call_core (t : text) : attempt ParseResult :=
  match _parse_constraint t with
  | Ok r => Done r
  | Raise e => Thrown (CoreError e)
  end.

(** The message of an error response: a literal, or the f-string
    [f"Internal server error: {str(e)}"]. *)
Inductive error_message : Type :=
| Message (s : string)
| InternalServerError (e : handler_exn).

(** The argument of [json.dumps]: the result, or [{"error": message}]. *)
Inductive payload : Type :=
| ResultBody (r : ParseResult)
| ErrorBody (message : error_message).

Inductive event : Type :=
| SendResponse (status_code : nat)
| SendHeader (keyword value : string)
| EndHeaders
| WriteJson (data : payload).

Definition _send_cors_headers : list event :=
  [ SendHeader "Access-Control-Allow-Origin" "*";
    SendHeader "Access-Control-Allow-Methods" "POST, OPTIONS";
    SendHeader "Access-Control-Allow-Headers" "Content-Type" ].

Definition _send_response (status_code : nat) (data : ParseResult)
  : list event :=
  [SendResponse status_code]
  ++ _send_cors_headers
  ++ [SendHeader "Content-type" "application/json"; EndHeaders;
      WriteJson (ResultBody data)].

Definition _send_error (status_code : nat) (message : error_message)
  : list event :=
  [SendResponse status_code]
  ++ _send_cors_headers
  ++ [SendHeader "Content-type" "application/json"; EndHeaders;
      WriteJson (ErrorBody message)].

Definition do_OPTIONS : list event := _send_cors_headers ++ [EndHeaders].

Definition is_empty (t : text) : bool :=
  match t with
  | [] => true
  | _ :: _ => false
  end.

(** The body of the [try] of [do_POST]. *)
Definition do_POST_try (req : request) : attempt (list event) :=
  and_then (load req) (fun data =>
  and_then (get_text data) (fun value =>
  and_then (strip_value value) (fun constraint_text =>
  if is_empty constraint_text then
    Done (_send_error 400 (Message "No constraint text provided"))
  else
    and_then (call_core constraint_text) (fun parsed_result =>
    Done (_send_response 200 parsed_result))))).

Definition do_POST (req : request) : list event :=
  match do_POST_try req with
  | Done trace => trace
  | Thrown JSONDecodeError => _send_error 400 (Message "Invalid JSON")
  | Thrown e => _send_error 500 (InternalServerError e)
  end.

(** ** Further definitions used to state properties *)

(** The words a pattern can match, with the case rule of its literals. *)
Fixpoint lang_c (icase : bool) (r : regex) (w : text) : Prop :=
  match r with
  | Eps => w = []
  | Chr c => exists t, w = [t] /\ chr_eqb icase c t = true
  | Cls p => exists c, w = [c] /\ p c = true
  | Seq r1 r2 =>
      exists u v, w = u ++ v /\ lang_c icase r1 u /\ lang_c icase r2 v
  | Alt r1 r2 => lang_c icase r1 w \/ lang_c icase r2 w
  | Rep p lo _ => forallb p w = true /\ lo <= List.length w
  | Bnd => w = []
  | Grp r1 => lang_c icase r1 w
  end.

(** The words a pattern can match together with the capture it leaves:
    [match_rel icase r w cap cap'] when [r] can match [w] and turn the
    capture [cap] into [cap'].  What [\b] asks of the neighbouring
    characters and the priorities of the matcher are left aside. *)
Fixpoint match_rel (icase : bool) (r : regex) (w : text)
         (cap cap' : option text) : Prop :=
  match r with
  | Eps => w = [] /\ cap' = cap
  | Chr c => (exists t, w = [t] /\ chr_eqb icase c t = true) /\ cap' = cap
  | Cls p => (exists c, w = [c] /\ p c = true) /\ cap' = cap
  | Seq r1 r2 =>
      exists u v mid, w = u ++ v /\ match_rel icase r1 u cap mid
                      /\ match_rel icase r2 v mid cap'
  | Alt r1 r2 => match_rel icase r1 w cap cap' \/ match_rel icase r2 w cap cap'
  | Rep p lo _ => (forallb p w = true /\ lo <= List.length w) /\ cap' = cap
  | Bnd => w = [] /\ cap' = cap
  | Grp r1 => (exists mid, match_rel icase r1 w cap mid) /\ cap' = Some w
  end.

(** The character before the position reached after the word [w]. *)
Definition after (prev : option ascii) (w : text) : option ascii :=
  fold_left (fun _ c => Some c) w prev.

Definition within (hi : option nat) (n : nat) : Prop :=
  match hi with
  | None => True
  | Some h => n <= h
  end.

(** [matches icase r prev w rest]: the pattern [r] matches the word [w]
    when [prev] is the character before it and [rest] the text after
    it.  This is the meaning of a pattern without the priorities of the
    matcher: bounds of repetitions and [\b] included. *)
Fixpoint matches (icase : bool) (r : regex) (prev : option ascii)
         (w rest : text) : Prop :=
  match r with
  | Eps => w = []
  | Chr c => exists t, w = [t] /\ chr_eqb icase c t = true
  | Cls p => exists c, w = [c] /\ p c = true
  | Seq r1 r2 =>
      exists u v, w = u ++ v
                  /\ matches icase r1 prev u (v ++ rest)
                  /\ matches icase r2 (after prev u) v rest
  | Alt r1 r2 => matches icase r1 prev w rest \/ matches icase r2 prev w rest
  | Rep p lo hi =>
      forallb p w = true /\ lo <= List.length w /\ within hi (List.length w)
  | Bnd =>
      w = [] /\ xorb (opt_is_word prev) (opt_is_word (hd_error rest)) = true
  | Grp r1 => matches icase r1 prev w rest
  end.

(** The pattern matches somewhere in the text. *)
Definition occurs (icase : bool) (r : regex) (t : text) : Prop :=
  exists a w b, t = a ++ w ++ b /\ matches icase r (after None a) w b.

(** The words of a clock time in a lower-cased text: one or two digits,
    then either ":", two digits, white space if any and "am" or "pm" if
    any, or white space if any and "am" or "pm". *)
Definition clock_word (g : text) : Prop :=
  exists h,
    (forallb is_digit h = true /\ 1 <= List.length h <= 2)
    /\ ((exists m1 m2 sp mer,
            is_digit m1 = true /\ is_digit m2 = true
            /\ forallb is_space sp = true
            /\ (mer = [] \/ mer = txt "am" \/ mer = txt "pm")
            /\ g = h ++ txt ":" ++ [m1; m2] ++ sp ++ mer)
        \/ (exists sp mer,
               forallb is_space sp = true
               /\ (mer = txt "am" \/ mer = txt "pm")
               /\ g = h ++ sp ++ mer)).

(** The confidence the entity extractor gives to each kind. *)
Definition kind_confidence (k : entity_kind) : Q :=
  match k with
  | Team => 0.8
  | DayOfWeek => 0.95
  | Time => 0.9
  | Number => 0.85
  | Venue => 0.9
  end.

Definition week_names : list text :=
  map txt ["Monday"; "Tuesday"; "Wednesday"; "Thursday"; "Friday";
           "Saturday"; "Sunday"]%string.

(** The status line of a response, when it has one. *)
Definition status_of (trace : list event) : option nat :=
  match trace with
  | SendResponse code :: _ => Some code
  | _ => None
  end.

(** The headers of a response, in the order they are sent. *)
Fixpoint headers_of (trace : list event) : list (string * string) :=
  match trace with
  | [] => []
  | SendHeader k v :: trace' => (k, v) :: headers_of trace'
  | _ :: trace' => headers_of trace'
  end.

(** What a response writes after its headers. *)
Fixpoint bodies_of (trace : list event) : list payload :=
  match trace with
  | [] => []
  | WriteJson d :: trace' => d :: bodies_of trace'
  | _ :: trace' => bodies_of trace'
  end.

Definition cors_headers : list (string * string) :=
  [ ("Access-Control-Allow-Origin", "*");
    ("Access-Control-Allow-Methods", "POST, OPTIONS");
    ("Access-Control-Allow-Headers", "Content-Type") ]%string.

(** A non-empty run of white space. *)
Definition white (ws : text) : Prop :=
  ws <> [] /\ forallb is_space ws = true.

(** A run of digits that stands alone in a text [a ++ w ++ b]: no word
    character right before it and none right after it. *)
Definition standalone_digits (a w b : text) : Prop :=
  digit_word w
  /\ opt_is_word (after None a) = false
  /\ opt_is_word (hd_error b) = false.

(** A text without white space at either end. *)
Definition trimmed (t : text) : Prop :=
  (forall c t', t = c :: t' -> is_space c = false)
  /\ (forall c t', t = t' ++ [c] -> is_space c = false).

(** The string [data.get('text', '')] gives for a dict with these items:
    the string under "text", or the default when the key is missing. *)
Definition text_of (items : list (text * pyobj)) (s : text) : Prop :=
  dict_lookup (txt "text") items = Some (PStr s)
  \/ (dict_lookup (txt "text") items = None /\ s = []).

(** The three kinds of response of [do_POST]. *)
Definition no_text_response : list event :=
  _send_error 400 (Message "No constraint text provided").

Definition invalid_json_response : list event :=
  _send_error 400 (Message "Invalid JSON").

Definition internal_error_response (e : handler_exn) : list event :=
  _send_error 500 (InternalServerError e).

(** A request whose JSON object holds the string [s] under "text". *)
Definition text_request (s : text) : request :=
  Json (PDict [(txt "text", PStr s)]).

(** * Properties *)

(** ** Substring containment *)

Lemma starts_with_iff (p t : text) :
  starts_with p t = true <-> exists b, t = p ++ b.
Proof.
  revert t; induction p as [|a p IH]; intros t; simpl.
  - split; [intros _; now exists t | reflexivity].
  - destruct t as [|c t].
    + split; [discriminate | intros [b Hb]; discriminate].
    + rewrite andb_true_iff, IH, Ascii.eqb_eq. split.
      * intros [-> [b ->]]. now exists b.
      * intros [b Hb]. injection Hb as -> ->. split; [reflexivity | now exists b].
Qed.

Lemma contains_iff (kw t : text) :
  contains kw t = true <-> piece_of kw t.
Proof.
  unfold piece_of. induction t as [|c t IH]; simpl.
  - rewrite orb_false_r, starts_with_iff. split.
    + intros [b Hb]. now exists [], b.
    + intros [a [b Hab]]. destruct a; simpl in Hab.
      * now exists b.
      * discriminate.
  - rewrite orb_true_iff, starts_with_iff, IH. split.
    + intros [[b Hb] | [a [b Hab]]].
      * now exists [], b.
      * exists (c :: a), b. simpl. now rewrite Hab.
    + intros [a [b Hab]]. destruct a as [|c' a]; simpl in Hab.
      * left. now exists b.
      * right. injection Hab as _ ->. now exists a, b.
Qed.

Lemma piece_of_trans (a b t : text) :
  piece_of a b -> piece_of b t -> piece_of a t.
Proof.
  intros [x [y ->]] [u [v ->]]. exists (u ++ x), (y ++ v).
  now rewrite <- !app_assoc.
Qed.

Lemma contains_trans (a b t : text) :
  contains a b = true -> contains b t = true -> contains a t = true.
Proof.
  rewrite !contains_iff. apply piece_of_trans.
Qed.

Lemma lower_app (a b : text) : lower (a ++ b) = lower a ++ lower b.
Proof. apply map_app. Qed.

Lemma contains_lower (kw t : text) :
  contains kw t = true -> contains (lower kw) (lower t) = true.
Proof.
  rewrite !contains_iff. intros [a [b ->]].
  exists (lower a), (lower b). now rewrite !lower_app.
Qed.

(** ** The classifier *)

Lemma count_keywords_containment (keywords : list string) (t : text) :
  count_keywords keywords t = containment_count keywords t.
Proof.
  unfold count_keywords, containment_count.
  induction keywords as [|kw kws IH]; simpl; [reflexivity|].
  destruct (kw_in kw t); simpl; now rewrite IH.
Qed.

Lemma count_keywords_pos (keywords : list string) (kw : string) (t : text) :
  In kw keywords -> kw_in kw t = true -> 1 <= count_keywords keywords t.
Proof.
  unfold count_keywords.
  induction keywords as [|k ks IH]; simpl; [tauto|].
  intros [-> | Hin] Hkw.
  - rewrite Hkw. lia.
  - specialize (IH Hin Hkw). lia.
Qed.

Ltac split_ltb :=
  repeat match goal with
         | |- context [?a <? ?b] => destruct (Nat.ltb_spec a b); simpl
         | H : context [?a <? ?b] |- _ =>
             destruct (Nat.ltb_spec a b); simpl in H
         end.

(** The choice among five scores, whatever the text they come from. *)
Lemma max_key_five (a b c d e : nat) :
  let l := [(Temporal, a); (Capacity, b); (Location, c); (Rest, d);
            (Preference, e)] in
  exists n, In (max_key l, n) l
            /\ (forall k m, In (k, m) l -> m <= n)
            /\ (forall k m, In (k, m) l -> rank k < rank (max_key l) -> m < n).
Proof.
  simpl. split_ltb.
  all: match goal with
       | |- exists n, ((?k, ?x) = (?k', _) \/ _) /\ _ =>
           first [ exists a; split; [left; reflexivity|]
                 | exists b; split; [right; left; reflexivity|]
                 | exists c; split; [do 2 right; left; reflexivity|]
                 | exists d; split; [do 3 right; left; reflexivity|]
                 | exists e; split; [do 4 right; left; reflexivity|] ]
       end.
  all: split; intros k m Hin; intros;
    repeat (destruct Hin as [Hin | Hin]; [injection Hin as <- <-|]);
    try contradiction; simpl in *; lia.
Qed.

Lemma max_of_five (a b c d e : nat) :
  max_of [a; b; c; d; e] = 0 <-> a = 0 /\ b = 0 /\ c = 0 /\ d = 0 /\ e = 0.
Proof. unfold max_of; simpl. lia. Qed.

Lemma classify_unknown_iff (t : text) :
  _classify_constraint_type t = Unknown
  <-> forall c, In c categories -> category_score c t = 0.
Proof.
  unfold _classify_constraint_type, scores.
  set (a := count_keywords temporal_keywords t).
  set (b := count_keywords capacity_keywords t).
  set (c := count_keywords location_keywords t).
  set (d := count_keywords rest_keywords t).
  set (e := count_keywords preference_keywords t).
  simpl map. destruct (Nat.eqb_spec (max_of [a; b; c; d; e]) 0) as [Hz | Hnz].
  - split; [intros _ | reflexivity].
    apply max_of_five in Hz. intros k Hk. simpl in Hk.
    unfold category_score.
    repeat (destruct Hk as [<- | Hk]; [simpl; tauto|]). contradiction.
  - split.
    + intros Hu. exfalso.
      destruct (max_key_five a b c d e) as (n & Hin & _). cbv zeta in Hin.
      rewrite Hu in Hin. simpl in Hin.
      repeat (destruct Hin as [Hin | Hin]; [discriminate|]). contradiction.
    + intros Hall. exfalso. apply Hnz, max_of_five.
      repeat split.
      * apply (Hall Temporal); simpl; tauto.
      * apply (Hall Capacity); simpl; tauto.
      * apply (Hall Location); simpl; tauto.
      * apply (Hall Rest); simpl; tauto.
      * apply (Hall Preference); simpl; tauto.
Qed.

Lemma classify_first_max (t : text) :
  _classify_constraint_type t <> Unknown ->
  (forall c, category_score c t
             <= category_score (_classify_constraint_type t) t)
  /\ (forall c, rank c < rank (_classify_constraint_type t) ->
                category_score c t
                < category_score (_classify_constraint_type t) t).
Proof.
  unfold _classify_constraint_type, scores.
  set (a := count_keywords temporal_keywords t).
  set (b := count_keywords capacity_keywords t).
  set (c := count_keywords location_keywords t).
  set (d := count_keywords rest_keywords t).
  set (e := count_keywords preference_keywords t).
  simpl map. destruct (Nat.eqb_spec (max_of [a; b; c; d; e]) 0) as [Hz | Hnz];
    [congruence|].
  intros _.
  destruct (max_key_five a b c d e) as (n & Hin & Hmax & Hfirst).
  cbv zeta in Hin, Hmax, Hfirst.
  set (l := [(Temporal, a); (Capacity, b); (Location, c); (Rest, d);
             (Preference, e)]) in *.
  assert (Hsc : forall k m, In (k, m) l -> category_score k t = m).
  { intros k m Hk. subst l. simpl in Hk.
    repeat (destruct Hk as [Hk | Hk]; [injection Hk as <- <-; reflexivity|]).
    contradiction. }
  assert (Hall : forall k, k = Unknown \/ In (k, category_score k t) l).
  { intros k. subst l. destruct k; simpl; tauto. }
  rewrite (Hsc _ _ Hin). split; intros k.
  - destruct (Hall k) as [-> | Hk];
      [unfold category_score, count_keywords; simpl; lia|].
    now apply (Hmax k).
  - intros Hr. destruct (Hall k) as [-> | Hk].
    + destruct (max_key l); simpl in Hr; lia.
    + now apply (Hfirst k).
Qed.

(** ** The matcher *)

Lemma firstn_consumed (w s' : text) :
  firstn (List.length (w ++ s') - List.length s') (w ++ s') = w.
Proof.
  rewrite length_app.
  replace (List.length w + List.length s' - List.length s')
    with (List.length w) by lia.
  rewrite firstn_app, Nat.sub_diag, firstn_all. simpl. apply app_nil_r.
Qed.

Lemma piece_of_refl (w : text) : piece_of w w.
Proof. exists [], []. simpl. now rewrite app_nil_r. Qed.

Lemma piece_of_app_l (g w v : text) : piece_of g w -> piece_of g (w ++ v).
Proof.
  intros [a [b ->]]. exists a, (b ++ v). now rewrite <- !app_assoc.
Qed.

Lemma piece_of_app_r (g w u : text) : piece_of g w -> piece_of g (u ++ w).
Proof.
  intros [a [b ->]]. exists (u ++ a), b. now rewrite <- !app_assoc.
Qed.

Lemma piece_of_cons (g w : text) (c : ascii) :
  piece_of g w -> piece_of g (c :: w).
Proof. apply (piece_of_app_r [c]). Qed.

Lemma cap_step_piece (r : regex) (w t : text) (cap cap' : option text) :
  cap_step r w cap cap' -> piece_of w t -> cap_step r t cap cap'.
Proof.
  intros [H | (g & Hg & Hc & Hp)] Hwt; [now left | right].
  exists g. repeat split; trivial. now apply piece_of_trans with w.
Qed.

Lemma rep_sound (p : ascii -> bool) (k : cont) (cap : option text)
      (m : match_obj) :
  forall (s : text) (lo : nat) (hi : option nat) (prev : option ascii),
    rep p lo hi prev s cap k = Some m ->
    exists w s' prev',
      s = w ++ s' /\ forallb p w = true /\ lo <= List.length w
      /\ k prev' s' cap = Some m.
Proof.
  induction s as [|c s IH]; intros lo hi prev H; simpl in H.
  - destruct lo; [|discriminate]. exists [], [], prev. simpl. auto.
  - assert (Hstop :
             match lo with 0 => k prev (c :: s) cap | S _ => None end
             = Some m ->
             exists w s' prev',
               c :: s = w ++ s' /\ forallb p w = true
               /\ lo <= List.length w /\ k prev' s' cap = Some m).
    { destruct lo; [|discriminate]. intros Hk.
      exists [], (c :: s), prev. simpl. auto. }
    destruct (p c && has_room hi) eqn:Hpc; [|auto].
    destruct (rep p (pred lo) (one_less hi) (Some c) s cap k) eqn:Hrec;
      [|auto].
    injection H as ->. apply IH in Hrec.
    destruct Hrec as (w & s' & prev' & -> & Hw & Hlo & Hk).
    exists (c :: w), s', prev'. simpl.
    apply andb_true_iff in Hpc. destruct Hpc as [Hp _].
    rewrite Hp, Hw. repeat split; auto; lia.
Qed.

Section MatcherSound.

Variable icase : bool.

Lemma matcher_sound (r : regex) :
  forall (prev : option ascii) (s : text) (cap : option text) (k : cont)
         (m : match_obj),
    matcher icase r prev s cap k = Some m ->
    exists w s' prev' cap',
      s = w ++ s' /\ lang r w /\ cap_step r w cap cap'
      /\ k prev' s' cap' = Some m.
Proof.
  induction r as [|c|p|r1 IH1 r2 IH2|r1 IH1 r2 IH2|p lo hi| |r1 IH1];
    intros prev s cap k m H; simpl in H.
  - exists [], s, prev, cap. simpl. repeat split; auto. now left.
  - destruct s as [|t s]; [discriminate|].
    destruct (chr_eqb icase c t); [|discriminate].
    exists [t], s, (Some t), cap. simpl. repeat split; eauto. now left.
  - destruct s as [|t s]; [discriminate|].
    destruct (p t) eqn:Hp; [|discriminate].
    exists [t], s, (Some t), cap. simpl. repeat split; eauto. now left.
  - apply IH1 in H. destruct H as (w1 & s1 & prev1 & cap1 & -> & L1 & C1 & H).
    apply IH2 in H. destruct H as (w2 & s2 & prev2 & cap2 & -> & L2 & C2 & H).
    exists (w1 ++ w2), s2, prev2, cap2. rewrite app_assoc.
    repeat split; trivial.
    + simpl. now exists w1, w2.
    + unfold cap_step in *. simpl.
      destruct C2 as [[-> A2] | (g & -> & G2 & P2)].
      * destruct C1 as [[-> A1] | (g & -> & G1 & P1)].
        -- left. now rewrite A1, A2.
        -- right. exists g. repeat split; auto.
           now apply piece_of_app_l.
      * right. exists g. repeat split; auto. now apply piece_of_app_r.
  - destruct (matcher icase r1 prev s cap k) eqn:H1.
    + injection H as ->. apply IH1 in H1.
      destruct H1 as (w & s' & prev' & cap' & -> & L & C & H).
      exists w, s', prev', cap'. repeat split; trivial.
      * now left.
      * unfold cap_step in *. simpl.
        destruct C as [[-> A] | (g & -> & G & P)].
        -- left. now rewrite A.
        -- right. exists g. auto.
    + apply IH2 in H.
      destruct H as (w & s' & prev' & cap' & -> & L & C & H).
      exists w, s', prev', cap'. repeat split; trivial.
      * now right.
      * unfold cap_step in *. simpl.
        destruct C as [[-> A] | (g & -> & G & P)].
        -- left. now rewrite A, andb_false_r.
        -- right. exists g. auto.
  - apply rep_sound in H. destruct H as (w & s' & prev' & -> & Hw & Hlo & H).
    exists w, s', prev', cap. simpl. repeat split; trivial. now left.
  - destruct (xorb _ _); [|discriminate].
    exists [], s, prev, cap. simpl. repeat split; auto. now left.
  - apply IH1 in H. destruct H as (w & s' & prev' & cap' & -> & L & C & H).
    rewrite firstn_consumed in H.
    exists w, s', prev', (Some w). repeat split; trivial.
    right. exists w. repeat split; trivial. apply piece_of_refl.
Qed.

Lemma match_here_sound (r : regex) (prev : option ascii) (s : text)
      (m : match_obj) :
  match_here icase r prev s = Some m ->
  exists s', s = group0 m ++ s' /\ lang r (group0 m)
             /\ cap_step r (group0 m) None (group1 m).
Proof.
  unfold match_here. intros H. apply matcher_sound in H.
  destruct H as (w & s' & prev' & cap' & -> & L & C & H).
  rewrite firstn_consumed in H. injection H as <-. simpl.
  now exists s'.
Qed.

Lemma match_here_sound_match (r : regex) (prev : option ascii) (s : text)
      (m : match_obj) :
  match_here icase r prev s = Some m -> sound_match r s m.
Proof.
  intros H. apply match_here_sound in H. destruct H as (s' & Hs & L & C).
  assert (P : piece_of (group0 m) s).
  { exists [], s'. simpl. exact Hs. }
  repeat split; trivial. now apply cap_step_piece with (group0 m).
Qed.

Lemma sound_match_cons (r : regex) (c : ascii) (s : text) (m : match_obj) :
  sound_match r s m -> sound_match r (c :: s) m.
Proof.
  intros (L & P & C). repeat split; trivial.
  - now apply piece_of_cons.
  - apply cap_step_piece with s; trivial. apply piece_of_cons, piece_of_refl.
Qed.

Lemma search_from_sound (r : regex) (m : match_obj) :
  forall (s : text) (prev : option ascii),
    search_from icase r prev s = Some m -> sound_match r s m.
Proof.
  induction s as [|c s IH]; intros prev H; simpl in H.
  - destruct (match_here icase r prev []) eqn:E; [|discriminate].
    injection H as ->. now apply match_here_sound_match with prev.
  - destruct (match_here icase r prev (c :: s)) eqn:E.
    + injection H as ->. now apply match_here_sound_match with prev.
    + apply sound_match_cons. now apply IH with (Some c).
Qed.

Lemma search_sound (r : regex) (s : text) (m : match_obj) :
  search icase r s = Some m -> sound_match r s m.
Proof. apply search_from_sound. Qed.

Lemma finditer_from_sound (r : regex) (m : match_obj) :
  forall (s : text) (prev : option ascii) (skip : nat),
    In m (finditer_from icase r prev s skip) -> sound_match r s m.
Proof.
  induction s as [|c s IH]; intros prev skip H; simpl in H.
  - destruct skip; simpl in H; [|contradiction].
    destruct (match_here icase r prev []) eqn:E; [|contradiction].
    destruct H as [<- | []]. now apply match_here_sound_match with prev.
  - destruct skip.
    + destruct (match_here icase r prev (c :: s)) eqn:E.
      * destruct H as [<- | H].
        -- now apply match_here_sound_match with prev.
        -- apply sound_match_cons. eapply IH; eassumption.
      * apply sound_match_cons. eapply IH; eassumption.
    + apply sound_match_cons. eapply IH; eassumption.
Qed.

Lemma finditer_sound (r : regex) (s : text) (m : match_obj) :
  In m (finditer icase r s) -> sound_match r s m.
Proof. apply finditer_from_sound. Qed.

End MatcherSound.

(** ** Digit groups and [int] *)

Lemma digit_prefix_app (w b : text) :
  forallb is_digit w = true -> List.length w <= digit_prefix (w ++ b).
Proof.
  induction w as [|c w IH]; simpl; [lia|].
  intros H. apply andb_true_iff in H. destruct H as [Hc Hw].
  rewrite Hc. specialize (IH Hw). lia.
Qed.

Lemma digit_prefix_le_longest (t : text) :
  digit_prefix t <= longest_digit_run t.
Proof.
  destruct t as [|c t]; [simpl; lia|].
  change (longest_digit_run (c :: t))
    with (Nat.max (digit_prefix (c :: t)) (longest_digit_run t)).
  lia.
Qed.

Lemma digit_word_le_longest (w t : text) :
  digit_word w -> piece_of w t -> List.length w <= longest_digit_run t.
Proof.
  intros [Hd _] [a [b ->]]. induction a as [|c a IH].
  - simpl app. pose proof (@digit_prefix_app w b Hd).
    pose proof (digit_prefix_le_longest (w ++ b)). lia.
  - change (longest_digit_run ((c :: a) ++ w ++ b))
      with (Nat.max (digit_prefix (c :: a ++ w ++ b))
                    (longest_digit_run (a ++ w ++ b))).
    lia.
Qed.

Lemma is_digit_lower_char (c : ascii) :
  is_digit (lower_char c) = is_digit c.
Proof.
  destruct c as [[] [] [] [] [] [] [] []]; reflexivity.
Qed.

Lemma digit_prefix_lower (t : text) :
  digit_prefix (lower t) = digit_prefix t.
Proof.
  induction t as [|c t IH]; simpl; [reflexivity|].
  now rewrite is_digit_lower_char, IH.
Qed.

Lemma longest_digit_run_lower (t : text) :
  longest_digit_run (lower t) = longest_digit_run t.
Proof.
  induction t as [|c t IH]; [reflexivity|].
  change (lower (c :: t)) with (lower_char c :: lower t).
  change (longest_digit_run (lower_char c :: lower t))
    with (Nat.max (digit_prefix (lower (c :: t)))
                  (longest_digit_run (lower t))).
  change (longest_digit_run (c :: t))
    with (Nat.max (digit_prefix (c :: t)) (longest_digit_run t)).
  now rewrite digit_prefix_lower, IH.
Qed.

Lemma int_ok (w : text) :
  digit_word w -> List.length w <= int_max_str_digits ->
  int w = Ok (int_of_digits w).
Proof.
  intros [Hd Hl] Hmax. unfold int. destruct w as [|c w].
  - simpl in Hl. lia.
  - rewrite Hd. apply Nat.leb_le in Hmax. now rewrite Hmax.
Qed.

Lemma int_too_long (w : text) :
  int_max_str_digits < List.length w -> int w = Raise ValueError.
Proof.
  intros H. unfold int. destruct w as [|c w]; [reflexivity|].
  apply Nat.leb_gt in H. rewrite H. now rewrite andb_false_r.
Qed.

Lemma map_result_ok {A B : Type} (f : A -> result B) (l : list A) :
  (forall x, In x l -> exists y, f x = Ok y) ->
  exists ys, map_result f l = Ok ys.
Proof.
  induction l as [|x l IH]; intros H; simpl.
  - now exists [].
  - destruct (H x) as [y Hy]; [now left|]. rewrite Hy. simpl.
    destruct IH as [ys Hys]; [intros z Hz; apply H; now right|].
    rewrite Hys. simpl. now exists (y :: ys).
Qed.

Lemma caps_Lit (s : string) (g : text) : ~ caps (Lit s) g.
Proof.
  unfold Lit. induction (txt s) as [|c l IH]; simpl; tauto.
Qed.

Lemma lang_number_pattern (w : text) :
  lang number_pattern w -> digit_word w.
Proof.
  simpl. intros (u & v & -> & -> & u' & v' & -> & H & u2 & v2 & -> & -> & ->).
  simpl. now rewrite app_nil_r.
Qed.

Lemma int_patterns_caps (r : regex) (g : text) :
  In r int_patterns -> caps r g -> digit_word g.
Proof.
  unfold int_patterns, max_patterns, min_patterns, day_between_pattern,
    hour_between_pattern, digits1, cat, Opt.
  intros Hin.
  repeat (destruct Hin as [<- | Hin]); try contradiction;
    cbn [caps fold_right lang];
    intros H; unfold digit_word;
    repeat match goal with
           | H : _ \/ _ |- _ => destruct H as [H | H]
           | H : caps (Lit _) _ |- _ => now apply caps_Lit in H
           | H : False |- _ => contradiction
           end; assumption.
Qed.

Lemma int_patterns_always_caps (r : regex) :
  In r int_patterns -> always_caps r = true.
Proof.
  intros Hin. unfold int_patterns in Hin. simpl in Hin.
  repeat (destruct Hin as [<- | Hin]); try contradiction; reflexivity.
Qed.

Lemma int_group1_ok (r : regex) (t : text) (m : match_obj) :
  In r int_patterns -> sound_match r t m ->
  longest_digit_run t <= int_max_str_digits ->
  exists n, int_group1 m = Ok n.
Proof.
  intros Hin (_ & _ & C) Hrun. unfold int_group1.
  destruct C as [[_ A] | (g & -> & G & P)].
  - rewrite (@int_patterns_always_caps r Hin) in A. discriminate.
  - pose proof (@int_patterns_caps r g Hin G) as D.
    pose proof (@digit_word_le_longest _ _ D P).
    exists (int_of_digits g). apply int_ok; [assumption | lia].
Qed.

Lemma int_field_ok (rs : list regex) (t : text) (m : option match_obj) :
  (forall m', m = Some m' ->
              exists r, In r rs /\ In r int_patterns /\ sound_match r t m') ->
  longest_digit_run t <= int_max_str_digits ->
  exists o, int_field m = Ok o.
Proof.
  intros H Hrun. destruct m as [m|]; simpl; [|now exists None].
  destruct (H m eq_refl) as (r & _ & Hin & S).
  destruct (@int_group1_ok r t m Hin S Hrun) as [n ->]. simpl. now exists (Some n).
Qed.

Lemma first_search_sound (ps : list regex) (t : text) (m : match_obj) :
  first_search ps t = Some m -> exists r, In r ps /\ sound_match r t m.
Proof.
  induction ps as [|p ps IH]; simpl; [discriminate|].
  destruct (search false p t) eqn:E.
  - intros H. injection H as ->. exists p. split; [now left|].
    now apply search_sound with false.
  - intros H. destruct (IH H) as (r & Hr & S). exists r. split; [now right|].
    exact S.
Qed.

Lemma number_scan_ok (t : text) :
  longest_digit_run t <= int_max_str_digits ->
  exists es, number_scan t = Ok es.
Proof.
  intros Hrun. unfold number_scan. apply map_result_ok. intros m Hm.
  apply finditer_sound in Hm. destruct Hm as (L & P & _).
  apply lang_number_pattern in L.
  pose proof (@digit_word_le_longest _ _ L P).
  rewrite int_ok; [|assumption|lia]. simpl. eauto.
Qed.

Lemma extract_entities_ok (t : text) :
  longest_digit_run t <= int_max_str_digits ->
  exists es, _extract_entities t = Ok es.
Proof.
  intros Hrun. unfold _extract_entities.
  destruct (@number_scan_ok t Hrun) as [ns ->]. simpl. eauto.
Qed.

Lemma parse_capacity_ok (t : text) :
  longest_digit_run t <= int_max_str_digits ->
  exists d, _parse_capacity_constraint t = Ok d.
Proof.
  intros Hrun. unfold _parse_capacity_constraint.
  assert (Hmax : exists o, int_field (first_search max_patterns t) = Ok o).
  { apply int_field_ok with max_patterns t; trivial.
    intros m Hm. apply first_search_sound in Hm.
    destruct Hm as (r & Hr & S). exists r.
    split; [exact Hr | split; [|exact S]].
    unfold int_patterns. apply in_or_app. now left. }
  assert (Hmin : exists o, int_field (first_search min_patterns t) = Ok o).
  { apply int_field_ok with min_patterns t; trivial.
    intros m Hm. apply first_search_sound in Hm.
    destruct Hm as (r & Hr & S). exists r.
    split; [exact Hr | split; [|exact S]].
    unfold int_patterns. apply in_or_app. right. apply in_or_app. now left. }
  destruct Hmax as [mx ->]. destruct Hmin as [mn ->]. simpl. eauto.
Qed.

Lemma parse_rest_ok (t : text) :
  longest_digit_run t <= int_max_str_digits ->
  exists d, _parse_rest_constraint t = Ok d.
Proof.
  intros Hrun. unfold _parse_rest_constraint.
  assert (Hd : exists o,
             int_field (search false day_between_pattern t) = Ok o).
  { apply int_field_ok with [day_between_pattern] t; trivial.
    intros m Hm. apply search_sound in Hm.
    exists day_between_pattern.
    split; [now left | split; [|exact Hm]].
    unfold int_patterns. apply in_or_app. right. apply in_or_app. right.
    now left. }
  assert (Hh : exists o,
             int_field (search false hour_between_pattern t) = Ok o).
  { apply int_field_ok with [hour_between_pattern] t; trivial.
    intros m Hm. apply search_sound in Hm.
    exists hour_between_pattern.
    split; [now left | split; [|exact Hm]].
    unfold int_patterns. apply in_or_app. right. apply in_or_app. right.
    right. now left. }
  destruct Hd as [d ->]. destruct Hh as [h ->]. simpl. eauto.
Qed.

Lemma parse_returns (t : text) :
  longest_digit_run t <= int_max_str_digits ->
  exists r, _parse_constraint t = Ok r.
Proof.
  intros Hrun. unfold _parse_constraint.
  destruct (@extract_entities_ok t Hrun) as [es ->]. simpl.
  assert (Hl : longest_digit_run (lower t) <= int_max_str_digits)
    by now rewrite longest_digit_run_lower.
  destruct (_classify_constraint_type (lower t)); simpl; eauto.
  - destruct (@parse_capacity_ok _ Hl) as [d ->]. simpl. eauto.
  - destruct (@parse_rest_ok _ Hl) as [d ->]. simpl. eauto.
Qed.

(** ** Rounding to binary64

    What the rounding of [SpecFloat] does to a positive number that is
    not subnormal, as far as the score needs it. *)

Unset Implicit Arguments.
Open Scope Z_scope.

Lemma digits2_pos_size (m : positive) : digits2_pos m = Pos.size m.
Proof. induction m; simpl; congruence. Qed.

Lemma digits2_pos_log2 (m : positive) :
  Zpos (digits2_pos m) = Z.log2 (Zpos m) + 1.
Proof.
  rewrite digits2_pos_size. destruct m; simpl; try reflexivity;
    now rewrite Pos.add_1_r.
Qed.

Lemma digits2_pos_bounds (m : positive) :
  2 ^ (Zpos (digits2_pos m) - 1) <= Zpos m < 2 ^ Zpos (digits2_pos m).
Proof.
  rewrite digits2_pos_log2.
  replace (Z.log2 (Z.pos m) + 1 - 1) with (Z.log2 (Z.pos m)) by lia.
  apply Z.log2_spec. lia.
Qed.

Lemma digits2_pos_unique (m : positive) (d : Z) :
  2 ^ (d - 1) <= Zpos m < 2 ^ d -> Zpos (digits2_pos m) = d.
Proof.
  intros H. rewrite digits2_pos_log2.
  assert (0 <= d - 1).
  { destruct (Z.le_gt_cases 0 (d - 1)) as [L | L]; [exact L|].
    destruct (Z.eq_dec d 0) as [-> | N].
    - simpl in H. lia.
    - rewrite (Z.pow_neg_r 2 d) in H by lia. lia. }
  rewrite (Z.log2_unique (Zpos m) (d - 1)); [lia | assumption |].
  replace (Z.succ (d - 1)) with d by lia. exact H.
Qed.

Lemma shr_1_m (r : shr_record) :
  0 <= shr_m r -> shr_m (shr_1 r) = shr_m r / 2.
Proof.
  destruct r as [m r s]. simpl. intros H.
  destruct m as [|p|p]; [reflexivity | | lia].
  destruct p as [p|p|]; simpl.
  - rewrite Pos2Z.inj_xI. apply Z.div_unique with (r := 1); lia.
  - rewrite Pos2Z.inj_xO. apply Z.div_unique with (r := 0); lia.
  - reflexivity.
Qed.

Lemma iter_shr_1_m (p : positive) :
  forall r : shr_record,
    0 <= shr_m r ->
    shr_m (iter_pos shr_1 p r) = shr_m r / 2 ^ Zpos p.
Proof.
  induction p as [p IH | p IH |]; intros r H; simpl iter_pos.
  - assert (H1 : 0 <= shr_m (shr_1 r)).
    { rewrite shr_1_m by assumption. apply Z.div_pos; lia. }
    assert (H2 : 0 <= shr_m (iter_pos shr_1 p (shr_1 r))).
    { rewrite IH by assumption. apply Z.div_pos; [assumption|].
      apply Z.pow_pos_nonneg; lia. }
    rewrite IH by assumption. rewrite IH by assumption.
    rewrite shr_1_m by assumption.
    rewrite !Z.div_div by (try apply Z.pow_pos_nonneg; lia).
    f_equal. rewrite <- Z.pow_add_r by lia.
    rewrite <- Z.pow_succ_r by lia. f_equal. lia.
  - assert (H2 : 0 <= shr_m (iter_pos shr_1 p r)).
    { rewrite IH by assumption. apply Z.div_pos; [assumption|].
      apply Z.pow_pos_nonneg; lia. }
    rewrite IH by assumption. rewrite IH by assumption.
    rewrite !Z.div_div by (try apply Z.pow_pos_nonneg; lia).
    f_equal. rewrite <- Z.pow_add_r by lia. f_equal. lia.
  - rewrite shr_1_m by assumption. reflexivity.
Qed.

Lemma shr_spec (r : shr_record) (e s : Z) :
  0 <= s -> 0 <= shr_m r ->
  exists r', shr r e s = (r', e + s) /\ shr_m r' = shr_m r / 2 ^ s.
Proof.
  intros Hs Hm. destruct s as [|p|p]; [| |lia].
  - exists r. simpl. rewrite Z.add_0_r, Z.div_1_r. split; reflexivity.
  - exists (iter_pos shr_1 p r). simpl shr. split; [reflexivity|].
    now apply iter_shr_1_m.
Qed.

Lemma round_nearest_even_bounds (m : Z) (l : location) :
  m <= round_nearest_even m l <= m + 1.
Proof.
  destruct l as [|[]]; simpl; try lia. destruct (Z.even m); lia.
Qed.

Lemma fexp_normal (e : Z) : -1074 <= e - 53 -> fexp prec emax e = e - 53.
Proof.
  unfold fexp, SpecFloat.emin. change prec with 53. change emax with 1024.
  lia.
Qed.

Lemma binary_round_aux_normal (P : positive) (ex : Z) :
  53 <= Zpos (digits2_pos P) ->
  -1074 <= Zpos (digits2_pos P) + ex - 53 ->
  exists (m3 : positive) (e3 : Z),
    binary_round_aux prec emax false (Zpos P) ex loc_Exact
    = (if e3 <=? 971 then S754_finite false m3 e3 else S754_infinity false)
    /\ 2 ^ 52 <= Zpos m3 < 2 ^ 53
    /\ ((e3 = ex + (Zpos (digits2_pos P) - 53)
         /\ Zpos P / 2 ^ (Zpos (digits2_pos P) - 53) <= Zpos m3)
        \/ e3 = ex + (Zpos (digits2_pos P) - 53) + 1).
Proof.
  intros Hd Hn. pose proof (digits2_pos_bounds P) as B.
  set (d := Zpos (digits2_pos P)) in *.
  unfold binary_round_aux, shr_fexp. cbn [Zdigits2]. fold d.
  rewrite fexp_normal by lia.
  replace (d + ex - 53 - ex) with (d - 53) by lia.
  cbn [shr_record_of_loc].
  destruct (shr_spec (Build_shr_record (Zpos P) false false) ex (d - 53))
    as (r1 & E1 & M1); [lia | simpl; lia |].
  rewrite E1. cbn [shr_m] in M1.
  set (K := 2 ^ (d - 53)) in *.
  assert (HK : 0 < K) by (apply Z.pow_pos_nonneg; lia).
  assert (B1 : 2 ^ 52 <= shr_m r1 < 2 ^ 53).
  { rewrite M1.
    assert (E52 : 2 ^ (d - 1) = 2 ^ 52 * K).
    { unfold K. rewrite <- Z.pow_add_r by lia. f_equal. lia. }
    assert (E53 : 2 ^ d = 2 ^ 53 * K).
    { unfold K. rewrite <- Z.pow_add_r by lia. f_equal. lia. }
    split.
    - apply Z.div_le_lower_bound; [exact HK|]. lia.
    - apply Z.div_lt_upper_bound; [exact HK|]. lia. }
  pose proof (round_nearest_even_bounds (shr_m r1) (loc_of_shr_record r1))
    as B2.
  destruct (round_nearest_even (shr_m r1) (loc_of_shr_record r1))
    as [|q|q] eqn:Eq; [lia | | lia].
  cbn [Zdigits2].
  destruct (Z.eq_dec (Zpos q) (2 ^ 53)) as [Hq | Hq].
  - assert (q = 9007199254740992%positive) by (injection Hq; auto).
    subst q. cbn [digits2_pos Pos.succ].
    rewrite fexp_normal by lia.
    replace (Z.pos 54 + (ex + (d - 53)) - 53 - (ex + (d - 53))) with 1
      by lia.
    cbn [shr iter_pos shr_1 shr_m].
    change (Z.sub emax prec) with 971.
    exists 4503599627370496%positive, (ex + (d - 53) + 1).
    split; [reflexivity|]. split; [lia|]. right. reflexivity.
  - assert (D : Zpos (digits2_pos q) = 53).
    { apply digits2_pos_unique. change (53 - 1) with 52. lia. }
    rewrite D. rewrite fexp_normal by lia.
    replace (53 + (ex + (d - 53)) - 53 - (ex + (d - 53))) with 0 by lia.
    cbn [shr shr_m].
    change (Z.sub emax prec) with 971.
    exists q, (ex + (d - 53)). split; [reflexivity|]. split; [lia|].
    left. split; [reflexivity|]. rewrite <- M1. lia.
Qed.


Lemma iter_xO_value (n d : positive) :
  Zpos (Pos.iter xO n d) = Zpos n * 2 ^ Zpos d.
Proof.
  induction d as [|d IH] using Pos.peano_ind.
  - simpl. rewrite Pos2Z.inj_xO. lia.
  - rewrite Pos.iter_succ, Pos2Z.inj_xO, IH, Pos2Z.inj_succ.
    rewrite Z.pow_succ_r by lia. lia.
Qed.

(** The conversion of an integer of at least 2: infinity, or a normal
    number that is not smaller than the integer if it is 2 or 3. *)
Lemma float_of_int_large (n : positive) :
  2 <= Zpos n ->
  float_of_int (Zpos n) = S754_infinity false
  \/ exists (m : positive) (e : Z),
       float_of_int (Zpos n) = S754_finite false m e
       /\ 2 ^ 52 <= Zpos m < 2 ^ 53
       /\ -51 <= e
       /\ (e = -51 -> Zpos n * 2 ^ 51 <= Zpos m).
Proof.
  intros H3. pose proof (digits2_pos_bounds n) as B.
  unfold float_of_int, binary_normalize, binary_round.
  set (d := Zpos (digits2_pos n)) in *.
  assert (Hd : 2 <= d).
  { destruct (Z.le_gt_cases 2 d) as [L | L]; [exact L|].
    assert (2 ^ d <= 2 ^ 1) by (apply Z.pow_le_mono_r; lia).
    change (2 ^ 1) with 2 in *. lia. }
  rewrite fexp_normal by lia.
  unfold shl_align.
  destruct (Z.lt_ge_cases d 53) as [L | L].
  - replace (d + 0 - 53 - 0) with (Zneg (Z.to_pos (53 - d)))
      by (rewrite <- Pos2Z.opp_pos, Z2Pos.id by lia; lia).
    set (k := Z.to_pos (53 - d)).
    assert (Hk : Zpos k = 53 - d) by (unfold k; rewrite Z2Pos.id; lia).
    set (mz := Pos.iter xO n k).
    assert (Vz : Zpos mz = Zpos n * 2 ^ (53 - d)).
    { unfold mz. now rewrite iter_xO_value, Hk. }
    assert (K : 0 < 2 ^ (53 - d)) by (apply Z.pow_pos_nonneg; lia).
    assert (E52 : 2 ^ 52 = 2 ^ (d - 1) * 2 ^ (53 - d)).
    { rewrite <- Z.pow_add_r by lia. f_equal. lia. }
    assert (E53 : 2 ^ 53 = 2 ^ d * 2 ^ (53 - d)).
    { rewrite <- Z.pow_add_r by lia. f_equal. lia. }
    assert (Bz : 2 ^ 52 <= Zpos mz < 2 ^ 53).
    { rewrite Vz, E52, E53. split.
      - apply Z.mul_le_mono_nonneg_r; lia.
      - apply Z.mul_lt_mono_pos_r; lia. }
    assert (Dz : Zpos (digits2_pos mz) = 53).
    { apply digits2_pos_unique. change (53 - 1) with 52. exact Bz. }
    destruct (binary_round_aux_normal mz (d + 0 - 53))
      as (m3 & e3 & E & B3 & C); [lia | lia |].
    rewrite E. rewrite Dz in C. change (53 - 53) with 0 in C.
    change (2 ^ 0) with 1 in C. rewrite Z.div_1_r in C.
    destruct (e3 <=? 971); [right | now left].
    exists m3, e3. split; [reflexivity|]. split; [exact B3|].
    split; [lia|]. intros He.
    assert (d = 2) by lia.
    destruct C as [[_ C] | C]; [|lia].
    assert (Vz' : Zpos mz = Zpos n * 2 ^ 51).
    { rewrite Vz. f_equal. f_equal. lia. }
    lia.
  - assert (S : d + 0 - 53 - 0 = 0 \/ exists p, d + 0 - 53 - 0 = Zpos p).
    { destruct (d + 0 - 53 - 0) as [|p|p] eqn:Ed; [now left | | lia].
      right. now exists p. }
    assert (R : (let '(mz, ez) :=
                   match d + 0 - 53 - 0 with
                   | Z.neg d0 => (Pos.iter xO n d0, d + 0 - 53)
                   | _ => (n, 0)
                   end in
                 binary_round_aux prec emax false (Z.pos mz) ez loc_Exact)
                = binary_round_aux prec emax false (Zpos n) 0 loc_Exact).
    { destruct S as [-> | (p & ->)]; reflexivity. }
    rewrite R.
    destruct (binary_round_aux_normal n 0) as (m3 & e3 & E & B3 & C);
      [fold d; lia | fold d; lia |].
    rewrite E. fold d in C.
    destruct (e3 <=? 971); [right | now left].
    exists m3, e3. split; [reflexivity|]. split; [exact B3|].
    split; lia.
Qed.


Lemma not_below (m3 mc : positive) (e3 ec : Z) :
  ec < e3 \/ (e3 = ec /\ Zpos mc <= Zpos m3) ->
  SFltb (S754_finite false m3 e3) (S754_finite false mc ec) = false.
Proof.
  intros G. unfold SFltb, SFcompare.
  destruct (e3 ?= ec) eqn:Ce.
  - apply Z.compare_eq in Ce. destruct G as [G | [_ G]]; [lia|].
    destruct (Pos.compare_cont Eq m3 mc) eqn:Cm; try reflexivity.
    rewrite Pos.compare_cont_spec, Pos2Z.inj_compare in Cm.
    destruct (Z.pos m3 ?= Z.pos mc) eqn:Cz; try discriminate Cm.
    change (Z.pos m3 < Z.pos mc) in Cz. clear - Cz G. lia.
  - change (e3 < ec) in Ce. lia.
  - reflexivity.
Qed.

(** The product of a normal number and 0.1: infinity, or a normal
    number whose mantissa is the product of the mantissas cut to 53
    bits, or the next exponent. *)
Lemma mul_tenth_normal (m : positive) (e : Z) :
  2 ^ 52 <= Zpos m < 2 ^ 53 ->
  -51 <= e ->
  exists (m3 : positive) (e3 : Z),
    fmul (S754_finite false m e) (S754_finite false 7205759403792794 (-56))
    = (if e3 <=? 971 then S754_finite false m3 e3 else S754_infinity false)
    /\ ((Zpos m * 7205759403792794 < 2 ^ 105
         /\ ((e3 = e - 4 /\ Zpos m * 7205759403792794 / 2 ^ 52 <= Zpos m3)
             \/ e3 = e - 3))
        \/ (2 ^ 105 <= Zpos m * 7205759403792794
            /\ ((e3 = e - 3
                 /\ Zpos m * 7205759403792794 / 2 ^ 53 <= Zpos m3)
                \/ e3 = e - 2))).
Proof.
  intros Bm He. unfold fmul, SFmul. cbn [xorb].
  set (P := (m * 7205759403792794)%positive).
  assert (VP : Zpos P = Zpos m * 7205759403792794) by reflexivity.
  rewrite <- VP.
  pose proof (digits2_pos_bounds P) as B.
  set (d := Zpos (digits2_pos P)) in *.
  assert (Hd : d = 105 \/ d = 106).
  { assert (104 < d).
    { destruct (Z.lt_ge_cases 104 d) as [L | L]; [exact L|].
      assert (2 ^ d <= 2 ^ 104) by (apply Z.pow_le_mono_r; lia). lia. }
    assert (d - 1 < 106).
    { destruct (Z.lt_ge_cases (d - 1) 106) as [L | L]; [exact L|].
      assert (2 ^ 106 <= 2 ^ (d - 1)) by (apply Z.pow_le_mono_r; lia).
      lia. }
    lia. }
  destruct (binary_round_aux_normal P (e + -56))
    as (m3 & e3 & E & B3 & C); [fold d; lia | fold d; lia |].
  rewrite E. fold d in C. clear E.
  exists m3, e3. split; [reflexivity|].
  destruct Hd as [Hd | Hd]; rewrite Hd in *.
  - left. change (105 - 53) with 52 in C. split; [exact (proj2 B)|].
    destruct C as [[-> C] | ->]; [left | right]; [split|]; lia.
  - right. change (106 - 53) with 53 in C. change (106 - 1) with 105 in B.
    split; [exact (proj1 B)|].
    destruct C as [[-> C] | ->]; [left | right]; [split|]; lia.
Qed.

Lemma mul_tenth_three (m : positive) (e : Z) :
  2 ^ 52 <= Zpos m < 2 ^ 53 ->
  -51 <= e ->
  (e = -51 -> 3 * 2 ^ 51 <= Zpos m) ->
  SFltb (fmul (S754_finite false m e)
              (S754_finite false 7205759403792794 (-56)))
        (S754_finite false 5404319552844595 (-54)) = false.
Proof.
  intros Bm He H3.
  destruct (mul_tenth_normal m e Bm He) as (m3 & e3 & -> & C).
  destruct (e3 <=? 971); [|reflexivity]. apply not_below.
  destruct C as [[L C] | [L C]].
  - assert (e <> -51) by (intros ->; specialize (H3 eq_refl); lia).
    destruct C as [[-> C] | ->]; [|lia].
    destruct (Z.eq_dec e (-50)) as [-> | N]; [|lia].
    right. split; [reflexivity|].
    assert (7205759403792794 <= Zpos m * 7205759403792794 / 2 ^ 52)
      by (apply Z.div_le_lower_bound; lia).
    lia.
  - destruct C as [[-> C] | ->]; [|lia].
    destruct (Z.eq_dec e (-51)) as [-> | N]; [|lia].
    right. split; [reflexivity|]. specialize (H3 eq_refl).
    assert (5404319552844595 <= Zpos m * 7205759403792794 / 2 ^ 53)
      by (apply Z.div_le_lower_bound; lia).
    lia.
Qed.

Lemma mul_tenth_two (m : positive) (e : Z) :
  2 ^ 52 <= Zpos m < 2 ^ 53 ->
  -51 <= e ->
  SFltb (fmul (S754_finite false m e)
              (S754_finite false 7205759403792794 (-56)))
        (S754_finite false 7205759403792794 (-55)) = false.
Proof.
  intros Bm He.
  destruct (mul_tenth_normal m e Bm He) as (m3 & e3 & -> & C).
  destruct (e3 <=? 971); [|reflexivity]. apply not_below.
  destruct C as [[L C] | [L C]].
  - destruct C as [[-> C] | ->]; [|lia].
    destruct (Z.eq_dec e (-51)) as [-> | N]; [|lia].
    right. split; [reflexivity|].
    assert (7205759403792794 <= Zpos m * 7205759403792794 / 2 ^ 52)
      by (apply Z.div_le_lower_bound; lia).
    lia.
  - destruct C as [[-> C] | ->]; lia.
Qed.

Close Scope Z_scope.
Set Implicit Arguments.

(** ** The confidence score *)

Lemma lit_values :
  lit 0.1 = S754_finite false 7205759403792794 (-56)
  /\ lit 0.2 = S754_finite false 7205759403792794 (-55)
  /\ lit 0.3 = S754_finite false 5404319552844595 (-54).
Proof. repeat split; vm_compute; reflexivity. Qed.

(** From three entities on, [min(0.3, n * 0.1)] is 0.3. *)
Lemma entity_cap (n : nat) :
  3 <= n -> py_min (lit 0.3) (int_times n (lit 0.1)) = lit 0.3.
Proof.
  intros H. destruct lit_values as (E1 & _ & E3).
  unfold py_min, int_times. rewrite E1, E3.
  destruct (Z.of_nat n) as [|p|p] eqn:E; try lia.
  destruct (float_of_int_large p) as [-> | (m & e & -> & Bm & He & H3)];
    [lia | reflexivity |].
  rewrite mul_tenth_three; trivial. intros He'. specialize (H3 He'). lia.
Qed.

(** From two conditions on, [min(0.2, n * 0.1)] is 0.2. *)
Lemma condition_cap (n : nat) :
  2 <= n -> py_min (lit 0.2) (int_times n (lit 0.1)) = lit 0.2.
Proof.
  intros H. destruct lit_values as (E1 & E2 & _).
  unfold py_min, int_times. rewrite E1, E2.
  destruct (Z.of_nat n) as [|p|p] eqn:E; try lia.
  destruct (float_of_int_large p) as [-> | (m & e & -> & Bm & He & H3)];
    [lia | reflexivity |].
  now rewrite mul_tenth_two.
Qed.

Lemma entity_term_cases (r : ParseResult) :
  entity_term r
  = match List.length (r_entities r) with
    | 0 => lit 0.0
    | 1 => lit 0.1
    | 2 => lit 0.2
    | _ => lit 0.3
    end.
Proof.
  unfold entity_term.
  destruct (List.length (r_entities r)) as [|[|[|n]]];
    [vm_compute; reflexivity .. | apply entity_cap; lia].
Qed.

Lemma condition_term_cases (r : ParseResult) :
  condition_term r
  = match List.length (r_conditions r) with
    | 0 => lit 0.0
    | 1 => lit 0.1
    | _ => lit 0.2
    end.
Proof.
  unfold condition_term.
  destruct (List.length (r_conditions r)) as [|[|n]];
    [vm_compute; reflexivity .. | apply condition_cap; lia].
Qed.

Lemma data_test (data : list value) :
  negb (match data with [] => true | _ => false end) && existsb is_set data
  = existsb is_set data.
Proof. destruct data; reflexivity. Qed.

(** The score is the sum of the four terms, capped: a term that the
    code does not add is 0.0, which leaves the sum as it is. *)
Lemma calculate_confidence_formula (t : text) (r : ParseResult) :
  _calculate_confidence t r = py_min (lit 1.0) (score_sum r).
Proof.
  unfold _calculate_confidence, score_sum. cbv zeta. rewrite data_test.
  change (py_min (lit 0.3) (int_times (List.length (r_entities r)) (lit 0.1)))
    with (entity_term r).
  change (py_min (lit 0.2)
                 (int_times (List.length (r_conditions r)) (lit 0.1)))
    with (condition_term r).
  rewrite entity_term_cases, condition_term_cases.
  unfold type_term, data_term.
  destruct (r_type r);
    destruct (List.length (r_entities r)) as [|[|[|n]]];
    destruct (List.length (r_conditions r)) as [|[|k]];
    destruct (existsb is_set (constraint_data r));
    vm_compute; reflexivity.
Qed.

Lemma calculate_confidence_bounds (t : text) (r : ParseResult) :
  fle (lit 0.0) (_calculate_confidence t r)
  /\ fle (_calculate_confidence t r) (lit 1.0).
Proof.
  rewrite calculate_confidence_formula. unfold score_sum.
  rewrite entity_term_cases, condition_term_cases.
  unfold type_term, data_term, fle.
  destruct (r_type r);
    destruct (List.length (r_entities r)) as [|[|[|n]]];
    destruct (List.length (r_conditions r)) as [|[|k]];
    destruct (existsb is_set (constraint_data r));
    vm_compute; split; reflexivity.
Qed.

(** ** The pipeline *)

Lemma parse_ok_fields (t : text) (r : ParseResult) :
  _parse_constraint t = Ok r ->
  r_type r = _classify_constraint_type (lower t)
  /\ _extract_entities t = Ok (r_entities r)
  /\ r_confidence r = _calculate_confidence t r
  /\ match r_type r with
     | Temporal =>
         r_temporal r = Some (_parse_temporal_constraint (lower t))
         /\ r_conditions r = _extract_temporal_conditions (lower t)
         /\ filled_slots r = [Temporal]
     | Capacity =>
         (exists d, _parse_capacity_constraint (lower t) = Ok d
                    /\ r_capacity r = Some d)
         /\ r_conditions r = _extract_capacity_conditions (lower t)
         /\ filled_slots r = [Capacity]
     | Location =>
         r_location r = Some (_parse_location_constraint (lower t))
         /\ r_conditions r = _extract_location_conditions (lower t)
         /\ filled_slots r = [Location]
     | Rest =>
         (exists d, _parse_rest_constraint (lower t) = Ok d
                    /\ r_rest r = Some d)
         /\ r_conditions r = _extract_rest_conditions (lower t)
         /\ filled_slots r = [Rest]
     | Preference =>
         r_preference r = Some (_parse_preference_constraint (lower t))
         /\ r_conditions r = _extract_preference_conditions (lower t)
         /\ filled_slots r = [Preference]
     | Unknown => r_conditions r = [] /\ filled_slots r = []
     end.
Proof.
  unfold _parse_constraint.
  destruct (_extract_entities t) as [es|e]; [|discriminate].
  cbn [bind].
  destruct (_classify_constraint_type (lower t)) eqn:Ety; cbn [bind].
  - intros H; injection H as <-. cbn. repeat split; reflexivity.
  - destruct (_parse_capacity_constraint (lower t)) as [d|e]; [|discriminate].
    cbn [bind]. intros H; injection H as <-. cbn.
    repeat split; try reflexivity. now exists d.
  - intros H; injection H as <-. cbn. repeat split; reflexivity.
  - destruct (_parse_rest_constraint (lower t)) as [d|e]; [|discriminate].
    cbn [bind]. intros H; injection H as <-. cbn.
    repeat split; try reflexivity. now exists d.
  - intros H; injection H as <-. cbn. repeat split; reflexivity.
  - intros H; injection H as <-. cbn. repeat split; reflexivity.
Qed.

(** ** Condition extractors *)

Lemma first_rule_length (rules : list ((text -> bool) * condition))
      (t : text) :
  List.length (first_rule rules t) <= 1.
Proof.
  induction rules as [|[cue c] rules IH]; simpl; [lia|].
  destruct (cue t); simpl; lia.
Qed.

Lemma extractors_first_rule (t : text) :
  _extract_temporal_conditions t = first_rule temporal_rules t
  /\ _extract_capacity_conditions t = first_rule capacity_rules t
  /\ _extract_location_conditions t = first_rule location_rules t
  /\ _extract_rest_conditions t = first_rule rest_rules t
  /\ _extract_preference_conditions t = first_rule preference_rules t.
Proof.
  unfold _extract_temporal_conditions, _extract_capacity_conditions,
    _extract_location_conditions, _extract_rest_conditions,
    _extract_preference_conditions.
  cbn [first_rule temporal_rules capacity_rules location_rules rest_rules
       preference_rules app].
  repeat split.
Qed.

Lemma conditions_of_parse (t : text) (r : ParseResult) :
  _parse_constraint t = Ok r ->
  exists rules, r_conditions r = first_rule rules (lower t).
Proof.
  intros H. apply parse_ok_fields in H. destruct H as (_ & _ & _ & H).
  destruct (extractors_first_rule (lower t)) as (E1 & E2 & E3 & E4 & E5).
  destruct (r_type r).
  - exists temporal_rules. destruct H as (_ & -> & _). exact E1.
  - exists capacity_rules. destruct H as (_ & -> & _). exact E2.
  - exists location_rules. destruct H as (_ & -> & _). exact E3.
  - exists rest_rules. destruct H as (_ & -> & _). exact E4.
  - exists preference_rules. destruct H as (_ & -> & _). exact E5.
  - exists []. destruct H as (-> & _). reflexivity.
Qed.

(** ** Exceptions of the pipeline *)

Lemma int_raises (w : text) (e : exn) : int w = Raise e -> e = ValueError.
Proof.
  unfold int. destruct w as [|c w]; [congruence|].
  destruct (forallb is_digit (c :: w) && _); congruence.
Qed.

Lemma map_result_raises {A B : Type} (f : A -> result B) (l : list A)
      (e : exn) :
  map_result f l = Raise e -> exists x, In x l /\ f x = Raise e.
Proof.
  induction l as [|x l IH]; simpl; [discriminate|].
  destruct (f x) as [y|e'] eqn:E; simpl.
  - destruct (map_result f l) as [ys|e'']; simpl; [discriminate|].
    intros H. destruct IH as (z & Hz & Hf); [exact H|]. exists z. auto.
  - intros H. injection H as ->. exists x. auto.
Qed.

Lemma extract_entities_raises (t : text) (e : exn) :
  _extract_entities t = Raise e -> e = ValueError.
Proof.
  unfold _extract_entities, number_scan.
  destruct (map_result _ _) as [ns|e'] eqn:E; simpl; [discriminate|].
  intros H. injection H as ->. apply map_result_raises in E.
  destruct E as (m & _ & E). destruct (int (group0 m)) eqn:I; simpl in E;
    [discriminate|]. injection E as ->. now apply int_raises with (group0 m).
Qed.

Lemma int_field_raises (t : text) (m : option match_obj) (e : exn) :
  (forall m', m = Some m' -> exists r, In r int_patterns
                                       /\ sound_match r t m') ->
  int_field m = Raise e -> e = ValueError.
Proof.
  intros H. destruct m as [m|]; simpl; [|discriminate].
  destruct (H m eq_refl) as (r' & Hin & _ & _ & C). unfold int_group1.
  destruct C as [[_ A] | (g & -> & _)].
  - rewrite (@int_patterns_always_caps r' Hin) in A. discriminate.
  - destruct (int g) eqn:I; simpl; [discriminate|].
    intros E. injection E as ->. now apply int_raises with g.
Qed.

Lemma parse_capacity_raises (t : text) (e : exn) :
  _parse_capacity_constraint t = Raise e -> e = ValueError.
Proof.
  unfold _parse_capacity_constraint. cbv zeta.
  assert (S : forall ps, incl ps int_patterns ->
              forall m', first_search ps t = Some m' ->
                         exists r, In r int_patterns /\ sound_match r t m').
  { intros ps Hps m' Hm. apply first_search_sound in Hm.
    destruct Hm as (r & Hr & S). exists r. split; [now apply Hps | exact S]. }
  destruct (int_field (first_search max_patterns t)) as [mx|e1] eqn:E1;
    cbn [bind].
  - destruct (int_field (first_search min_patterns t)) as [mn|e2] eqn:E2;
      cbn [bind]; [discriminate|].
    intros H. injection H as ->.
    apply (@int_field_raises t _ _ (S min_patterns ltac:(
      unfold int_patterns; intros x Hx; apply in_or_app; right;
      apply in_or_app; now left)) E2).
  - intros H. injection H as ->.
    apply (@int_field_raises t _ _ (S max_patterns ltac:(
      unfold int_patterns; intros x Hx; apply in_or_app; now left)) E1).
Qed.

Lemma parse_rest_raises (t : text) (e : exn) :
  _parse_rest_constraint t = Raise e -> e = ValueError.
Proof.
  unfold _parse_rest_constraint.
  assert (S : forall p, In p [day_between_pattern; hour_between_pattern] ->
              forall m', search false p t = Some m' ->
                         exists r, In r int_patterns /\ sound_match r t m').
  { intros p Hp m' Hm. apply search_sound in Hm. exists p. split; [|exact Hm].
    unfold int_patterns. apply in_or_app. right. apply in_or_app. now right. }
  destruct (int_field (search false day_between_pattern t)) as [d|e1] eqn:E1;
    cbn [bind].
  - destruct (int_field (search false hour_between_pattern t)) as [h|e2]
      eqn:E2; cbn [bind]; [discriminate|].
    intros H. injection H as ->.
    apply (@int_field_raises t _ _
             (S hour_between_pattern ltac:(simpl; tauto)) E2).
  - intros H. injection H as ->.
    apply (@int_field_raises t _ _
             (S day_between_pattern ltac:(simpl; tauto)) E1).
Qed.

Lemma parse_raises (t : text) (e : exn) :
  _parse_constraint t = Raise e -> e = ValueError.
Proof.
  unfold _parse_constraint.
  destruct (_extract_entities t) as [es|e'] eqn:E; cbn [bind].
  - destruct (_classify_constraint_type (lower t)); cbn [bind];
      try discriminate.
    + destruct (_parse_capacity_constraint (lower t)) as [d|e'] eqn:P;
        cbn [bind]; [discriminate|].
      intros H. injection H as ->. now apply parse_capacity_raises in P.
    + destruct (_parse_rest_constraint (lower t)) as [d|e'] eqn:P;
        cbn [bind]; [discriminate|].
      intros H. injection H as ->. now apply parse_rest_raises in P.
  - intros H. injection H as ->. now apply extract_entities_raises in E.
Qed.

(** * The claims *)

(** C1 (as the code behaves).  On "Teams need at least 2 days between
    matches" the categories temporal, capacity and rest tie at score 2
    ("am" and "day" occur inside "teams" and "days"), so the pipeline
    returns type temporal, the first of the three; the rest slot keeps
    its initial empty value, the temporal record holds no day and no
    time, and the conditions list is empty.  The rest parser and the rest
    condition extractor, applied to the lower-cased text, do give
    min_days = 2 and [{greater_than_or_equal, "min_rest_period"}]. *)
Theorem scenario3_parse :
  map snd (scores (lower scenario3)) = [2; 2; 0; 2; 0]
  /\ (exists r,
         _parse_constraint scenario3 = Ok r
         /\ r_type r = Temporal
         /\ r_rest r = None
         /\ r_temporal r
            = Some {| days_of_week := []; excluded_dates := [];
                      time_ranges := []; before_time := None;
                      after_time := None |}
         /\ r_conditions r = [])
  /\ _parse_rest_constraint (lower scenario3)
     = Ok {| min_hours := None; min_days := Some 2%Z;
             between_events := true |}
  /\ _extract_rest_conditions (lower scenario3)
     = [mk_condition greater_than_or_equal "min_rest_period"].
Proof.
  split; [vm_compute; reflexivity|].
  split; [|split; vm_compute; reflexivity].
  eexists. split; [vm_compute; reflexivity|].
  repeat split.
Qed.

(** C1, as stated, fails: no result of the pipeline on the scenario text
    has type rest with min_days = 2 and the rest condition. *)
Lemma scenario3_not_rest :
  ~ exists r d,
      _parse_constraint scenario3 = Ok r
      /\ r_type r = Rest
      /\ r_rest r = Some d
      /\ min_days d = Some 2%Z
      /\ r_conditions r
         = [mk_condition greater_than_or_equal "min_rest_period"].
Proof.
  intros (r & d & H & Hty & _). vm_compute in H. injection H as <-.
  discriminate Hty.
Qed.

(** C2.  The classifier returns one of the six category values.  The
    score of a category is the number of its keywords that occur in the
    lower-cased text.  The result is unknown exactly when the five scores
    are zero, and then no slot of the result is filled; otherwise the
    result has the maximal score and every category before it in the
    order temporal, capacity, location, rest, preference has a strictly
    smaller score. *)
Theorem classifier_first_maximal (t : text) :
  In (_classify_constraint_type (lower t))
     [Temporal; Capacity; Location; Rest; Preference; Unknown]
  /\ scores (lower t)
     = map (fun c => (c, category_score c (lower t))) categories
  /\ (forall c, category_score c (lower t)
                = containment_count (keywords_of c) (lower t))
  /\ (_classify_constraint_type (lower t) = Unknown
      <-> forall c, In c categories -> category_score c (lower t) = 0)
  /\ (_classify_constraint_type (lower t) <> Unknown ->
      (forall c, category_score c (lower t)
                 <= category_score (_classify_constraint_type (lower t))
                                   (lower t))
      /\ (forall c, rank c < rank (_classify_constraint_type (lower t)) ->
                    category_score c (lower t)
                    < category_score (_classify_constraint_type (lower t))
                                     (lower t)))
  /\ (forall r, _parse_constraint t = Ok r ->
                r_type r = _classify_constraint_type (lower t)
                /\ (r_type r = Unknown -> filled_slots r = [])).
Proof.
  split; [destruct (_classify_constraint_type (lower t)); simpl; tauto|].
  split; [reflexivity|].
  split; [intros c; apply count_keywords_containment|].
  split; [apply classify_unknown_iff|].
  split; [apply classify_first_max|].
  intros r H. apply parse_ok_fields in H. destruct H as (Hty & _ & _ & H).
  split; [exact Hty|]. intros Hu. rewrite Hu in H. apply H.
Qed.

Lemma classifier_first_maximal_witness :
  _classify_constraint_type (lower scenario3) <> Unknown
  /\ category_score Capacity (lower scenario3)
     <= category_score (_classify_constraint_type (lower scenario3))
                       (lower scenario3)
  /\ (rank Temporal < rank (_classify_constraint_type (lower scenario1)) ->
      category_score Temporal (lower scenario1)
      < category_score (_classify_constraint_type (lower scenario1))
                       (lower scenario1)).
Proof.
  assert (H : _classify_constraint_type (lower scenario3) <> Unknown)
    by (vm_compute; discriminate).
  assert (H1 : _classify_constraint_type (lower scenario1) <> Unknown)
    by (vm_compute; discriminate).
  split; [exact H|]. split.
  - destruct (classifier_first_maximal scenario3) as (_ & _ & _ & _ & F & _).
    apply (proj1 (F H)).
  - destruct (classifier_first_maximal scenario1) as (_ & _ & _ & _ & F & _).
    apply (proj2 (F H1)).
Defined.

(** C3.  The confidence of a result is min(1.0, s), where s is the
    sum, in binary64 arithmetic and in this order, of 0.3 when the type
    is not unknown, min(0.3, 0.1 x number of entities), min(0.2, 0.1 x
    number of conditions) and 0.2 when the record of the matched type
    has a value that is neither None nor the empty list; a term that
    does not apply is 0.0.  The entity term is 0.0, 0.1, 0.2 or 0.3 and
    the condition term 0.0, 0.1 or 0.2.  The confidence lies between 0
    and 1.  A text without a digit run of more than 4300 characters
    (the empty text, a text of symbols only) has a result. *)
Theorem confidence_formula (t : text) :
  (forall r, _parse_constraint t = Ok r ->
             r_confidence r
             = py_min (lit 1.0)
                      (fadd (fadd (fadd (type_term r) (entity_term r))
                                  (condition_term r))
                            (data_term r))
             /\ entity_term r
                = match List.length (r_entities r) with
                  | 0 => lit 0.0
                  | 1 => lit 0.1
                  | 2 => lit 0.2
                  | _ => lit 0.3
                  end
             /\ condition_term r
                = match List.length (r_conditions r) with
                  | 0 => lit 0.0
                  | 1 => lit 0.1
                  | _ => lit 0.2
                  end
             /\ fle (lit 0.0) (r_confidence r)
             /\ fle (r_confidence r) (lit 1.0))
  /\ (longest_digit_run t <= int_max_str_digits ->
      exists r, _parse_constraint t = Ok r
                /\ fle (lit 0.0) (r_confidence r)
                /\ fle (r_confidence r) (lit 1.0)).
Proof.
  assert (F : forall r, _parse_constraint t = Ok r ->
                        r_confidence r = py_min (lit 1.0) (score_sum r)
                        /\ fle (lit 0.0) (r_confidence r)
                        /\ fle (r_confidence r) (lit 1.0)).
  { intros r H. apply parse_ok_fields in H. destruct H as (_ & _ & -> & _).
    split; [apply calculate_confidence_formula
           | apply calculate_confidence_bounds]. }
  split.
  - intros r H. destruct (F r H) as (E & B).
    split; [exact E|]. split; [apply entity_term_cases|].
    split; [apply condition_term_cases | exact B].
  - intros Hrun. destruct (@parse_returns t Hrun) as [r Hr].
    exists r. split; [exact Hr | now apply F].
Qed.

Lemma confidence_formula_witness :
  (exists r, _parse_constraint [] = Ok r
             /\ r_confidence r = lit 0.0
             /\ fle (lit 0.0) (r_confidence r)
             /\ fle (r_confidence r) (lit 1.0))
  /\ (exists r, _parse_constraint (txt "?! #") = Ok r
                /\ fle (lit 0.0) (r_confidence r)
                /\ fle (r_confidence r) (lit 1.0))
  /\ (exists r, _parse_constraint scenario1 = Ok r
                /\ r_confidence r = lit 0.8999999999999999
                /\ r_confidence r
                   = py_min (lit 1.0)
                            (fadd (fadd (fadd (type_term r) (entity_term r))
                                        (condition_term r))
                                  (data_term r))).
Proof.
  split; [|split].
  - pose (r := ltac:(let v := eval vm_compute in
                         (match _parse_constraint [] with
                          | Ok x => x
                          | Raise _ => initial_result
                          end) in exact v)).
    assert (E : _parse_constraint [] = Ok r) by (vm_compute; reflexivity).
    exists r. split; [exact E|]. split; [vm_compute; reflexivity|].
    apply (proj1 (confidence_formula []) r E).
  - destruct (proj2 (confidence_formula (txt "?! #"))) as (r & Hr & Hb).
    + apply Nat.leb_le. vm_compute. reflexivity.
    + exists r. split; [exact Hr | exact Hb].
  - pose (r := ltac:(let v := eval vm_compute in
                         (match _parse_constraint scenario1 with
                          | Ok x => x
                          | Raise _ => initial_result
                          end) in exact v)).
    assert (E : _parse_constraint scenario1 = Ok r)
      by (vm_compute; reflexivity).
    exists r. split; [exact E|]. split; [vm_compute; reflexivity|].
    apply (proj1 (confidence_formula scenario1) r E).
Defined.

(** C4.  On "Team A cannot play before 6:00 PM on Fridays" the pipeline
    returns type temporal; the entities include the day_of_week "Friday"
    with confidence 0.95 and the time "6:00 PM" with confidence 0.9; the
    temporal record has before_time "6:00 pm"; the conditions list is
    exactly [{not_equals, "specified_time"}], although the cue "before"
    is present as well as "cannot". *)
Theorem scenario1_parse :
  exists r d,
    _parse_constraint scenario1 = Ok r
    /\ r_type r = Temporal
    /\ In (mk_entity DayOfWeek (EStr (txt "Friday")) 0.95) (r_entities r)
    /\ In (mk_entity Time (EStr (txt "6:00 PM")) 0.9) (r_entities r)
    /\ r_temporal r = Some d
    /\ before_time d = Some (txt "6:00 pm")
    /\ r_conditions r = [mk_condition not_equals "specified_time"]
    /\ kw_in "cannot" (lower scenario1) = true
    /\ kw_in "before" (lower scenario1) = true.
Proof.
  eexists. eexists. split; [vm_compute; reflexivity|].
  cbn [r_type r_entities r_temporal r_conditions].
  split; [reflexivity|].
  split; [do 2 right; left; reflexivity|].
  split; [do 3 right; left; reflexivity|].
  split; [reflexivity|].
  repeat split.
Qed.

(** C5.  In a result exactly one of the five category slots differs from
    its initial value, the slot of the returned type; when the type is
    unknown none does. *)
Theorem one_slot_filled (t : text) (r : ParseResult) :
  _parse_constraint t = Ok r ->
  filled_slots r = match r_type r with
                   | Unknown => []
                   | c => [c]
                   end.
Proof.
  intros H. apply parse_ok_fields in H. destruct H as (_ & _ & _ & H).
  destruct (r_type r); apply H.
Qed.

Lemma one_slot_filled_witness :
  exists r, _parse_constraint scenario1 = Ok r
            /\ filled_slots r = [Temporal]
            /\ r_capacity r = None /\ r_location r = None
            /\ r_rest r = None /\ r_preference r = None.
Proof.
  eexists. split; [vm_compute; reflexivity|].
  split; [|repeat split].
  apply (@one_slot_filled scenario1). vm_compute. reflexivity.
Defined.

(** C6 is stated at the end of the file, under "Overlapping scans": it
    rests on the lemmas about the meaning of patterns. *)

(** C7.  A result holds at most one condition.  Each condition extractor
    is its ordered list of rules read up to the first rule whose cue is
    present, so it gives at most one condition; a temporal text with both
    "cannot" and "before" gets the not_equals condition only. *)
Theorem at_most_one_condition :
  (forall t r, _parse_constraint t = Ok r ->
               List.length (r_conditions r) <= 1)
  /\ (forall t,
         _extract_temporal_conditions t = first_rule temporal_rules t
         /\ _extract_capacity_conditions t = first_rule capacity_rules t
         /\ _extract_location_conditions t = first_rule location_rules t
         /\ _extract_rest_conditions t = first_rule rest_rules t
         /\ _extract_preference_conditions t
            = first_rule preference_rules t)
  /\ (forall rules t, List.length (first_rule rules t) <= 1)
  /\ (forall t, kw_in "cannot" t = true -> kw_in "before" t = true ->
                _extract_temporal_conditions t
                = [mk_condition not_equals "specified_time"]).
Proof.
  split; [|split; [|split]].
  - intros t r H. apply conditions_of_parse in H. destruct H as [rules ->].
    apply first_rule_length.
  - apply extractors_first_rule.
  - apply first_rule_length.
  - intros t Hc _. unfold _extract_temporal_conditions. now rewrite Hc.
Qed.

Lemma at_most_one_condition_witness :
  (exists r, _parse_constraint scenario1 = Ok r
             /\ List.length (r_conditions r) <= 1)
  /\ kw_in "cannot" (lower scenario1) = true
  /\ kw_in "before" (lower scenario1) = true
  /\ _extract_temporal_conditions (lower scenario1)
     = [mk_condition not_equals "specified_time"].
Proof.
  destruct at_most_one_condition as (A & _ & _ & B).
  split; [|split; [|split]].
  - eexists. split; [vm_compute; reflexivity|].
    apply (A scenario1). vm_compute. reflexivity.
  - vm_compute. reflexivity.
  - vm_compute. reflexivity.
  - apply B; vm_compute; reflexivity.
Defined.

(** C8 (as the code behaves).  The pipeline returns a result for every
    text in which no run of digits is longer than 4300 characters, the
    limit of the integer conversion; when it does not return, the
    exception is the ValueError of that conversion and the text has a
    longer run of digits. *)
Theorem parse_total_bounded_digits (t : text) :
  (longest_digit_run t <= int_max_str_digits ->
   exists r, _parse_constraint t = Ok r)
  /\ (forall e, _parse_constraint t = Raise e ->
                e = ValueError /\ int_max_str_digits < longest_digit_run t).
Proof.
  split; [apply parse_returns|].
  intros e H. split; [now apply parse_raises with t|].
  destruct (Nat.le_gt_cases (longest_digit_run t) int_max_str_digits)
    as [Hle | Hgt]; [|exact Hgt].
  destruct (@parse_returns t Hle) as [r Hr]. congruence.
Qed.

Lemma parse_total_bounded_digits_witness :
  longest_digit_run scenario1 <= int_max_str_digits
  /\ exists r, _parse_constraint scenario1 = Ok r.
Proof.
  assert (H : longest_digit_run scenario1 <= int_max_str_digits)
    by (apply Nat.leb_le; vm_compute; reflexivity).
  split; [exact H|].
  apply (proj1 (parse_total_bounded_digits scenario1)). exact H.
Defined.

(** C8, as stated, fails: on a text of 4301 digits the conversion of the
    matched digit group raises and the pipeline returns no result. *)
Lemma long_digit_run_raises :
  _parse_constraint (digits 4301) = Raise ValueError
  /\ ~ exists r, _parse_constraint (digits 4301) = Ok r.
Proof.
  assert (H : _parse_constraint (digits 4301) = Raise ValueError)
    by (vm_compute; reflexivity).
  split; [exact H|]. intros [r Hr]. rewrite H in Hr. discriminate Hr.
Qed.

(** C9.  A text whose lower-cased form contains "am" has a temporal
    score of at least 1 and is never classified unknown; a lower-cased
    form that contains "team" or "game" contains "am". *)
Theorem am_substring_temporal (t : text) :
  (kw_in "am" (lower t) = true ->
   1 <= category_score Temporal (lower t)
   /\ _classify_constraint_type (lower t) <> Unknown
   /\ (forall r, _parse_constraint t = Ok r -> r_type r <> Unknown))
  /\ (kw_in "team" (lower t) = true \/ kw_in "game" (lower t) = true ->
      kw_in "am" (lower t) = true)
  /\ (kw_in "team" t = true \/ kw_in "game" t = true ->
      kw_in "am" (lower t) = true).
Proof.
  assert (L : kw_in "team" (lower t) = true \/ kw_in "game" (lower t) = true
              -> kw_in "am" (lower t) = true).
  { unfold kw_in. intros [H | H].
    + apply contains_trans with (txt "team"); [reflexivity | exact H].
    + apply contains_trans with (txt "game"); [reflexivity | exact H]. }
  assert (R : kw_in "team" t = true \/ kw_in "game" t = true
              -> kw_in "am" (lower t) = true).
  { unfold kw_in. intros [H | H]; apply L; [left | right];
      apply contains_lower in H; exact H. }
  split; [|split; [exact L | exact R]].
  intros Ham.
  assert (S : 1 <= category_score Temporal (lower t)).
  { apply count_keywords_pos with "am"%string; [|exact Ham].
    simpl. tauto. }
  assert (U : _classify_constraint_type (lower t) <> Unknown).
  { intros Hu. rewrite classify_unknown_iff in Hu.
    specialize (Hu Temporal). simpl in Hu.
    assert (category_score Temporal (lower t) = 0) by tauto. lia. }
  repeat split; trivial.
  intros r H. apply parse_ok_fields in H. destruct H as (-> & _). exact U.
Qed.

Lemma am_substring_temporal_witness :
  kw_in "team" (lower scenario3) = true
  /\ kw_in "am" (lower scenario3) = true
  /\ 1 <= category_score Temporal (lower scenario3)
  /\ _classify_constraint_type (lower scenario3) <> Unknown.
Proof.
  assert (T : kw_in "team" (lower scenario3) = true)
    by (vm_compute; reflexivity).
  destruct (am_substring_temporal scenario3) as (A & B & _).
  assert (M : kw_in "am" (lower scenario3) = true) by (apply B; now left).
  split; [exact T|]. split; [exact M|].
  destruct (A M) as (S & U & _). split; [exact S | exact U].
Defined.

(** C10.  A result of type rest or preference has confidence at least
    0.5: the rest parser sets between_events to true and the preference
    parser sets weight to 0.5, so the populated-field term 0.2 is added
    to the classification term 0.3 whatever the text holds; in binary64
    0.3 + 0.2 is 0.5 and the further terms do not lower the sum. *)
Theorem rest_preference_confidence :
  (forall t r, _parse_constraint t = Ok r ->
               r_type r = Rest \/ r_type r = Preference ->
               type_term r = lit 0.3 /\ data_term r = lit 0.2
               /\ fle (lit 0.5) (r_confidence r))
  /\ (forall t d, _parse_rest_constraint t = Ok d -> between_events d = true)
  /\ (forall t, weight (_parse_preference_constraint t) = 0.5%Q).
Proof.
  split; [|split].
  - intros t r H Hty. pose proof (parse_ok_fields _ H) as (_ & _ & Hc & F).
    assert (T : type_term r = lit 0.3).
    { unfold type_term. destruct Hty as [-> | ->]; reflexivity. }
    assert (D : data_term r = lit 0.2).
    { unfold data_term, constraint_data.
      destruct Hty as [Hty | Hty]; rewrite Hty in F |- *.
      - destruct F as ((d & Hd & ->) & _). unfold _parse_rest_constraint in Hd.
        destruct (int_field (search false day_between_pattern (lower t)));
          cbn [bind] in Hd; [|discriminate].
        destruct (int_field (search false hour_between_pattern (lower t)));
          cbn [bind] in Hd; [|discriminate].
        injection Hd as <-. cbn [slot_values rest_values existsb is_set
                                 between_events min_days min_hours opt_value].
        rewrite !orb_true_r. reflexivity.
      - destruct F as (-> & _). reflexivity. }
    split; [exact T|]. split; [exact D|].
    rewrite Hc, calculate_confidence_formula. unfold score_sum.
    rewrite T, D, entity_term_cases, condition_term_cases. unfold fle.
    destruct (List.length (r_entities r)) as [|[|[|n]]];
      destruct (List.length (r_conditions r)) as [|[|k]];
      vm_compute; reflexivity.
  - intros t d. unfold _parse_rest_constraint.
    destruct (int_field (search false day_between_pattern t));
      cbn [bind]; [|discriminate].
    destruct (int_field (search false hour_between_pattern t));
      cbn [bind]; [|discriminate].
    intros H. injection H as <-. reflexivity.
  - reflexivity.
Qed.

Lemma rest_preference_confidence_witness :
  (exists r, _parse_constraint (txt "rest") = Ok r
             /\ r_type r = Rest /\ fle (lit 0.5) (r_confidence r)
             /\ r_confidence r = lit 0.5)
  /\ (exists r, _parse_constraint (txt "wish") = Ok r
                /\ r_type r = Preference /\ fle (lit 0.5) (r_confidence r)).
Proof.
  destruct rest_preference_confidence as (A & _).
  split.
  - pose (r := ltac:(let v := eval vm_compute in
                         (match _parse_constraint (txt "rest") with
                          | Ok x => x
                          | Raise _ => initial_result
                          end) in exact v)).
    assert (E : _parse_constraint (txt "rest") = Ok r)
      by (vm_compute; reflexivity).
    exists r. split; [exact E|].
    split; [reflexivity|]. split; [|vm_compute; reflexivity].
    apply (A (txt "rest") r E). left. reflexivity.
  - pose (r := ltac:(let v := eval vm_compute in
                         (match _parse_constraint (txt "wish") with
                          | Ok x => x
                          | Raise _ => initial_result
                          end) in exact v)).
    assert (E : _parse_constraint (txt "wish") = Ok r)
      by (vm_compute; reflexivity).
    exists r. split; [exact E|]. split; [reflexivity|].
    apply (A (txt "wish") r E). right. reflexivity.
Defined.

(** * Further properties *)

(** ** Matched words *)

Section MatcherWords.

Variable icase : bool.

Lemma matcher_rel (r : regex) :
  forall (prev : option ascii) (s : text) (cap : option text) (k : cont)
         (m : match_obj),
    matcher icase r prev s cap k = Some m ->
    exists w s' prev' cap',
      s = w ++ s' /\ match_rel icase r w cap cap'
      /\ k prev' s' cap' = Some m.
Proof.
  induction r as [|c|p|r1 IH1 r2 IH2|r1 IH1 r2 IH2|p lo hi| |r1 IH1];
    intros prev s cap k m H; simpl in H.
  - exists [], s, prev, cap. simpl. auto.
  - destruct s as [|t s]; [discriminate|].
    destruct (chr_eqb icase c t) eqn:E; [|discriminate].
    exists [t], s, (Some t), cap. simpl. eauto 6.
  - destruct s as [|t s]; [discriminate|].
    destruct (p t) eqn:Hp; [|discriminate].
    exists [t], s, (Some t), cap. simpl. eauto 6.
  - apply IH1 in H. destruct H as (w1 & s1 & prev1 & cap1 & -> & L1 & H).
    apply IH2 in H. destruct H as (w2 & s2 & prev2 & cap2 & -> & L2 & H).
    exists (w1 ++ w2), s2, prev2, cap2. rewrite app_assoc.
    repeat split; trivial. simpl. now exists w1, w2, cap1.
  - destruct (matcher icase r1 prev s cap k) eqn:H1.
    + injection H as ->. apply IH1 in H1.
      destruct H1 as (w & s' & prev' & cap' & -> & L & H).
      exists w, s', prev', cap'. simpl. auto.
    + apply IH2 in H. destruct H as (w & s' & prev' & cap' & -> & L & H).
      exists w, s', prev', cap'. simpl. auto.
  - apply rep_sound in H. destruct H as (w & s' & prev' & -> & Hw & Hlo & H).
    exists w, s', prev', cap. simpl. auto.
  - destruct (xorb _ _); [|discriminate].
    exists [], s, prev, cap. simpl. auto.
  - apply IH1 in H. destruct H as (w & s' & prev' & cap' & -> & L & H).
    rewrite firstn_consumed in H.
    exists w, s', prev', (Some w). simpl. eauto 6.
Qed.

Lemma match_rel_lang (r : regex) :
  forall (w : text) (cap cap' : option text),
    match_rel icase r w cap cap' -> lang_c icase r w.
Proof.
  induction r as [|c|p|r1 IH1 r2 IH2|r1 IH1 r2 IH2|p lo hi| |r1 IH1];
    intros w cap cap'; simpl.
  - tauto.
  - tauto.
  - tauto.
  - intros (u & v & mid & -> & H1 & H2). exists u, v. eauto.
  - intros [H | H]; eauto.
  - tauto.
  - tauto.
  - intros [[mid H] _]. eauto.
Qed.

Lemma match_here_rel (r : regex) (prev : option ascii) (s : text)
      (m : match_obj) :
  match_here icase r prev s = Some m ->
  match_rel icase r (group0 m) None (group1 m)
  /\ exists s', s = group0 m ++ s'.
Proof.
  unfold match_here. intros H. apply matcher_rel in H.
  destruct H as (w & s' & prev' & cap' & -> & L & H).
  rewrite firstn_consumed in H. injection H as <-. simpl. eauto.
Qed.

Lemma match_here_word (r : regex) (prev : option ascii) (s : text)
      (m : match_obj) :
  match_here icase r prev s = Some m ->
  lang_c icase r (group0 m) /\ exists s', s = group0 m ++ s'.
Proof.
  intros H. apply match_here_rel in H. destruct H as (L & E).
  split; [|exact E]. now apply match_rel_lang in L.
Qed.

Lemma search_from_here (r : regex) (m : match_obj) :
  forall (s : text) (prev : option ascii),
    search_from icase r prev s = Some m ->
    exists a prev' s', s = a ++ s' /\ match_here icase r prev' s' = Some m.
Proof.
  induction s as [|c s IH]; intros prev H; simpl in H.
  - destruct (match_here icase r prev []) eqn:E; [|discriminate].
    injection H as ->. now exists [], prev, [].
  - destruct (match_here icase r prev (c :: s)) eqn:E.
    + injection H as ->. now exists [], prev, (c :: s).
    + apply IH in H. destruct H as (a & prev' & s' & -> & H).
      now exists (c :: a), prev', s'.
Qed.

Lemma finditer_from_here (r : regex) (m : match_obj) :
  forall (s : text) (prev : option ascii) (skip : nat),
    In m (finditer_from icase r prev s skip) ->
    exists a prev' s', s = a ++ s' /\ match_here icase r prev' s' = Some m.
Proof.
  induction s as [|c s IH]; intros prev skip H; simpl in H.
  - destruct skip; simpl in H; [|contradiction].
    destruct (match_here icase r prev []) eqn:E; [|contradiction].
    destruct H as [<- | []]. now exists [], prev, [].
  - assert (R : In m (finditer_from icase r (Some c) s
                                    (pred (List.length (group0 m))))
                \/ (exists n, In m (finditer_from icase r (Some c) s n)) ->
                exists a prev' s',
                  c :: s = a ++ s' /\ match_here icase r prev' s' = Some m).
    { intros [H' | [n H']]; apply IH in H';
        destruct H' as (a & prev' & s' & -> & H');
        now exists (c :: a), prev', s'. }
    destruct skip.
    + destruct (match_here icase r prev (c :: s)) eqn:E.
      * destruct H as [<- | H].
        -- now exists [], prev, (c :: s).
        -- apply R. right. eauto.
      * apply R. right. eauto.
    + apply R. right. eauto.
Qed.

Lemma search_word (r : regex) (s : text) (m : match_obj) :
  search icase r s = Some m ->
  lang_c icase r (group0 m) /\ piece_of (group0 m) s.
Proof.
  intros H. apply search_from_here in H.
  destruct H as (a & prev' & s' & -> & H). apply match_here_word in H.
  destruct H as (L & s'' & ->). split; [exact L|]. now exists a, s''.
Qed.

Lemma search_rel (r : regex) (s : text) (m : match_obj) :
  search icase r s = Some m ->
  match_rel icase r (group0 m) None (group1 m) /\ piece_of (group0 m) s.
Proof.
  intros H. apply search_from_here in H.
  destruct H as (a & prev' & s' & -> & H). apply match_here_rel in H.
  destruct H as (L & s'' & ->). split; [exact L|]. now exists a, s''.
Qed.

Lemma finditer_word (r : regex) (s : text) (m : match_obj) :
  In m (finditer icase r s) ->
  lang_c icase r (group0 m) /\ piece_of (group0 m) s.
Proof.
  intros H. apply finditer_from_here in H.
  destruct H as (a & prev' & s' & -> & H). apply match_here_word in H.
  destruct H as (L & s'' & ->). split; [exact L|]. now exists a, s''.
Qed.

End MatcherWords.

Lemma lang_c_literal (l w : text) :
  lang_c false (fold_right (fun c r => Seq (Chr c) r) Eps l) w -> w = l.
Proof.
  revert w. induction l as [|c l IH]; intros w; simpl.
  - auto.
  - intros (u & v & -> & (t & -> & E) & Hv). unfold chr_eqb in E.
    apply Ascii.eqb_eq in E. subst t. simpl. f_equal. now apply IH.
Qed.

Lemma lang_c_Lit (s : string) (w : text) :
  lang_c false (Lit s) w -> w = txt s.
Proof. apply lang_c_literal. Qed.

Lemma lang_c_literal_icase (l w : text) :
  lang_c true (fold_right (fun c r => Seq (Chr c) r) Eps l) w ->
  lower w = lower l.
Proof.
  revert w. induction l as [|c l IH]; intros w; simpl.
  - now intros ->.
  - intros (u & v & -> & (t & -> & E) & Hv). unfold chr_eqb in E.
    apply Ascii.eqb_eq in E. simpl. rewrite E. f_equal. now apply IH.
Qed.

Lemma lang_c_Lit_icase (s : string) (w : text) :
  lang_c true (Lit s) w -> lower w = lower (txt s).
Proof. apply lang_c_literal_icase. Qed.

Lemma piece_of_contains (g t : text) : piece_of g t -> contains g t = true.
Proof. apply contains_iff. Qed.

Lemma piece_of_prefix (u v t : text) : piece_of (u ++ v) t -> piece_of u t.
Proof.
  intros [a [b ->]]. exists a, (v ++ b). now rewrite <- !app_assoc.
Qed.


(** ** Entities *)

Ltac break_hyps :=
  repeat match goal with
         | H : exists _, _ |- _ => destruct H
         | H : _ /\ _ |- _ => destruct H
         | H : _ \/ _ |- _ => destruct H
         | H : lang_c false (Lit _) _ |- _ => apply lang_c_Lit in H
         end.

Lemma map_result_inv {A B : Type} (f : A -> result B) (l : list A)
      (ys : list B) :
  map_result f l = Ok ys ->
  forall y, In y ys -> exists x, In x l /\ f x = Ok y.
Proof.
  revert ys. induction l as [|x l IH]; intros ys; simpl.
  - intros H. injection H as <-. contradiction.
  - destruct (f x) as [y0|e] eqn:E; simpl; [|discriminate].
    destruct (map_result f l) as [ys0|e]; simpl; [|discriminate].
    intros H. injection H as <-. intros y [<- | Hy].
    + exists x. auto.
    + destruct (IH ys0 eq_refl y Hy) as (x' & Hx & Hf). exists x'. auto.
Qed.

Lemma extract_entities_inv (t : text) (es : list entity) :
  _extract_entities t = Ok es ->
  exists ns, number_scan t = Ok ns
             /\ es = team_scan t ++ day_scan t ++ time_scan t ++ ns
                     ++ venue_scan t.
Proof.
  unfold _extract_entities. destruct (number_scan t) as [ns|e]; simpl;
    [|discriminate].
  intros H. injection H as <-. exists ns. split; [reflexivity|].
  now rewrite <- !app_assoc.
Qed.

Lemma entity_origin (t : text) (es : list entity) (e : entity) :
  _extract_entities t = Ok es -> In e es ->
  (exists m, In m (finditer false team_pattern t)
             /\ e = mk_entity Team (EStr (group0 m)) 0.8)
  \/ (exists m, In m (finditer true days_pattern t)
                /\ e = mk_entity DayOfWeek
                                 (EStr (capitalize (rstrip_s (group0 m))))
                                 0.95)
  \/ (exists m, In m (finditer false time_pattern t)
                /\ e = mk_entity Time (EStr (group0 m)) 0.9)
  \/ (exists m n, In m (finditer false number_pattern t)
                  /\ int (group0 m) = Ok n
                  /\ e = mk_entity Number (EInt n) 0.85)
  \/ (exists m, In m (finditer true venue_pattern t)
                /\ e = mk_entity Venue (EStr (group0 m)) 0.9).
Proof.
  intros H Hin. apply extract_entities_inv in H. destruct H as (ns & Hns & ->).
  repeat (apply in_app_or in Hin; destruct Hin as [Hin | Hin]).
  - left. unfold team_scan in Hin. apply in_map_iff in Hin.
    destruct Hin as (m & <- & Hm). eauto.
  - right; left. unfold day_scan in Hin. apply in_map_iff in Hin.
    destruct Hin as (m & <- & Hm). eauto.
  - do 2 right; left. unfold time_scan in Hin. apply in_map_iff in Hin.
    destruct Hin as (m & <- & Hm). eauto.
  - do 3 right; left. unfold number_scan in Hns.
    destruct (map_result_inv _ _ Hns e Hin) as (m & Hm & Hf).
    destruct (int (group0 m)) as [n|x] eqn:E; simpl in Hf; [|discriminate].
    injection Hf as <-. exists m, n. auto.
  - do 4 right. unfold venue_scan in Hin. apply in_map_iff in Hin.
    destruct Hin as (m & <- & Hm). eauto.
Qed.

Lemma digit_value_nonneg (c : ascii) :
  is_digit c = true -> (0 <= digit_value c <= 9)%Z.
Proof.
  unfold is_digit, in_range, digit_value. intros H.
  apply andb_true_iff in H. destruct H as [H1 H2].
  apply N.leb_le in H1. apply N.leb_le in H2. lia.
Qed.

Lemma fold_digits_nonneg (w : text) :
  forallb is_digit w = true ->
  forall acc, (0 <= acc)%Z ->
              (0 <= fold_left (fun acc c => 10 * acc + digit_value c) w acc)%Z.
Proof.
  induction w as [|c w IH]; cbn [fold_left forallb]; intros H acc Hacc;
    [exact Hacc|].
  apply andb_true_iff in H. destruct H as [Hc Hw].
  apply IH; [exact Hw|]. pose proof (digit_value_nonneg c Hc). lia.
Qed.

Lemma int_of_digits_nonneg (w : text) :
  forallb is_digit w = true -> (0 <= int_of_digits w)%Z.
Proof.
  intros H. unfold int_of_digits. apply fold_digits_nonneg; [exact H | lia].
Qed.

Lemma int_inv (w : text) (z : Z) :
  int w = Ok z ->
  digit_word w /\ List.length w <= int_max_str_digits
  /\ z = int_of_digits w.
Proof.
  unfold int, digit_word. destruct w as [|c w]; [discriminate|].
  destruct (forallb is_digit (c :: w)
            && (List.length (c :: w) <=? int_max_str_digits)) eqn:D;
    [|discriminate].
  apply andb_true_iff in D. destruct D as [D L].
  intros H. injection H as <-. apply Nat.leb_le in L.
  repeat split; trivial. simpl. lia.
Qed.

Lemma lang_team_pattern (w : text) :
  lang_c false team_pattern w ->
  exists c w', w = c :: w' /\ is_upper_AZ c = true.
Proof.
  unfold team_pattern, cat, alts. cbn [lang_c fold_right].
  intros H. break_hyps; subst; simpl.
  - exists "T"%char. eexists. split; reflexivity.
  - eexists. eexists. split; [reflexivity | assumption].
  - eexists. eexists. split; [reflexivity | assumption].
Qed.

Lemma lang_time_pattern (w : text) :
  lang_c false time_pattern w ->
  exists c w', w = c :: w' /\ is_digit c = true.
Proof.
  unfold time_pattern, clock, cat, alts, Opt. cbn [lang_c fold_right].
  intros H.
  assert (G : forall (u v : text),
             forallb is_digit u = true -> 1 <= List.length u ->
             exists c w', u ++ v = c :: w' /\ is_digit c = true).
  { intros u v Hu Hl. destruct u as [|c u]; simpl in Hl; [lia|].
    simpl in Hu. apply andb_true_iff in Hu. destruct Hu as [Hc _].
    exists c, (u ++ v). auto. }
  break_hyps; subst; simpl app; rewrite ?app_nil_r; apply G; assumption.
Qed.

Lemma lang_venue_pattern (w : text) :
  lang_c true venue_pattern w -> w <> [].
Proof.
  unfold venue_pattern, cat, alts, Lit. cbn [lang_c fold_right txt
    list_ascii_of_string].
  intros H. break_hyps; subst; discriminate.
Qed.

Lemma lower_char_idem (c : ascii) : lower_char (lower_char c) = lower_char c.
Proof. destruct c as [[] [] [] [] [] [] [] []]; reflexivity. Qed.

Lemma lower_idem (t : text) : lower (lower t) = lower t.
Proof.
  unfold lower. rewrite map_map. apply map_ext. apply lower_char_idem.
Qed.

Lemma upper_of_lower (c : ascii) :
  in_range 97 122 (lower_char c) = true ->
  upper_char c = upper_char (lower_char c).
Proof. destruct c as [[] [] [] [] [] [] [] []]; try reflexivity; discriminate. Qed.

Lemma capitalize_lower (w : text) :
  (exists c l, lower w = c :: l /\ in_range 97 122 c = true) ->
  capitalize w = capitalize (lower w).
Proof.
  intros (c & l & H & Hc). destruct w as [|x w]; [reflexivity|].
  simpl in H. injection H as Hx Hl. simpl. rewrite lower_idem.
  f_equal. apply upper_of_lower. now rewrite Hx.
Qed.

Lemma rstrip_s_snoc (w : text) (x : ascii) :
  rstrip_s (w ++ [x])
  = if Ascii.eqb x "s"%char then rstrip_s w else w ++ [x].
Proof.
  induction w as [|c w IH]; simpl.
  - destruct (Ascii.eqb x "s"%char); reflexivity.
  - rewrite IH. destruct (Ascii.eqb x "s"%char); [reflexivity|].
    destruct w; reflexivity.
Qed.

Lemma lower_snoc_inv (w l : text) (y : ascii) :
  lower w = l ++ [y] ->
  exists w' x, w = w' ++ [x] /\ lower w' = l /\ lower_char x = y.
Proof.
  unfold lower. intros H. apply map_eq_app in H.
  destruct H as (w' & v & -> & Hw & Hv).
  destruct v as [|x v]; [discriminate|]. simpl in Hv.
  injection Hv as Hx Hv. apply map_eq_nil in Hv. subst v.
  exists w', x. auto.
Qed.

Lemma not_s_of_lower (x y : ascii) :
  lower_char x = y -> Ascii.eqb y "s"%char = false ->
  Ascii.eqb x "s"%char = false.
Proof.
  intros <- H. destruct (Ascii.eqb x "s"%char) eqn:E; [|reflexivity].
  apply Ascii.eqb_eq in E. subst x. discriminate H.
Qed.

Lemma s_of_lower (x : ascii) :
  lower_char x = "s"%char -> x = "s"%char \/ x = "S"%char.
Proof.
  destruct x as [[] [] [] [] [] [] [] []]; try discriminate; auto.
Qed.

(** The value of a day entity, from the lower-cased form of its match. *)
Lemma day_value_singular (w l : text) (y : ascii) :
  lower w = l ++ [y] -> Ascii.eqb y "s"%char = false ->
  (exists c l', l ++ [y] = c :: l' /\ in_range 97 122 c = true) ->
  capitalize (rstrip_s w) = capitalize (l ++ [y]).
Proof.
  intros H Hy Hc. destruct (@lower_snoc_inv _ _ _ H) as (w' & x & -> & Hw & Hx).
  rewrite rstrip_s_snoc, (@not_s_of_lower _ _ Hx Hy).
  rewrite capitalize_lower; rewrite H; trivial.
Qed.

Lemma day_value_plural (w l : text) (y : ascii) :
  lower w = (l ++ [y]) ++ txt "s" -> Ascii.eqb y "s"%char = false ->
  (exists c l', l ++ [y] = c :: l' /\ in_range 97 122 c = true) ->
  capitalize (rstrip_s w) = capitalize (l ++ [y])
  \/ (capitalize (rstrip_s w) = capitalize (l ++ [y]) ++ txt "s"
      /\ In "S"%char w).
Proof.
  intros H Hy Hc.
  destruct (@lower_snoc_inv _ _ _ H) as (w' & x & -> & Hw & Hx).
  destruct (@s_of_lower _ Hx) as [-> | ->].
  - left. rewrite rstrip_s_snoc. simpl Ascii.eqb. cbv iota.
    now apply day_value_singular.
  - right. split; [|apply in_or_app; right; now left].
    rewrite rstrip_s_snoc. simpl Ascii.eqb. cbv iota.
    rewrite capitalize_lower.
    + rewrite H. destruct Hc as (c & l' & -> & _). simpl.
      now rewrite lower_app.
    + rewrite H. destruct Hc as (c & l' & -> & Hc). simpl. eauto.
Qed.

Lemma lang_days_pattern (w : text) :
  lang_c true days_pattern w ->
  exists d, In d days
            /\ (lower w = txt d \/ lower w = txt d ++ txt "s").
Proof.
  unfold days_pattern, cat, alts. cbn [lang_c fold_right].
  intros (u & v & -> & -> & u' & v' & -> & H & u2 & v2 & -> & -> & ->).
  simpl app. rewrite app_nil_r.
  repeat (destruct H as [H | H]);
    apply lang_c_Lit_icase in H; rewrite H;
    match goal with
    | |- exists d, _ /\ (lower (txt ?n) = _ \/ _) =>
        first
          [ exists "monday"%string; split; [simpl; tauto|];
            (left; reflexivity) || (right; reflexivity)
          | exists "tuesday"%string; split; [simpl; tauto|];
            (left; reflexivity) || (right; reflexivity)
          | exists "wednesday"%string; split; [simpl; tauto|];
            (left; reflexivity) || (right; reflexivity)
          | exists "thursday"%string; split; [simpl; tauto|];
            (left; reflexivity) || (right; reflexivity)
          | exists "friday"%string; split; [simpl; tauto|];
            (left; reflexivity) || (right; reflexivity)
          | exists "saturday"%string; split; [simpl; tauto|];
            (left; reflexivity) || (right; reflexivity)
          | exists "sunday"%string; split; [simpl; tauto|];
            (left; reflexivity) || (right; reflexivity) ]
    end.
Qed.

Lemma day_value (w : text) (d : string) :
  In d days ->
  In (capitalize (txt d)) week_names
  /\ lower (capitalize (txt d)) = txt d
  /\ (lower w = txt d -> capitalize (rstrip_s w) = capitalize (txt d))
  /\ (lower w = txt d ++ txt "s" ->
      capitalize (rstrip_s w) = capitalize (txt d)
      \/ (capitalize (rstrip_s w) = capitalize (txt d) ++ txt "s"
          /\ In "S"%char w)).
Proof.
  intros Hd. simpl in Hd.
  repeat (destruct Hd as [<- | Hd]); try contradiction;
    (split; [simpl; tauto|]; split; [reflexivity|]; split; intros H;
     match goal with
     | |- context [capitalize (txt ?d)] =>
         first
           [ apply (@day_value_singular w (removelast (txt d))
                                        (last (txt d) " "%char))
           | apply (@day_value_plural w (removelast (txt d))
                                      (last (txt d) " "%char)) ];
         [ exact H | reflexivity
         | eexists; eexists; split; reflexivity ]
     end).
Qed.

Lemma lower_piece (g t : text) : piece_of g t -> piece_of (lower g) (lower t).
Proof.
  intros [a [b ->]]. exists (lower a), (lower b). now rewrite !lower_app.
Qed.

Lemma day_match_value (t : text) (m : match_obj) :
  In m (finditer true days_pattern t) ->
  exists name,
    In name week_names
    /\ contains (lower name) (lower t) = true
    /\ (capitalize (rstrip_s (group0 m)) = name
        \/ (capitalize (rstrip_s (group0 m)) = name ++ txt "s"
            /\ In "S"%char t)).
Proof.
  intros Hm. apply finditer_word in Hm. destruct Hm as (L & P).
  apply lang_days_pattern in L. destruct L as (d & Hd & L).
  destruct (@day_value (group0 m) d Hd) as (Hn & Hl & Hs & Hp).
  exists (capitalize (txt d)). split; [exact Hn|]. split.
  - rewrite Hl. apply piece_of_contains. apply lower_piece in P.
    destruct L as [L | L]; rewrite L in P; [exact P|].
    now apply piece_of_prefix with (txt "s").
  - destruct L as [L | L]; [left; now apply Hs|].
    destruct (Hp L) as [E | [E HS]]; [now left | right].
    split; [exact E|]. destruct P as (a & b & ->).
    apply in_or_app. right. apply in_or_app. now left.
Qed.

(** X1.  Every entity carries the confidence fixed for its kind (team
    0.8, day_of_week 0.95, time 0.9, number 0.85, venue 0.9), a value
    between 0 and 1; a number entity holds an integer and every other
    entity a string. *)
Theorem entity_confidence_by_kind (t : text) (es : list entity)
        (e : entity) :
  _extract_entities t = Ok es -> In e es ->
  e_confidence e = kind_confidence (e_type e)
  /\ (0 <= e_confidence e <= 1)%Q
  /\ match e_type e, e_value e with
     | Number, EInt _ => True
     | Number, EStr _ => False
     | _, EStr _ => True
     | _, EInt _ => False
     end.
Proof.
  intros H Hin. destruct (@entity_origin _ _ _ H Hin)
    as [(m & _ & ->) | [(m & _ & ->) | [(m & _ & ->)
       | [(m & n & _ & _ & ->) | (m & _ & ->)]]]];
    simpl; repeat split; unfold Qle; simpl; lia.
Qed.

Lemma entity_confidence_by_kind_witness :
  exists es,
    _extract_entities scenario1 = Ok es
    /\ In (mk_entity DayOfWeek (EStr (txt "Friday")) 0.95) es
    /\ e_confidence (mk_entity DayOfWeek (EStr (txt "Friday")) 0.95)
       = kind_confidence DayOfWeek.
Proof.
  pose (es := ltac:(let v := eval vm_compute in
                         (match _extract_entities scenario1 with
                          | Ok x => x
                          | Raise _ => []
                          end) in exact v)).
  assert (E : _extract_entities scenario1 = Ok es)
    by (vm_compute; reflexivity).
  assert (I : In (mk_entity DayOfWeek (EStr (txt "Friday")) 0.95) es)
    by (vm_compute; tauto).
  exists es. split; [exact E|]. split; [exact I|].
  exact (proj1 (@entity_confidence_by_kind _ _ _ E I)).
Defined.

(** X2.  The value of a team, time or venue entity is a non-empty
    contiguous piece of the text as it was submitted; a team value
    starts with a capital letter A-Z and a time value with a digit. *)
Theorem text_entity_values (t : text) (es : list entity) (e : entity) :
  _extract_entities t = Ok es -> In e es ->
  match e_type e with
  | Team =>
      exists c s, e_value e = EStr (c :: s) /\ is_upper_AZ c = true
                  /\ piece_of (c :: s) t
  | Time =>
      exists c s, e_value e = EStr (c :: s) /\ is_digit c = true
                  /\ piece_of (c :: s) t
  | Venue =>
      exists c s, e_value e = EStr (c :: s) /\ piece_of (c :: s) t
  | _ => True
  end.
Proof.
  intros H Hin. destruct (@entity_origin _ _ _ H Hin)
    as [(m & Hm & ->) | [(m & _ & ->) | [(m & Hm & ->)
       | [(m & n & _ & _ & ->) | (m & Hm & ->)]]]];
    simpl; trivial; apply finditer_word in Hm; destruct Hm as (L & P).
  - apply lang_team_pattern in L. destruct L as (c & s & E & Hc).
    rewrite E in *. now exists c, s.
  - apply lang_time_pattern in L. destruct L as (c & s & E & Hc).
    rewrite E in *. now exists c, s.
  - apply lang_venue_pattern in L. destruct (group0 m) as [|c s];
      [contradiction|]. now exists c, s.
Qed.

Lemma text_entity_values_witness :
  exists es,
    _extract_entities scenario1 = Ok es
    /\ In (mk_entity Time (EStr (txt "6:00 PM")) 0.9) es
    /\ exists c s, EStr (txt "6:00 PM") = EStr (c :: s)
                   /\ is_digit c = true /\ piece_of (c :: s) scenario1.
Proof.
  pose (es := ltac:(let v := eval vm_compute in
                         (match _extract_entities scenario1 with
                          | Ok x => x
                          | Raise _ => []
                          end) in exact v)).
  assert (E : _extract_entities scenario1 = Ok es)
    by (vm_compute; reflexivity).
  assert (I : In (mk_entity Time (EStr (txt "6:00 PM")) 0.9) es)
    by (vm_compute; tauto).
  exists es. split; [exact E|]. split; [exact I|].
  exact (@text_entity_values _ _ _ E I).
Defined.

(** X3.  The value of a number entity is the non-negative integer
    written by a run of at most 4300 digits that occurs in the text. *)
Theorem number_entity_values (t : text) (es : list entity) (e : entity) :
  _extract_entities t = Ok es -> In e es -> e_type e = Number ->
  exists w, digit_word w /\ piece_of w t
            /\ List.length w <= int_max_str_digits
            /\ e_value e = EInt (int_of_digits w)
            /\ (0 <= int_of_digits w)%Z.
Proof.
  intros H Hin Hty. destruct (@entity_origin _ _ _ H Hin)
    as [(m & _ & ->) | [(m & _ & ->) | [(m & _ & ->)
       | [(m & n & Hm & Hn & ->) | (m & _ & ->)]]]];
    try discriminate Hty.
  apply finditer_word in Hm. destruct Hm as (_ & P).
  apply int_inv in Hn. destruct Hn as (D & Hl & ->).
  exists (group0 m). repeat split; trivial; try apply D.
  apply int_of_digits_nonneg. apply D.
Qed.

Lemma number_entity_values_witness :
  exists es,
    _extract_entities scenario1 = Ok es
    /\ In (mk_entity Number (EInt 0) 0.85) es
    /\ exists w, digit_word w /\ piece_of w scenario1
                 /\ List.length w <= int_max_str_digits
                 /\ EInt 0 = EInt (int_of_digits w)
                 /\ (0 <= int_of_digits w)%Z.
Proof.
  pose (es := ltac:(let v := eval vm_compute in
                         (match _extract_entities scenario1 with
                          | Ok x => x
                          | Raise _ => []
                          end) in exact v)).
  assert (E : _extract_entities scenario1 = Ok es)
    by (vm_compute; reflexivity).
  assert (I : In (mk_entity Number (EInt 0) 0.85) es)
    by (vm_compute; tauto).
  exists es. split; [exact E|]. split; [exact I|].
  exact (@number_entity_values _ _ _ E I eq_refl).
Defined.

Lemma day_entity_name (t : text) (es : list entity) (e : entity) :
  _extract_entities t = Ok es -> In e es -> e_type e = DayOfWeek ->
  exists name,
    In name week_names
    /\ contains (lower name) (lower t) = true
    /\ (e_value e = EStr name
        \/ (e_value e = EStr (name ++ txt "s") /\ In "S"%char t)).
Proof.
  intros H Hin Hty. destruct (@entity_origin _ _ _ H Hin)
    as [(m & _ & ->) | [(m & Hm & ->) | [(m & _ & ->)
       | [(m & n & _ & _ & ->) | (m & _ & ->)]]]];
    try discriminate Hty.
  destruct (@day_match_value _ _ Hm) as (name & Hn & Hc & Hv).
  exists name. split; [exact Hn|]. split; [exact Hc|]. simpl.
  destruct Hv as [-> | [-> HS]]; auto.
Qed.

(** ** Category parsers *)

Lemma match_rel_literal (l w : text) (cap cap' : option text) :
  match_rel false (fold_right (fun c r => Seq (Chr c) r) Eps l) w cap cap' ->
  w = l /\ cap' = cap.
Proof.
  revert w cap. induction l as [|c l IH]; intros w cap; simpl.
  - auto.
  - intros (u & v & mid & -> & ((t & -> & E) & ->) & Hv).
    unfold chr_eqb in E. apply Ascii.eqb_eq in E. subst t.
    apply IH in Hv. destruct Hv as [-> ->]. auto.
Qed.

Lemma match_rel_Lit (s : string) (w : text) (cap cap' : option text) :
  match_rel false (Lit s) w cap cap' -> w = txt s /\ cap' = cap.
Proof. apply match_rel_literal. Qed.

Ltac break_rel :=
  repeat match goal with
         | H : exists _, _ |- _ => destruct H
         | H : _ /\ _ |- _ => destruct H
         | H : _ \/ _ |- _ => destruct H
         | H : match_rel false (Lit _) _ _ _ |- _ => apply match_rel_Lit in H
         end.

Lemma lang_clock (meridiem : regex) (w : text) :
  lang_c false (clock meridiem) w ->
  exists c w', w = c :: w' /\ is_digit c = true.
Proof.
  unfold clock, cat. cbn [lang_c fold_right]. intros H.
  assert (G : forall (u v : text),
             forallb is_digit u = true -> 1 <= List.length u ->
             exists c w', u ++ v = c :: w' /\ is_digit c = true).
  { intros u v Hu Hl. destruct u as [|c u]; simpl in Hl; [lia|].
    simpl in Hu. apply andb_true_iff in Hu. destruct Hu as [Hc _].
    exists c, (u ++ v). auto. }
  destruct H as [H | H]; destruct H as (u & v & -> & (Hu & Hl) & _);
    now apply G.
Qed.

(** What a match of [word\s+(clock)] is, for the words "before" and
    "after". *)
Lemma cue_time_match (word : string) (t : text) (m : match_obj) :
  search false (cat [Lit word; Rep is_space 1 None; Grp lower_clock]) t
  = Some m ->
  exists ws c g,
    group1 m = Some (c :: g) /\ is_digit c = true
    /\ ws <> [] /\ forallb is_space ws = true
    /\ piece_of (txt word ++ ws ++ c :: g) t.
Proof.
  intros H. apply search_rel in H. destruct H as (R & P).
  unfold cat in R. cbn [match_rel fold_right] in R.
  destruct R as (u & v & mid & E & Ru & v1 & v2 & mid1 & -> & ((Hs & Hl) & ->)
                 & g & e & mid2 & -> & ((mid3 & Rg) & ->) & -> & ->).
  apply match_rel_Lit in Ru. destruct Ru as [-> ->].
  apply match_rel_lang in Rg. apply lang_clock in Rg.
  destruct Rg as (c & g' & -> & Hc).
  exists v1, c, g'. rewrite E in P. rewrite app_nil_r in P.
  repeat split; trivial. destruct v1; [simpl in Hl; lia | discriminate].
Qed.

Lemma days_of_week_as_filter (t : text) :
  days_of_week (_parse_temporal_constraint t)
  = filter (fun name => contains (lower name) t) week_names.
Proof.
  assert (P : forall d, kw_in d t || contains (txt d ++ txt "s") t
                        = kw_in d t).
  { intros d. unfold kw_in. destruct (contains (txt d) t) eqn:E;
      [reflexivity|]. cbn [orb].
    destruct (contains (txt d ++ txt "s") t) eqn:E'; [|reflexivity].
    apply contains_iff in E'. apply piece_of_prefix in E'.
    apply contains_iff in E'. congruence. }
  unfold _parse_temporal_constraint, days, week_names.
  cbn [days_of_week fold_left map filter]. rewrite !P. unfold kw_in.
  change (lower (txt "Monday")) with (txt "monday").
  change (lower (txt "Tuesday")) with (txt "tuesday").
  change (lower (txt "Wednesday")) with (txt "wednesday").
  change (lower (txt "Thursday")) with (txt "thursday").
  change (lower (txt "Friday")) with (txt "friday").
  change (lower (txt "Saturday")) with (txt "saturday").
  change (lower (txt "Sunday")) with (txt "sunday").
  destruct (contains (txt "monday") t), (contains (txt "tuesday") t),
    (contains (txt "wednesday") t), (contains (txt "thursday") t),
    (contains (txt "friday") t), (contains (txt "saturday") t),
    (contains (txt "sunday") t); reflexivity.
Qed.

(** X5.  The temporal parser lists the days in the order of the week,
    each at most once, whatever their order and number in the text: the
    list is the seven capitalised names filtered by the occurrence of
    the lower-case name.  The test for the plural adds no day. *)
Theorem days_of_week_filter (t : text) :
  days_of_week (_parse_temporal_constraint t)
  = filter (fun name => contains (lower name) t) week_names.
Proof. apply days_of_week_as_filter. Qed.

(** X6.  When the temporal parser records a before_time (after_time), the
    text holds the word "before" ("after"), then white space, then the
    recorded value, which starts with a digit. *)
Theorem before_after_times (t : text) :
  (forall g, before_time (_parse_temporal_constraint t) = Some g ->
             exists ws c g',
               g = c :: g' /\ is_digit c = true
               /\ ws <> [] /\ forallb is_space ws = true
               /\ piece_of (txt "before" ++ ws ++ g) t)
  /\ (forall g, after_time (_parse_temporal_constraint t) = Some g ->
                exists ws c g',
                  g = c :: g' /\ is_digit c = true
                  /\ ws <> [] /\ forallb is_space ws = true
                  /\ piece_of (txt "after" ++ ws ++ g) t).
Proof.
  unfold _parse_temporal_constraint. cbn [before_time after_time].
  split; intros g H.
  - destruct (kw_in "before" t); [|discriminate].
    destruct (search false before_pattern t) as [m|] eqn:E;
      [|discriminate]. simpl in H.
    destruct (@cue_time_match "before" t m E)
      as (ws & c & g' & G & Hc & Hn & Hs & P).
    rewrite G in H. injection H as <-. exists ws, c, g'. auto.
  - destruct (kw_in "after" t); [|discriminate].
    destruct (search false after_pattern t) as [m|] eqn:E;
      [|discriminate]. simpl in H.
    destruct (@cue_time_match "after" t m E)
      as (ws & c & g' & G & Hc & Hn & Hs & P).
    rewrite G in H. injection H as <-. exists ws, c, g'. auto.
Qed.

Lemma before_after_times_witness :
  before_time (_parse_temporal_constraint (txt "play before 6:00 pm"))
  = Some (txt "6:00 pm")
  /\ exists ws c g',
       txt "6:00 pm" = c :: g' /\ is_digit c = true
       /\ ws <> [] /\ forallb is_space ws = true
       /\ piece_of (txt "before" ++ ws ++ txt "6:00 pm")
                   (txt "play before 6:00 pm").
Proof.
  assert (H : before_time
                (_parse_temporal_constraint (txt "play before 6:00 pm"))
              = Some (txt "6:00 pm")) by (vm_compute; reflexivity).
  split; [exact H|].
  exact (proj1 (before_after_times (txt "play before 6:00 pm")) _ H).
Defined.








Lemma score_pos_classified (c : constraint_type) (t : text) :
  In c categories -> 1 <= category_score c t ->
  _classify_constraint_type t <> Unknown.
Proof.
  intros Hc Hs Hu. rewrite classify_unknown_iff in Hu.
  specialize (Hu c Hc). lia.
Qed.



(** ** Entities and classification *)

Lemma week_name_keyword (name : text) (t : text) :
  In name week_names -> contains (lower name) t = true ->
  1 <= category_score Temporal t.
Proof.
  intros Hn Hc. unfold week_names in Hn. simpl in Hn.
  repeat (destruct Hn as [<- | Hn]); try contradiction;
    match goal with
    | H : contains _ _ = true |- _ =>
        first
          [ apply count_keywords_pos with "monday"%string;
            [simpl; tauto | exact H]
          | apply count_keywords_pos with "tuesday"%string;
            [simpl; tauto | exact H]
          | apply count_keywords_pos with "wednesday"%string;
            [simpl; tauto | exact H]
          | apply count_keywords_pos with "thursday"%string;
            [simpl; tauto | exact H]
          | apply count_keywords_pos with "friday"%string;
            [simpl; tauto | exact H]
          | apply count_keywords_pos with "saturday"%string;
            [simpl; tauto | exact H]
          | apply count_keywords_pos with "sunday"%string;
            [simpl; tauto | exact H] ]
    end.
Qed.

(** X9.  A result that holds a day_of_week entity is never of type
    unknown: the matched day name holds "day", so the lower-cased text
    holds the temporal keyword "day" and the temporal score is at least
    1. *)
Theorem day_entity_classified (t : text) (r : ParseResult) (e : entity) :
  _parse_constraint t = Ok r -> In e (r_entities r) ->
  e_type e = DayOfWeek ->
  kw_in "day" (lower t) = true
  /\ 1 <= category_score Temporal (lower t)
  /\ r_type r <> Unknown.
Proof.
  intros H Hin Hty. apply parse_ok_fields in H.
  destruct H as (Ht & He & _ & F).
  destruct (@day_entity_name _ _ _ He Hin Hty) as (name & Hn & Hc & Hv).
  assert (K : kw_in "day" (lower t) = true).
  { unfold kw_in. apply contains_trans with (lower name); [|exact Hc].
    unfold week_names in Hn. simpl in Hn.
    repeat (destruct Hn as [<- | Hn]); try contradiction;
      vm_compute; reflexivity. }
  assert (S : 1 <= category_score Temporal (lower t))
    by now apply week_name_keyword with name.
  split; [exact K|]. split; [exact S|].
  rewrite Ht. apply score_pos_classified with Temporal;
    [simpl; tauto | exact S].
Qed.

Lemma day_entity_classified_witness :
  exists r,
    _parse_constraint scenario1 = Ok r
    /\ In (mk_entity DayOfWeek (EStr (txt "Friday")) 0.95) (r_entities r)
    /\ kw_in "day" (lower scenario1) = true
    /\ 1 <= category_score Temporal (lower scenario1)
    /\ r_type r <> Unknown.
Proof.
  pose (r := ltac:(let v := eval vm_compute in
                         (match _parse_constraint scenario1 with
                          | Ok x => x
                          | Raise _ => initial_result
                          end) in exact v)).
  assert (E : _parse_constraint scenario1 = Ok r) by (vm_compute; reflexivity).
  assert (I : In (mk_entity DayOfWeek (EStr (txt "Friday")) 0.95)
                 (r_entities r)) by (vm_compute; tauto).
  exists r. split; [exact E|]. split; [exact I|].
  exact (@day_entity_classified _ _ _ E I eq_refl).
Defined.

(** ** More on the confidence score *)

Lemma conditions_at_most_one (t : text) (r : ParseResult) :
  _parse_constraint t = Ok r -> List.length (r_conditions r) <= 1.
Proof.
  intros H. apply conditions_of_parse in H. destruct H as [rules ->].
  apply first_rule_length.
Qed.

(** The confidence as a function of the type, the two counts and the
    populated-field test. *)
Lemma confidence_value (t : text) (r : ParseResult) :
  _parse_constraint t = Ok r ->
  r_confidence r
  = py_min (lit 1.0)
           (fadd (fadd (fadd (type_term r)
                             match List.length (r_entities r) with
                             | 0 => lit 0.0
                             | 1 => lit 0.1
                             | 2 => lit 0.2
                             | _ => lit 0.3
                             end)
                       match List.length (r_conditions r) with
                       | 0 => lit 0.0
                       | 1 => lit 0.1
                       | _ => lit 0.2
                       end)
                 (data_term r)).
Proof.
  intros H. apply parse_ok_fields in H. destruct H as (_ & _ & -> & _).
  rewrite calculate_confidence_formula. unfold score_sum.
  now rewrite entity_term_cases, condition_term_cases.
Qed.

Lemma confidence_is_sum (t : text) (r : ParseResult) :
  _parse_constraint t = Ok r ->
  fle (r_confidence r) (lit 0.8999999999999999)
  /\ flt (r_confidence r) (lit 0.9)
  /\ r_confidence r = score_sum r.
Proof.
  intros H. pose proof (@conditions_at_most_one _ _ H) as C.
  rewrite (@confidence_value _ _ H). unfold score_sum.
  rewrite entity_term_cases, condition_term_cases.
  unfold type_term, data_term, fle, flt.
  destruct (List.length (r_conditions r)) as [|[|k]]; [| |lia];
    destruct (r_type r);
    destruct (List.length (r_entities r)) as [|[|[|n]]];
    destruct (existsb is_set (constraint_data r));
    vm_compute; repeat split; reflexivity.
Qed.

(** X10.  The confidence of a result stays below 0.9: a result holds at
    most one condition, so the largest sum is 0.3 + 0.3 + 0.1 + 0.2,
    which is 0.8999999999999999 in binary64.  The bound 1.0 of the final
    [min] is never the smaller argument: the confidence is the sum of
    the four terms. *)
Theorem confidence_at_most_09 (t : text) (r : ParseResult) :
  _parse_constraint t = Ok r ->
  fle (r_confidence r) (lit 0.8999999999999999)
  /\ flt (r_confidence r) (lit 0.9)
  /\ r_confidence r = score_sum r.
Proof. apply confidence_is_sum. Qed.

Lemma confidence_at_most_09_witness :
  exists r, _parse_constraint scenario1 = Ok r
            /\ r_confidence r = lit 0.8999999999999999
            /\ fle (r_confidence r) (lit 0.8999999999999999)
            /\ flt (r_confidence r) (lit 0.9)
            /\ r_confidence r = score_sum r.
Proof.
  pose (r := ltac:(let v := eval vm_compute in
                         (match _parse_constraint scenario1 with
                          | Ok x => x
                          | Raise _ => initial_result
                          end) in exact v)).
  assert (E : _parse_constraint scenario1 = Ok r) by (vm_compute; reflexivity).
  exists r. split; [exact E|]. split; [vm_compute; reflexivity|].
  exact (@confidence_at_most_09 scenario1 r E).
Defined.

Lemma unknown_fields (t : text) (r : ParseResult) :
  _parse_constraint t = Ok r -> r_type r = Unknown ->
  r_conditions r = [] /\ data_term r = lit 0.0.
Proof.
  intros H Hu. apply parse_ok_fields in H. destruct H as (_ & _ & _ & F).
  rewrite Hu in F. destruct F as (Hc & _).
  unfold data_term, constraint_data. rewrite Hu. split; [exact Hc|].
  reflexivity.
Qed.

Lemma known_confidence (t : text) (r : ParseResult) :
  _parse_constraint t = Ok r -> r_type r <> Unknown ->
  fle (lit 0.3) (r_confidence r).
Proof.
  intros H Hk. rewrite (@confidence_value _ _ H).
  unfold type_term, data_term, fle.
  destruct (r_type r); try congruence;
    destruct (List.length (r_entities r)) as [|[|[|n]]];
    destruct (List.length (r_conditions r)) as [|[|k]];
    destruct (existsb is_set (constraint_data r));
    vm_compute; reflexivity.
Qed.

Lemma unknown_confidence (t : text) (r : ParseResult) :
  _parse_constraint t = Ok r -> r_type r = Unknown ->
  r_confidence r = entity_term r
  /\ fle (r_confidence r) (lit 0.3)
  /\ (r_confidence r = lit 0.0 <-> r_entities r = []).
Proof.
  intros H Hu. destruct (@unknown_fields _ _ H Hu) as (Hc & D).
  rewrite (@confidence_value _ _ H), entity_term_cases, D, Hc.
  unfold type_term, fle. rewrite Hu.
  destruct (r_entities r) as [|e1 [|e2 [|e3 es]]]; cbn [List.length];
    (split; [vm_compute; reflexivity|]);
    (split; [vm_compute; reflexivity|]);
    (split; [intros X; try reflexivity; vm_compute in X; discriminate X
            |intros X; try discriminate X; vm_compute; reflexivity]).
Qed.

(** X11.  A result of type unknown has no condition and its confidence
    is the entity term alone, at most 0.3; a result of any other type
    has confidence at least 0.3.  The confidence is 0.0 exactly when the
    type is unknown and no entity was found. *)
Theorem confidence_by_type (t : text) (r : ParseResult) :
  _parse_constraint t = Ok r ->
  (r_type r = Unknown ->
   r_conditions r = [] /\ r_confidence r = entity_term r
   /\ fle (r_confidence r) (lit 0.3))
  /\ (r_type r <> Unknown -> fle (lit 0.3) (r_confidence r))
  /\ (r_confidence r = lit 0.0 <-> r_type r = Unknown /\ r_entities r = []).
Proof.
  intros H. split; [|split].
  - intros Hu. destruct (@unknown_fields _ _ H Hu) as (Hc & _).
    destruct (@unknown_confidence _ _ H Hu) as (E & B & _).
    split; [exact Hc|]. split; [exact E | exact B].
  - apply (@known_confidence _ _ H).
  - split.
    + intros Z. assert (Hu : r_type r = Unknown).
      { destruct (r_type r) eqn:Ety; try reflexivity; exfalso;
          (assert (Hk : r_type r <> Unknown) by (rewrite Ety; discriminate));
          pose proof (@known_confidence _ _ H Hk) as K;
          rewrite Z in K; vm_compute in K; discriminate K. }
      split; [exact Hu|].
      now apply (@unknown_confidence _ _ H Hu).
    + intros [Hu He]. now apply (@unknown_confidence _ _ H Hu).
Qed.

Lemma confidence_by_type_witness :
  (exists r, _parse_constraint (txt "Bears 12") = Ok r
             /\ r_type r = Unknown /\ fle (r_confidence r) (lit 0.3)
             /\ r_confidence r = lit 0.2
             /\ r_confidence r <> lit 0.0)
  /\ (exists r, _parse_constraint scenario3 = Ok r
                /\ r_type r <> Unknown /\ fle (lit 0.3) (r_confidence r)).
Proof.
  split.
  - pose (r := ltac:(let v := eval vm_compute in
                         (match _parse_constraint (txt "Bears 12") with
                          | Ok x => x
                          | Raise _ => initial_result
                          end) in exact v)).
    assert (E : _parse_constraint (txt "Bears 12") = Ok r)
      by (vm_compute; reflexivity).
    assert (Hu : r_type r = Unknown) by reflexivity.
    destruct (@confidence_by_type _ _ E) as (A & _ & C).
    exists r. split; [exact E|]. split; [exact Hu|].
    split; [apply (A Hu)|]. split; [vm_compute; reflexivity|].
    intros Z. apply C in Z. destruct Z as [_ Z]. discriminate Z.
  - pose (r := ltac:(let v := eval vm_compute in
                         (match _parse_constraint scenario3 with
                          | Ok x => x
                          | Raise _ => initial_result
                          end) in exact v)).
    assert (E : _parse_constraint scenario3 = Ok r)
      by (vm_compute; reflexivity).
    assert (Hk : r_type r <> Unknown) by (vm_compute; discriminate).
    destruct (@confidence_by_type _ _ E) as (_ & B & _).
    exists r. split; [exact E|]. split; [exact Hk|]. exact (B Hk).
Defined.

Lemma parse_capacity_resource (t : text) (d : capacity_fields) :
  _parse_capacity_constraint t = Ok d -> resource d = None.
Proof.
  unfold _parse_capacity_constraint.
  destruct (int_field (first_search max_patterns t)); cbn [bind];
    [|discriminate].
  destruct (int_field (first_search min_patterns t)); cbn [bind];
    [|discriminate].
  intros H. injection H as <-. reflexivity.
Qed.

Lemma data_term_iff (r : ParseResult) :
  data_term r = lit 0.2 <-> existsb is_set (constraint_data r) = true.
Proof.
  unfold data_term. destruct (existsb is_set (constraint_data r)).
  - split; reflexivity.
  - split; [|discriminate]. intros H. vm_compute in H. discriminate H.
Qed.

(** X12.  The populated-field term of the confidence depends on the
    type: a location result never gets it, so its confidence is at most
    0.7 (0.3 + 0.3 + 0.1 is 0.7 in binary64); a temporal result gets it
    exactly when a day was found or a before_time or after_time was
    recorded; a capacity result exactly when max_count, min_count or
    per_period was set. *)
Theorem populated_term_by_type (t : text) (r : ParseResult) :
  _parse_constraint t = Ok r ->
  (r_type r = Location ->
   data_term r = lit 0.0 /\ fle (r_confidence r) (lit 0.7))
  /\ (r_type r = Temporal ->
      exists d, r_temporal r = Some d
                /\ (data_term r = lit 0.2
                    <-> days_of_week d <> [] \/ before_time d <> None
                        \/ after_time d <> None))
  /\ (r_type r = Capacity ->
      exists d, r_capacity r = Some d
                /\ (data_term r = lit 0.2
                    <-> max_count d <> None \/ min_count d <> None
                        \/ per_period d <> None)).
Proof.
  intros H. pose proof (@parse_ok_fields _ _ H) as (_ & _ & _ & F).
  split; [|split]; intros Hty; rewrite Hty in F.
  - destruct F as (Hl & _).
    assert (D : data_term r = lit 0.0).
    { unfold data_term, constraint_data. rewrite Hty, Hl. reflexivity. }
    split; [exact D|].
    pose proof (@conditions_at_most_one _ _ H) as C.
    rewrite (@confidence_value _ _ H), D. unfold type_term, fle.
    rewrite Hty.
    destruct (List.length (r_conditions r)) as [|[|k]]; [| |lia];
      destruct (List.length (r_entities r)) as [|[|[|n]]];
      vm_compute; reflexivity.
  - destruct F as (Hd & _). exists (_parse_temporal_constraint (lower t)).
    split; [exact Hd|].
    rewrite data_term_iff. unfold constraint_data. rewrite Hty, Hd.
    set (d := _parse_temporal_constraint (lower t)).
    assert (E1 : excluded_dates d = []) by reflexivity.
    assert (E2 : time_ranges d = []) by reflexivity.
    clearbody d. cbn [slot_values]. unfold temporal_values.
    rewrite E1, E2.
    destruct (days_of_week d); destruct (before_time d);
      destruct (after_time d);
      simpl; split; intros X;
        try reflexivity; try discriminate X;
        try (left; discriminate); try (right; left; discriminate);
        try (right; right; discriminate);
        destruct X as [X | [X | X]]; congruence.
  - destruct F as ((d & Hp & Hd) & _). exists d. split; [exact Hd|].
    rewrite data_term_iff. unfold constraint_data. rewrite Hty, Hd.
    cbn [slot_values]. unfold capacity_values.
    rewrite (@parse_capacity_resource _ _ Hp).
    destruct (max_count d); destruct (min_count d); destruct (per_period d);
      simpl; split; intros X;
        try reflexivity; try discriminate X;
        try (left; discriminate); try (right; left; discriminate);
        try (right; right; discriminate);
        destruct X as [X | [X | X]]; congruence.
Qed.

Lemma populated_term_by_type_witness :
  exists r d,
    _parse_constraint scenario3 = Ok r
    /\ r_type r = Temporal
    /\ r_temporal r = Some d
    /\ data_term r <> lit 0.2.
Proof.
  pose (r := ltac:(let v := eval vm_compute in
                         (match _parse_constraint scenario3 with
                          | Ok x => x
                          | Raise _ => initial_result
                          end) in exact v)).
  assert (E : _parse_constraint scenario3 = Ok r) by (vm_compute; reflexivity).
  assert (T : r_type r = Temporal) by reflexivity.
  destruct (proj1 (proj2 (@populated_term_by_type _ _ E)) T) as (d & Hd & I).
  exists r, d. split; [exact E|]. split; [exact T|]. split; [exact Hd|].
  intros X. apply I in X.
  assert (D : Some d = Some (_parse_temporal_constraint (lower scenario3)))
    by (rewrite <- Hd; reflexivity).
  injection D as ->.
  destruct X as [X | [X | X]]; apply X; vm_compute; reflexivity.
Defined.

(** ** Conditions of a result *)

(** X13.  The conditions of a result come from the extractor of its
    type: each is one of the fixed pairs of operator and placeholder of
    that type, so the value of a condition is never a word of the text
    and a result of type unknown has no condition. *)
Theorem condition_placeholders (t : text) (r : ParseResult) (c : condition) :
  _parse_constraint t = Ok r -> In c (r_conditions r) ->
  match r_type r with
  | Temporal =>
      c_value c = "specified_time"%string
      /\ In (c_operator c) [not_equals; equals; less_than; greater_than]
  | Capacity =>
      (c_operator c = less_than_or_equal /\ c_value c = "max_count"%string)
      \/ (c_operator c = greater_than_or_equal
          /\ c_value c = "min_count"%string)
  | Location =>
      (c_operator c = equals /\ c_value c = "home_venue"%string)
      \/ (c_operator c = not_equals
          /\ c_value c = "specified_venue"%string)
  | Rest =>
      c_operator c = greater_than_or_equal
      /\ c_value c = "min_rest_period"%string
  | Preference =>
      c_operator c = prefer /\ c_value c = "specified_option"%string
  | Unknown => False
  end.
Proof.
  intros H Hin. apply parse_ok_fields in H. destruct H as (_ & _ & _ & F).
  destruct (extractors_first_rule (lower t)) as (E1 & E2 & E3 & E4 & E5).
  destruct (r_type r).
  - destruct F as (_ & Hc & _). rewrite Hc, E1 in Hin. simpl in Hin.
    repeat match type of Hin with
           | In _ (if ?b then _ else _) => destruct b; simpl in Hin
           end;
      try contradiction;
      (destruct Hin as [<- | Hin]; [simpl; tauto | contradiction]).
  - destruct F as (_ & Hc & _). rewrite Hc, E2 in Hin. simpl in Hin.
    repeat match type of Hin with
           | In _ (if ?b then _ else _) => destruct b; simpl in Hin
           end;
      try contradiction;
      (destruct Hin as [<- | Hin]; [simpl; tauto | contradiction]).
  - destruct F as (_ & Hc & _). rewrite Hc, E3 in Hin. simpl in Hin.
    repeat match type of Hin with
           | In _ (if ?b then _ else _) => destruct b; simpl in Hin
           end;
      try contradiction;
      (destruct Hin as [<- | Hin]; [simpl; tauto | contradiction]).
  - destruct F as (_ & Hc & _). rewrite Hc, E4 in Hin. simpl in Hin.
    repeat match type of Hin with
           | In _ (if ?b then _ else _) => destruct b; simpl in Hin
           end;
      try contradiction;
      (destruct Hin as [<- | Hin]; [simpl; tauto | contradiction]).
  - destruct F as (_ & Hc & _). rewrite Hc, E5 in Hin. simpl in Hin.
    repeat match type of Hin with
           | In _ (if ?b then _ else _) => destruct b; simpl in Hin
           end;
      try contradiction;
      (destruct Hin as [<- | Hin]; [simpl; tauto | contradiction]).
  - destruct F as (Hc & _). rewrite Hc in Hin. contradiction.
Qed.

Lemma condition_placeholders_witness :
  exists r,
    _parse_constraint scenario1 = Ok r
    /\ In (mk_condition not_equals "specified_time") (r_conditions r)
    /\ r_type r = Temporal
    /\ c_value (mk_condition not_equals "specified_time")
       = "specified_time"%string.
Proof.
  pose (r := ltac:(let v := eval vm_compute in
                         (match _parse_constraint scenario1 with
                          | Ok x => x
                          | Raise _ => initial_result
                          end) in exact v)).
  assert (E : _parse_constraint scenario1 = Ok r) by (vm_compute; reflexivity).
  assert (I : In (mk_condition not_equals "specified_time") (r_conditions r))
    by (left; reflexivity).
  pose proof (@condition_placeholders _ _ _ E I) as P.
  exists r. split; [exact E|]. split; [exact I|]. split; [reflexivity|].
  exact (proj1 P).
Defined.

(** ** The request handler *)

Lemma lstrip_split (t : text) :
  exists a, t = a ++ lstrip t /\ forallb is_space a = true.
Proof.
  induction t as [|c t (a & E & Ha)]; simpl.
  - now exists [].
  - destruct (is_space c) eqn:Hc.
    + exists (c :: a). simpl. rewrite Hc, Ha. split; [now f_equal | reflexivity].
    + now exists [].
Qed.

Lemma lstrip_head (t : text) (c : ascii) (t' : text) :
  lstrip t = c :: t' -> is_space c = false.
Proof.
  induction t as [|x t IH]; simpl; [discriminate|].
  destruct (is_space x) eqn:Hx; [exact IH|].
  intros H. injection H as <- _. exact Hx.
Qed.

Lemma lstrip_white (a : text) : forallb is_space a = true -> lstrip a = [].
Proof.
  induction a as [|c a IH]; simpl; [reflexivity|].
  intros H. apply andb_true_iff in H. destruct H as [Hc Ha].
  rewrite Hc. now apply IH.
Qed.

Lemma lstrip_app_white (a t : text) :
  forallb is_space a = true -> lstrip (a ++ t) = lstrip t.
Proof.
  induction a as [|c a IH]; simpl; [reflexivity|].
  intros H. apply andb_true_iff in H. destruct H as [Hc Ha].
  rewrite Hc. now apply IH.
Qed.

Lemma lstrip_app_keep (t b : text) :
  lstrip t <> [] -> lstrip (t ++ b) = lstrip t ++ b.
Proof.
  induction t as [|c t IH]; simpl; [congruence|].
  destruct (is_space c); [exact IH | reflexivity].
Qed.

Lemma forallb_rev (f : ascii -> bool) (l : text) :
  forallb f (rev l) = forallb f l.
Proof.
  induction l as [|c l IH]; simpl; [reflexivity|].
  rewrite forallb_app, IH. simpl. rewrite andb_true_r. apply andb_comm.
Qed.

Lemma rstrip_split (t : text) :
  exists b, t = rstrip t ++ b /\ forallb is_space b = true.
Proof.
  unfold rstrip. destruct (lstrip_split (rev t)) as (a & E & Ha).
  exists (rev a). split.
  - rewrite <- rev_app_distr, <- E. now rewrite rev_involutive.
  - now rewrite forallb_rev.
Qed.

Lemma rstrip_last (t t' : text) (c : ascii) :
  rstrip t = t' ++ [c] -> is_space c = false.
Proof.
  unfold rstrip. intros H. apply (f_equal (@rev ascii)) in H.
  rewrite rev_involutive, rev_app_distr in H. simpl in H.
  now apply lstrip_head in H.
Qed.

Lemma rstrip_app_white (t b : text) :
  forallb is_space b = true -> rstrip (t ++ b) = rstrip t.
Proof.
  intros H. unfold rstrip. rewrite rev_app_distr, lstrip_app_white;
    [reflexivity|]. now rewrite forallb_rev.
Qed.

Lemma rstrip_nil : rstrip [] = [].
Proof. reflexivity. Qed.

Lemma strip_trimmed (t : text) : trimmed (strip t).
Proof.
  unfold trimmed, strip. split.
  - intros c t' H. destruct (lstrip t) as [|x u] eqn:L.
    + rewrite rstrip_nil in H. discriminate.
    + destruct (rstrip_split (x :: u)) as (b & E & _). rewrite H in E.
      simpl in E. injection E as -> _. now apply lstrip_head in L.
  - intros c t' H. now apply rstrip_last in H.
Qed.

Lemma strip_piece (t : text) :
  exists a b, t = a ++ strip t ++ b
              /\ forallb is_space a = true /\ forallb is_space b = true.
Proof.
  destruct (lstrip_split t) as (a & E & Ha).
  destruct (rstrip_split (lstrip t)) as (b & E' & Hb).
  exists a, b. unfold strip. rewrite <- E'. auto.
Qed.

Lemma strip_empty_iff (t : text) :
  strip t = [] <-> forallb is_space t = true.
Proof.
  split.
  - intros H. destruct (strip_piece t) as (a & b & E & Ha & Hb).
    rewrite H in E. rewrite E. simpl. rewrite forallb_app. now rewrite Ha, Hb.
  - intros H. unfold strip. now rewrite lstrip_white.
Qed.

Lemma strip_padding (a t b : text) :
  forallb is_space a = true -> forallb is_space b = true ->
  strip (a ++ t ++ b) = strip t.
Proof.
  intros Ha Hb. unfold strip. rewrite lstrip_app_white by exact Ha.
  destruct (lstrip t) as [|c u] eqn:L.
  - assert (W : forallb is_space t = true).
    { destruct (lstrip_split t) as (x & E & Hx). rewrite L, app_nil_r in E.
      now subst x. }
    rewrite lstrip_white; [reflexivity|]. rewrite forallb_app.
    now rewrite W, Hb.
  - rewrite lstrip_app_keep by (rewrite L; discriminate).
    rewrite L. now apply rstrip_app_white.
Qed.

Lemma longest_digit_run_piece (t : text) :
  exists w, forallb is_digit w = true /\ piece_of w t
            /\ List.length w = longest_digit_run t.
Proof.
  assert (P : forall u, exists w v, u = w ++ v /\ forallb is_digit w = true
                                    /\ List.length w = digit_prefix u).
  { induction u as [|c u (w & v & E & Hw & Hl)]; simpl.
    - exists [], []. auto.
    - destruct (is_digit c) eqn:Hc.
      + exists (c :: w), v. simpl. rewrite Hc, Hw, Hl, <- E. auto.
      + exists [], (c :: u). auto. }
  induction t as [|c t (w & Hw & Pw & Hl)].
  - exists []. repeat split. exists [], []. reflexivity.
  - change (longest_digit_run (c :: t))
      with (Nat.max (digit_prefix (c :: t)) (longest_digit_run t)).
    destruct (Nat.max_spec (digit_prefix (c :: t)) (longest_digit_run t))
      as [[_ ->] | [_ ->]].
    + exists w. repeat split; trivial. now apply piece_of_cons.
    + destruct (P (c :: t)) as (w' & v & E & Hw' & Hl').
      exists w'. repeat split; trivial. exists [], v. exact E.
Qed.

Lemma longest_digit_run_mono (g t : text) :
  piece_of g t -> longest_digit_run g <= longest_digit_run t.
Proof.
  intros P. destruct (longest_digit_run_piece g) as (w & Hw & Pw & <-).
  destruct w as [|c w]; [simpl; lia|].
  apply digit_word_le_longest.
  - split; [exact Hw | simpl; lia].
  - now apply piece_of_trans with g.
Qed.

Lemma is_empty_iff (t : text) : is_empty t = true <-> t = [].
Proof. destruct t; simpl; split; congruence. Qed.

(** The outcomes of [do_POST], one by one. *)
Lemma do_POST_outcome (req : request) :
  (req = Unreadable
   /\ do_POST req = internal_error_response RequestError)
  \/ (req = InvalidJson /\ do_POST req = invalid_json_response)
  \/ (exists data, req = Json data /\ (forall items, data <> PDict items)
                   /\ do_POST req = internal_error_response AttributeError)
  \/ (exists items v,
         req = Json (PDict items)
         /\ dict_lookup (txt "text") items = Some v
         /\ (forall s, v <> PStr s)
         /\ do_POST req = internal_error_response AttributeError)
  \/ (exists items s,
         req = Json (PDict items) /\ text_of items s /\ strip s = []
         /\ do_POST req = no_text_response)
  \/ (exists items s r,
         req = Json (PDict items)
         /\ dict_lookup (txt "text") items = Some (PStr s)
         /\ strip s <> [] /\ _parse_constraint (strip s) = Ok r
         /\ do_POST req = _send_response 200 r)
  \/ (exists items s e,
         req = Json (PDict items)
         /\ dict_lookup (txt "text") items = Some (PStr s)
         /\ strip s <> [] /\ _parse_constraint (strip s) = Raise e
         /\ do_POST req = internal_error_response (CoreError e)).
Proof.
  destruct req as [| |data].
  - left. split; reflexivity.
  - right; left. split; reflexivity.
  - destruct data as [ | b | z | q | s | l | items];
      try (do 2 right; left; eexists; split; [reflexivity|];
           split; [intros items; discriminate | reflexivity]).
    unfold do_POST, do_POST_try. cbn [load and_then get_text].
    destruct (dict_lookup (txt "text") items) as [v|] eqn:L.
    + destruct v as [ | b | z | q | s | l | d];
        try (do 3 right; left; eexists; eexists; split; [reflexivity|];
             split; [exact L|];
             split; [intros s'; discriminate | reflexivity]).
      cbn [strip_value and_then].
      destruct (is_empty (strip s)) eqn:E.
      * apply is_empty_iff in E. do 4 right; left. exists items, s.
        split; [reflexivity|]. split; [left; exact L|]. split; [exact E|].
        reflexivity.
      * assert (N : strip s <> []).
        { intros X. apply is_empty_iff in X. congruence. }
        unfold call_core.
        destruct (_parse_constraint (strip s)) as [r|e] eqn:P;
          cbn [and_then].
        -- do 5 right; left. exists items, s, r. auto.
        -- do 6 right. exists items, s, e. auto.
    + do 4 right; left. exists items, []. split; [reflexivity|].
      split; [right; auto|]. split; reflexivity.
Qed.

(** X14.  Every response to a POST is one status line with status 200,
    400 or 500, then the three CORS headers, the JSON content type, the
    end of the headers and one JSON body; the body is a result exactly
    when the status is 200.  The response to OPTIONS is the three CORS
    headers and the end of the headers only: no status line is sent and
    no body. *)
Theorem response_shape :
  (forall req,
      exists code body,
        do_POST req
        = [SendResponse code]
            ++ _send_cors_headers
            ++ [SendHeader "Content-type" "application/json"; EndHeaders;
                WriteJson body]
        /\ In code [200; 400; 500]
        /\ (code = 200 <-> exists r, body = ResultBody r))
  /\ status_of do_OPTIONS = None
  /\ headers_of do_OPTIONS = cors_headers
  /\ bodies_of do_OPTIONS = [].
Proof.
  split; [|repeat split].
  intros req.
  destruct (do_POST_outcome req)
    as [(_ & ->) | [(_ & ->) | [(d & _ & _ & ->) | [(i & v & _ & _ & _ & ->)
       | [(i & s & _ & _ & _ & ->) | [(i & s & r & _ & _ & _ & _ & ->)
       | (i & s & e & _ & _ & _ & _ & ->)]]]]]];
    eexists; eexists; (split; [reflexivity|]); (split; [simpl; tauto|]);
    split; intros X; try discriminate X; eauto;
    destruct X as [r' X]; discriminate X.
Qed.

Lemma do_POST_text (items : list (text * pyobj)) (s : text) :
  dict_lookup (txt "text") items = Some (PStr s) ->
  do_POST (Json (PDict items))
  = if is_empty (strip s) then no_text_response
    else match _parse_constraint (strip s) with
         | Ok r => _send_response 200 r
         | Raise e => internal_error_response (CoreError e)
         end.
Proof.
  intros L. unfold do_POST, do_POST_try.
  cbn [load and_then get_text]. rewrite L. cbn [strip_value and_then].
  destruct (is_empty (strip s)); [reflexivity|]. unfold call_core.
  destruct (_parse_constraint (strip s)); reflexivity.
Qed.

Lemma do_POST_missing (items : list (text * pyobj)) :
  dict_lookup (txt "text") items = None ->
  do_POST (Json (PDict items)) = no_text_response.
Proof.
  intros L. unfold do_POST, do_POST_try.
  cbn [load and_then get_text]. rewrite L. reflexivity.
Qed.

Lemma do_POST_not_string (items : list (text * pyobj)) (v : pyobj) :
  dict_lookup (txt "text") items = Some v -> (forall s, v <> PStr s) ->
  do_POST (Json (PDict items)) = internal_error_response AttributeError.
Proof.
  intros L N. unfold do_POST, do_POST_try.
  cbn [load and_then get_text]. rewrite L.
  destruct v; try reflexivity. now destruct (N s).
Qed.

Lemma do_POST_not_dict (data : pyobj) :
  (forall items, data <> PDict items) ->
  do_POST (Json data) = internal_error_response AttributeError.
Proof.
  intros N. destruct data; try reflexivity. now destruct (N items).
Qed.

(** X15.  The status is 200 exactly when the request is a JSON object
    whose "text" is a string that is not blank and on whose stripped
    form the core returns; the body is then the result of the core on
    the stripped text. *)
Theorem post_ok_iff (req : request) :
  (status_of (do_POST req) = Some 200
   <-> exists items s r,
         req = Json (PDict items)
         /\ dict_lookup (txt "text") items = Some (PStr s)
         /\ strip s <> []
         /\ _parse_constraint (strip s) = Ok r)
  /\ (forall items s r,
         req = Json (PDict items) ->
         dict_lookup (txt "text") items = Some (PStr s) ->
         strip s <> [] ->
         _parse_constraint (strip s) = Ok r ->
         do_POST req = _send_response 200 r).
Proof.
  assert (F : forall items s r,
             req = Json (PDict items) ->
             dict_lookup (txt "text") items = Some (PStr s) ->
             strip s <> [] ->
             _parse_constraint (strip s) = Ok r ->
             do_POST req = _send_response 200 r).
  { intros items s r -> L N P. rewrite (do_POST_text _ L), P.
    destruct (is_empty (strip s)) eqn:E; [|reflexivity].
    apply is_empty_iff in E. congruence. }
  split; [|exact F]. split.
  - intros H.
    destruct (do_POST_outcome req)
      as [(_ & E) | [(_ & E) | [(d & _ & _ & E) | [(i & v & _ & _ & _ & E)
         | [(i & s & _ & _ & _ & E) | [(i & s & r & Hr & L & N & P & E)
         | (i & s & e & _ & _ & _ & _ & E)]]]]]];
      rewrite E in H; try discriminate H.
    exists i, s, r. auto.
  - intros (items & s & r & Hr & L & N & P).
    now rewrite (F items s r Hr L N P).
Qed.

Lemma post_ok_iff_witness :
  exists r,
    dict_lookup (txt "text") [(txt "text", PStr (txt "  rest  "))]
    = Some (PStr (txt "  rest  "))
    /\ strip (txt "  rest  ") <> []
    /\ _parse_constraint (strip (txt "  rest  ")) = Ok r
    /\ do_POST (text_request (txt "  rest  ")) = _send_response 200 r.
Proof.
  pose (r := ltac:(let v := eval vm_compute in
                         (match _parse_constraint (strip (txt " rest ")) with
                          | Ok x => x
                          | Raise _ => initial_result
                          end) in exact v)).
  assert (L : dict_lookup (txt "text") [(txt "text", PStr (txt "  rest  "))]
              = Some (PStr (txt "  rest  "))) by reflexivity.
  assert (N : strip (txt "  rest  ") <> []) by (vm_compute; discriminate).
  assert (P : _parse_constraint (strip (txt "  rest  ")) = Ok r)
    by (vm_compute; reflexivity).
  exists r. split; [exact L|]. split; [exact N|]. split; [exact P|].
  exact (proj2 (post_ok_iff (text_request (txt "  rest  ")))
               _ _ _ eq_refl L N P).
Defined.

(** X16.  The status is 400 exactly when the body is not JSON, or is a
    JSON object whose "text" is missing or is a string of white space
    only (the empty string included); the message is "Invalid JSON" in
    the first case and "No constraint text provided" in the others, and
    the core is not called. *)
Theorem post_rejected_iff (req : request) :
  (status_of (do_POST req) = Some 400
   <-> req = InvalidJson
       \/ exists items s,
            req = Json (PDict items) /\ text_of items s
            /\ forallb is_space s = true)
  /\ (req = InvalidJson -> do_POST req = invalid_json_response)
  /\ (forall items s,
         req = Json (PDict items) -> text_of items s ->
         forallb is_space s = true ->
         do_POST req = no_text_response).
Proof.
  assert (F : forall items s,
             req = Json (PDict items) -> text_of items s ->
             forallb is_space s = true ->
             do_POST req = no_text_response).
  { intros items s -> [L | [L ->]] W.
    - rewrite (do_POST_text _ L). apply strip_empty_iff in W.
      now rewrite W.
    - now apply do_POST_missing. }
  split; [|split; [intros ->; reflexivity | exact F]]. split.
  - intros H.
    destruct (do_POST_outcome req)
      as [(_ & E) | [(Hr & E) | [(d & _ & _ & E) | [(i & v & _ & _ & _ & E)
         | [(i & s & Hr & T & S & E) | [(i & s & r & _ & _ & _ & _ & E)
         | (i & s & e & _ & _ & _ & _ & E)]]]]]];
      rewrite E in H; try discriminate H.
    + now left.
    + right. exists i, s. repeat split; trivial. now apply strip_empty_iff.
  - intros [-> | (items & s & Hr & T & W)]; [reflexivity|].
    now rewrite (F items s Hr T W).
Qed.

Lemma post_rejected_iff_witness :
  text_of [(txt "text", PStr (txt "   "))] (txt "   ")
  /\ forallb is_space (txt "   ") = true
  /\ do_POST (text_request (txt "   ")) = no_text_response
  /\ text_of [] []
  /\ do_POST (Json (PDict [])) = no_text_response.
Proof.
  assert (T : text_of [(txt "text", PStr (txt "   "))] (txt "   "))
    by (left; reflexivity).
  assert (W : forallb is_space (txt "   ") = true) by reflexivity.
  assert (T' : text_of [] []) by (right; split; reflexivity).
  split; [exact T|]. split; [exact W|]. split; [|split; [exact T'|]].
  - exact (proj2 (proj2 (post_rejected_iff (text_request (txt "   "))))
                 _ _ eq_refl T W).
  - exact (proj2 (proj2 (post_rejected_iff (Json (PDict []))))
                 _ _ eq_refl T' eq_refl).
Defined.

(** X17.  The status is 500 exactly when the request could not be read
    or decoded, or its JSON value is not an object, or its "text" is
    not a string (null, a number, a list: [.strip] is missing), or the
    core raises on the stripped text.  In the last case the exception is
    the ValueError of the integer conversion and the text holds a run of
    more than 4300 digits. *)
Theorem post_internal_error_iff (req : request) :
  (status_of (do_POST req) = Some 500
   <-> req = Unreadable
       \/ (exists data, req = Json data /\ forall items, data <> PDict items)
       \/ (exists items v,
              req = Json (PDict items)
              /\ dict_lookup (txt "text") items = Some v
              /\ forall s, v <> PStr s)
       \/ (exists items s e,
              req = Json (PDict items)
              /\ dict_lookup (txt "text") items = Some (PStr s)
              /\ _parse_constraint (strip s) = Raise e))
  /\ (forall items s e,
         req = Json (PDict items) ->
         dict_lookup (txt "text") items = Some (PStr s) ->
         _parse_constraint (strip s) = Raise e ->
         e = ValueError
         /\ int_max_str_digits < longest_digit_run s
         /\ do_POST req = internal_error_response (CoreError ValueError)).
Proof.
  assert (F : forall items s e,
             req = Json (PDict items) ->
             dict_lookup (txt "text") items = Some (PStr s) ->
             _parse_constraint (strip s) = Raise e ->
             e = ValueError
             /\ int_max_str_digits < longest_digit_run s
             /\ do_POST req = internal_error_response (CoreError ValueError)).
  { intros items s e -> L P.
    assert (V : e = ValueError) by now apply parse_raises with (strip s).
    subst e. split; [reflexivity|]. split.
    - destruct (Nat.le_gt_cases (longest_digit_run (strip s))
                                int_max_str_digits) as [Hle | Hgt].
      + destruct (@parse_returns _ Hle) as [r Hr]. congruence.
      + assert (M : longest_digit_run (strip s) <= longest_digit_run s).
        { apply longest_digit_run_mono.
          destruct (strip_piece s) as (a & b & E & _). now exists a, b. }
        lia.
    - rewrite (do_POST_text _ L), P.
      destruct (is_empty (strip s)) eqn:E; [|reflexivity].
      apply is_empty_iff in E. rewrite E in P. vm_compute in P.
      discriminate P. }
  split; [|exact F]. split.
  - intros H.
    destruct (do_POST_outcome req)
      as [(Hr & E) | [(_ & E) | [(d & Hr & N & E) | [(i & v & Hr & L & N & E)
         | [(i & s & _ & _ & _ & E) | [(i & s & r & _ & _ & _ & _ & E)
         | (i & s & e & Hr & L & N & P & E)]]]]]];
      rewrite E in H; try discriminate H.
    + now left.
    + right; left. now exists d.
    + do 2 right; left. now exists i, v.
    + do 3 right. now exists i, s, e.
  - intros [-> | [(d & -> & N) | [(i & v & -> & L & N)
                                 | (i & s & e & Hr & L & P)]]].
    + reflexivity.
    + now rewrite do_POST_not_dict.
    + now rewrite (do_POST_not_string _ L N).
    + destruct (F i s e Hr L P) as (_ & _ & ->). reflexivity.
Qed.

Lemma post_internal_error_iff_witness :
  dict_lookup (txt "text") [(txt "text", PStr (digits 4301))]
  = Some (PStr (digits 4301))
  /\ _parse_constraint (strip (digits 4301)) = Raise ValueError
  /\ int_max_str_digits < longest_digit_run (digits 4301)
  /\ status_of (do_POST (Json (PDict [(txt "text", PNone)]))) = Some 500.
Proof.
  assert (L : dict_lookup (txt "text") [(txt "text", PStr (digits 4301))]
              = Some (PStr (digits 4301))) by reflexivity.
  assert (P : _parse_constraint (strip (digits 4301)) = Raise ValueError)
    by (vm_compute; reflexivity).
  split; [exact L|]. split; [exact P|]. split.
  - exact (proj1 (proj2 (proj2 (post_internal_error_iff
                                  (text_request (digits 4301)))
                               [(txt "text", PStr (digits 4301))]
                               (digits 4301) ValueError eq_refl L P))).
  - apply (proj1 (post_internal_error_iff
                    (Json (PDict [(txt "text", PNone)])))).
    do 2 right; left. exists [(txt "text", PNone)], PNone.
    split; [reflexivity|]. split; [reflexivity|]. intros s; discriminate.
Defined.

Lemma text_request_lookup (s : text) :
  dict_lookup (txt "text") [(txt "text", PStr s)] = Some (PStr s).
Proof. reflexivity. Qed.



(** X19.  White space around the text does not change the response:
    the core is given the text without the white space at its two ends,
    and nothing else is removed. *)
Theorem padding_ignored (a s b : text) :
  forallb is_space a = true -> forallb is_space b = true ->
  do_POST (text_request (a ++ s ++ b)) = do_POST (text_request s)
  /\ trimmed (strip (a ++ s ++ b))
  /\ exists a' b', s = a' ++ strip (a ++ s ++ b) ++ b'
                   /\ forallb is_space a' = true
                   /\ forallb is_space b' = true.
Proof.
  intros Ha Hb. split; [|split].
  - unfold text_request.
    rewrite (do_POST_text _ (text_request_lookup (a ++ s ++ b))).
    rewrite (do_POST_text _ (text_request_lookup s)).
    now rewrite strip_padding.
  - apply strip_trimmed.
  - rewrite strip_padding by assumption. apply strip_piece.
Qed.

Lemma padding_ignored_witness :
  forallb is_space (txt "  ") = true
  /\ forallb is_space [ascii_of_nat 10] = true
  /\ do_POST (text_request (txt "  " ++ scenario3 ++ [ascii_of_nat 10]))
     = do_POST (text_request scenario3).
Proof.
  assert (Ha : forallb is_space (txt "  ") = true) by reflexivity.
  assert (Hb : forallb is_space [ascii_of_nat 10] = true) by reflexivity.
  split; [exact Ha|]. split; [exact Hb|].
  exact (proj1 (@padding_ignored (txt "  ") scenario3 [ascii_of_nat 10]
                                 Ha Hb)).
Defined.

(** ** The matcher and the meaning of patterns *)

Lemma after_app (prev : option ascii) (u v : text) :
  after prev (u ++ v) = after (after prev u) v.
Proof. apply fold_left_app. Qed.

Lemma rep_sound_bounds (p : ascii -> bool) (k : cont) (cap : option text)
      (m : match_obj) :
  forall (s : text) (lo : nat) (hi : option nat) (prev : option ascii),
    rep p lo hi prev s cap k = Some m ->
    exists w s',
      s = w ++ s' /\ forallb p w = true /\ lo <= List.length w
      /\ within hi (List.length w) /\ k (after prev w) s' cap = Some m.
Proof.
  induction s as [|c s IH]; intros lo hi prev H; simpl in H.
  - destruct lo; [|discriminate]. exists [], []. simpl.
    repeat split; trivial. destruct hi; simpl; lia.
  - assert (Hstop :
             match lo with 0 => k prev (c :: s) cap | S _ => None end
             = Some m ->
             exists w s',
               c :: s = w ++ s' /\ forallb p w = true
               /\ lo <= List.length w /\ within hi (List.length w)
               /\ k (after prev w) s' cap = Some m).
    { destruct lo; [|discriminate]. intros Hk.
      exists [], (c :: s). simpl. repeat split; trivial.
      destruct hi; simpl; lia. }
    destruct (p c && has_room hi) eqn:Hpc; [|auto].
    destruct (rep p (pred lo) (one_less hi) (Some c) s cap k) eqn:Hrec;
      [|auto].
    injection H as ->. apply IH in Hrec.
    destruct Hrec as (w & s' & -> & Hw & Hlo & Hhi & Hk).
    exists (c :: w), s'. simpl.
    apply andb_true_iff in Hpc. destruct Hpc as [Hp Hr].
    rewrite Hp, Hw. repeat split; trivial; [lia|].
    destruct hi as [h|]; simpl in *; [|exact I].
    apply Nat.ltb_lt in Hr. lia.
Qed.

Lemma rep_complete (p : ascii -> bool) (k : cont) (rest : text) :
  forall (w : text) (lo : nat) (hi : option nat) (prev : option ascii)
         (cap : option text),
    forallb p w = true -> lo <= List.length w -> within hi (List.length w) ->
    k (after prev w) rest cap <> None ->
    rep p lo hi prev (w ++ rest) cap k <> None.
Proof.
  induction w as [|c w IH]; intros lo hi prev cap Hw Hlo Hhi Hk.
  - simpl in Hlo. assert (lo = 0) by lia. subst lo. simpl app.
    destruct rest as [|c s]; simpl; [exact Hk|].
    destruct (p c && has_room hi); [|exact Hk].
    destruct (rep p 0 (one_less hi) (Some c) s cap k); [discriminate|].
    exact Hk.
  - simpl in Hw. apply andb_true_iff in Hw. destruct Hw as [Hc Hw].
    assert (Hr : has_room hi = true).
    { destruct hi as [h|]; simpl in *; [|reflexivity].
      apply Nat.ltb_lt. lia. }
    simpl. rewrite Hc, Hr. simpl.
    assert (N : rep p (pred lo) (one_less hi) (Some c) (w ++ rest) cap k
                <> None).
    { apply IH; trivial.
      - simpl in Hlo. lia.
      - destruct hi as [h|]; simpl in *; [lia | exact I]. }
    destruct (rep p (pred lo) (one_less hi) (Some c) (w ++ rest) cap k);
      [discriminate | congruence].
Qed.

Section MatcherMeaning.

Variable icase : bool.

Lemma matcher_sound_matches (r : regex) :
  forall (prev : option ascii) (s : text) (cap : option text) (k : cont)
         (m : match_obj),
    matcher icase r prev s cap k = Some m ->
    exists w s' cap',
      s = w ++ s' /\ matches icase r prev w s'
      /\ k (after prev w) s' cap' = Some m.
Proof.
  induction r as [|c|p|r1 IH1 r2 IH2|r1 IH1 r2 IH2|p lo hi| |r1 IH1];
    intros prev s cap k m H; simpl in H.
  - exists [], s, cap. simpl. auto.
  - destruct s as [|t s]; [discriminate|].
    destruct (chr_eqb icase c t) eqn:E; [|discriminate].
    exists [t], s, cap. simpl. eauto.
  - destruct s as [|t s]; [discriminate|].
    destruct (p t) eqn:Hp; [|discriminate].
    exists [t], s, cap. simpl. eauto.
  - apply IH1 in H. destruct H as (w1 & s1 & cap1 & -> & M1 & H).
    apply IH2 in H. destruct H as (w2 & s2 & cap2 & -> & M2 & H).
    exists (w1 ++ w2), s2, cap2. rewrite app_assoc, after_app.
    repeat split; trivial. simpl. now exists w1, w2.
  - destruct (matcher icase r1 prev s cap k) eqn:H1.
    + injection H as ->. apply IH1 in H1.
      destruct H1 as (w & s' & cap' & -> & M & H).
      exists w, s', cap'. simpl. auto.
    + apply IH2 in H. destruct H as (w & s' & cap' & -> & M & H).
      exists w, s', cap'. simpl. auto.
  - apply rep_sound_bounds in H.
    destruct H as (w & s' & -> & Hw & Hlo & Hhi & H).
    exists w, s', cap. simpl. auto.
  - destruct (xorb _ _) eqn:X; [|discriminate].
    exists [], s, cap. simpl. auto.
  - apply IH1 in H. destruct H as (w & s' & cap' & -> & M & H).
    exists w, s'. eexists. simpl. eauto.
Qed.

Lemma matcher_complete (r : regex) :
  forall (prev : option ascii) (w rest : text) (cap : option text)
         (k : cont),
    matches icase r prev w rest ->
    (forall cap', k (after prev w) rest cap' <> None) ->
    matcher icase r prev (w ++ rest) cap k <> None.
Proof.
  induction r as [|c|p|r1 IH1 r2 IH2|r1 IH1 r2 IH2|p lo hi| |r1 IH1];
    intros prev w rest cap k M K; simpl in M.
  - subst w. simpl. apply K.
  - destruct M as (t & -> & E). simpl. rewrite E. apply (K cap).
  - destruct M as (t & -> & E). simpl. rewrite E. apply (K cap).
  - destruct M as (u & v & -> & M1 & M2). rewrite <- app_assoc. simpl.
    apply IH1; [exact M1|]. intros cap'. apply IH2; [exact M2|].
    intros cap''. rewrite <- after_app. apply K.
  - simpl. destruct (matcher icase r1 prev (w ++ rest) cap k) eqn:E;
      [discriminate|].
    destruct M as [M | M].
    + exfalso. revert E. now apply IH1.
    + now apply IH2.
  - destruct M as (Hw & Hlo & Hhi). simpl.
    apply rep_complete; trivial.
  - destruct M as (-> & X). simpl. rewrite X. apply K.
  - simpl. apply IH1; [exact M|]. intros cap'. apply K.
Qed.

Lemma match_here_matches (r : regex) (prev : option ascii) (s : text)
      (m : match_obj) :
  match_here icase r prev s = Some m ->
  exists s', s = group0 m ++ s' /\ matches icase r prev (group0 m) s'.
Proof.
  unfold match_here. intros H. apply matcher_sound_matches in H.
  destruct H as (w & s' & cap' & -> & M & H).
  rewrite firstn_consumed in H. injection H as <-. simpl. eauto.
Qed.

Lemma match_here_complete (r : regex) (prev : option ascii) (w rest : text) :
  matches icase r prev w rest -> match_here icase r prev (w ++ rest) <> None.
Proof.
  intros M. unfold match_here. apply matcher_complete; [exact M|].
  intros cap'. discriminate.
Qed.

Lemma search_from_sound_matches (r : regex) (m : match_obj) :
  forall (s : text) (prev : option ascii),
    search_from icase r prev s = Some m ->
    exists a b, s = a ++ group0 m ++ b
                /\ matches icase r (after prev a) (group0 m) b.
Proof.
  induction s as [|c s IH]; intros prev H; simpl in H.
  - destruct (match_here icase r prev []) eqn:E; [|discriminate].
    injection H as ->. apply match_here_matches in E.
    destruct E as (s' & E & M). exists [], s'. auto.
  - destruct (match_here icase r prev (c :: s)) eqn:E.
    + injection H as ->. apply match_here_matches in E.
      destruct E as (s' & E & M). exists [], s'. auto.
    + apply IH in H. destruct H as (a & b & -> & M).
      exists (c :: a), b. auto.
Qed.

Lemma search_from_complete (r : regex) (w b : text) :
  forall (a : text) (prev : option ascii),
    matches icase r (after prev a) w b ->
    search_from icase r prev (a ++ w ++ b) <> None.
Proof.
  induction a as [|c a IH]; intros prev M.
  - simpl app. simpl in M. pose proof (match_here_complete _ _ _ _ M) as N.
    destruct (w ++ b) as [|x s]; simpl;
      destruct (match_here icase r prev _); congruence.
  - simpl. destruct (match_here icase r prev (c :: a ++ w ++ b));
      [discriminate|]. apply IH. exact M.
Qed.

Lemma search_iff (r : regex) (t : text) :
  search icase r t <> None <-> occurs icase r t.
Proof.
  unfold search, occurs. split.
  - destruct (search_from icase r None t) as [m|] eqn:E; [|congruence].
    intros _. apply search_from_sound_matches in E.
    destruct E as (a & b & E & M). eauto.
  - intros (a & w & b & -> & M). now apply search_from_complete.
Qed.

Lemma finditer_from_nil_iff (r : regex) :
  forall (s : text) (prev : option ascii),
    finditer_from icase r prev s 0 = [] <-> search_from icase r prev s = None.
Proof.
  induction s as [|c s IH]; intros prev; simpl.
  - destruct (match_here icase r prev []); split; congruence.
  - destruct (match_here icase r prev (c :: s)); [split; congruence|].
    apply IH.
Qed.

Lemma finditer_occurs (r : regex) (t : text) :
  finditer icase r t <> [] <-> occurs icase r t.
Proof.
  rewrite <- search_iff. unfold finditer, search.
  pose proof (finditer_from_nil_iff r t None) as E.
  destruct (finditer_from icase r None t);
    destruct (search_from icase r None t); split; intros H;
    try congruence; try discriminate.
  - destruct E as [E _]. specialize (E eq_refl). discriminate.
  - destruct E as [_ E]. specialize (E eq_refl). discriminate.
Qed.

End MatcherMeaning.

Lemma matches_literal (l : text) :
  forall (prev : option ascii) (w rest : text),
    matches false (fold_right (fun c r => Seq (Chr c) r) Eps l) prev w rest
    <-> w = l.
Proof.
  induction l as [|c l IH]; intros prev w rest; simpl.
  - tauto.
  - split.
    + intros (u & v & -> & (t & -> & E) & M). unfold chr_eqb in E.
      apply Ascii.eqb_eq in E. subst t. apply IH in M. now subst v.
    + intros ->. exists [c], l. split; [reflexivity|]. split.
      * exists c. split; [reflexivity|]. unfold chr_eqb.
        apply Ascii.eqb_refl.
      * now apply IH.
Qed.

Lemma matches_Lit (s : string) (prev : option ascii) (w rest : text) :
  matches false (Lit s) prev w rest <-> w = txt s.
Proof. apply matches_literal. Qed.

Lemma digits_head (v : text) :
  forallb is_digit v = true -> 1 <= List.length v ->
  exists c v', v = c :: v' /\ is_digit c = true.
Proof.
  destruct v as [|c v]; simpl; [lia|]. intros H _.
  apply andb_true_iff in H. destruct H as [Hc _]. eauto.
Qed.

Lemma digits_last (v : text) :
  forallb is_digit v = true -> 1 <= List.length v ->
  exists v' c, v = v' ++ [c] /\ is_digit c = true.
Proof.
  intros H L. destruct (exists_last (l := v)) as (v' & c & ->).
  { destruct v; [simpl in L; lia | discriminate]. }
  rewrite forallb_app in H. apply andb_true_iff in H. destruct H as [_ H].
  simpl in H. rewrite andb_true_r in H. eauto.
Qed.

(** When [literal(\d+)] and [(\d+)literal] occur in a text. *)
Lemma occurs_prefix_count (s : string) (t : text) :
  occurs false (Seq (Lit s) digits1) t
  <-> exists c, is_digit c = true /\ piece_of (txt s ++ [c]) t.
Proof.
  unfold occurs, digits1. cbn [matches]. split.
  - intros (a & w & b & -> & u & v & -> & Mu & Hv & Hl & _).
    apply matches_Lit in Mu. subst u.
    destruct (digits_head _ Hv Hl) as (c & v' & -> & Hc).
    exists c. split; [exact Hc|]. exists a, (v' ++ b).
    now rewrite <- !app_assoc.
  - intros (c & Hc & a & b & ->).
    exists a, (txt s ++ [c]), b. split; [reflexivity|].
    exists (txt s), [c]. split; [reflexivity|]. split.
    + now apply matches_Lit.
    + simpl. rewrite Hc. repeat split; auto.
Qed.

Lemma occurs_suffix_count (s : string) (t : text) :
  occurs false (Seq digits1 (Lit s)) t
  <-> exists c, is_digit c = true /\ piece_of (c :: txt s) t.
Proof.
  unfold occurs, digits1. cbn [matches]. split.
  - intros (a & w & b & -> & u & v & -> & (Hu & Hl & _) & Mv).
    apply matches_Lit in Mv. subst v.
    destruct (digits_last _ Hu Hl) as (u' & c & -> & Hc).
    exists c. split; [exact Hc|]. exists (a ++ u'), b.
    now rewrite <- !app_assoc.
  - intros (c & Hc & a & b & ->).
    exists a, (c :: txt s), b. split; [reflexivity|].
    exists [c], (txt s). split; [reflexivity|]. split.
    + simpl. rewrite Hc. repeat split; auto.
    + now apply matches_Lit.
Qed.

Lemma first_search_some_iff (ps : list regex) (t : text) :
  first_search ps t <> None
  <-> exists p, In p ps /\ search false p t <> None.
Proof.
  induction ps as [|p ps IH]; simpl.
  - split; [congruence | intros (p & [] & _)].
  - destruct (search false p t) eqn:E.
    + split; [|discriminate]. intros _. exists p. split; [now left|].
      congruence.
    + rewrite IH. split.
      * intros (q & Hq & S). exists q. auto.
      * intros (q & [<- | Hq] & S); [congruence|]. exists q. auto.
Qed.

Lemma int_field_some_iff (m : option match_obj) (o : option Z) :
  int_field m = Ok o -> (o <> None <-> m <> None).
Proof.
  destruct m as [m|]; simpl.
  - destruct (int_group1 m); simpl; [|discriminate].
    intros H. injection H as <-. split; discriminate.
  - intros H. injection H as <-. tauto.
Qed.

(** X20.  The capacity parser sets max_count exactly when the text holds
    "no more than ", "maximum " or "at most " right before a digit, or
    " or fewer" right after one; it sets min_count exactly when the text
    holds "at least " or "minimum " right before a digit, or " or more"
    right after one. *)
Theorem capacity_counts_set (t : text) (d : capacity_fields) :
  _parse_capacity_constraint t = Ok d ->
  (max_count d <> None
   <-> exists c, is_digit c = true
                 /\ (piece_of (txt "no more than " ++ [c]) t
                     \/ piece_of (txt "maximum " ++ [c]) t
                     \/ piece_of (txt "at most " ++ [c]) t
                     \/ piece_of (c :: txt " or fewer") t))
  /\ (min_count d <> None
      <-> exists c, is_digit c = true
                    /\ (piece_of (txt "at least " ++ [c]) t
                        \/ piece_of (txt "minimum " ++ [c]) t
                        \/ piece_of (c :: txt " or more") t)).
Proof.
  unfold _parse_capacity_constraint.
  destruct (int_field (first_search max_patterns t)) as [mx|e] eqn:Emax;
    cbn [bind]; [|discriminate].
  destruct (int_field (first_search min_patterns t)) as [mn|e] eqn:Emin;
    cbn [bind]; [|discriminate].
  intros H. injection H as <-. cbn [max_count min_count].
  rewrite (int_field_some_iff _ Emax), (int_field_some_iff _ Emin).
  rewrite !first_search_some_iff.
  assert (P : forall s, (search false (Seq (Lit s) digits1) t <> None
                         <-> exists c, is_digit c = true
                                       /\ piece_of (txt s ++ [c]) t)).
  { intros s0. rewrite search_iff. apply occurs_prefix_count. }
  assert (S : forall s, (search false (Seq digits1 (Lit s)) t <> None
                         <-> exists c, is_digit c = true
                                       /\ piece_of (c :: txt s) t)).
  { intros s0. rewrite search_iff. apply occurs_suffix_count. }
  split; split.
  - intros (p & Hp & N). simpl in Hp.
    destruct Hp as [<- | [<- | [<- | [<- | []]]]];
      [apply P in N | apply P in N | apply P in N | apply S in N];
      destruct N as (c & Hc & N); exists c; split; trivial; tauto.
  - intros (c & Hc & [N | [N | [N | N]]]).
    + exists (Seq (Lit "no more than ") digits1). split; [simpl; tauto|].
      apply P. eauto.
    + exists (Seq (Lit "maximum ") digits1). split; [simpl; tauto|].
      apply P. eauto.
    + exists (Seq (Lit "at most ") digits1). split; [simpl; tauto|].
      apply P. eauto.
    + exists (Seq digits1 (Lit " or fewer")). split; [simpl; tauto|].
      apply S. eauto.
  - intros (p & Hp & N). simpl in Hp.
    destruct Hp as [<- | [<- | [<- | []]]];
      [apply P in N | apply P in N | apply S in N];
      destruct N as (c & Hc & N); exists c; split; trivial; tauto.
  - intros (c & Hc & [N | [N | N]]).
    + exists (Seq (Lit "at least ") digits1). split; [simpl; tauto|].
      apply P. eauto.
    + exists (Seq (Lit "minimum ") digits1). split; [simpl; tauto|].
      apply P. eauto.
    + exists (Seq digits1 (Lit " or more")). split; [simpl; tauto|].
      apply S. eauto.
Qed.

Lemma capacity_counts_set_witness :
  exists d,
    _parse_capacity_constraint (txt "at most 4 or 5 or more") = Ok d
    /\ max_count d <> None /\ min_count d <> None.
Proof.
  eexists. split; [vm_compute; reflexivity|].
  destruct (@capacity_counts_set (txt "at most 4 or 5 or more") _
              ltac:(vm_compute; reflexivity)) as (A & B).
  split.
  - apply A. exists "4"%char. split; [reflexivity|].
    do 2 right; left. exists [], (txt " or 5 or more"). reflexivity.
  - apply B. exists "5"%char. split; [reflexivity|].
    do 2 right. exists (txt "at most 4 or "), []. reflexivity.
Defined.

Lemma white_length (ws : text) :
  white ws <-> forallb is_space ws = true /\ 1 <= List.length ws.
Proof.
  unfold white. destruct ws; simpl; split; intros [A B]; split; trivial;
    try congruence; try lia; discriminate.
Qed.

(** When [(\d+)\s+units?\s+between] occurs in a text. *)
Lemma occurs_between (unit : string) (t : text) :
  occurs false
         (cat [digits1; Rep is_space 1 None; Lit unit; Opt (Lit "s");
               Rep is_space 1 None; Lit "between"]) t
  <-> exists c ws1 pl ws2,
        is_digit c = true /\ white ws1 /\ white ws2
        /\ (pl = [] \/ pl = txt "s")
        /\ piece_of (c :: ws1 ++ txt unit ++ pl ++ ws2 ++ txt "between") t.
Proof.
  unfold occurs, cat, digits1, Opt. cbn [matches fold_right]. split.
  - intros (a & w & b & -> & u & v & -> & (Hu & Hl & _)
            & u1 & v1 & -> & (H1 & L1 & _)
            & u2 & v2 & -> & M2
            & u3 & v3 & -> & M3
            & u4 & v4 & -> & (H4 & L4 & _)
            & u5 & v5 & -> & M5 & ->).
    apply matches_Lit in M2. apply matches_Lit in M5. subst u2 u5.
    assert (P : u3 = [] \/ u3 = txt "s").
    { destruct M3 as [M3 | ->]; [|now left].
      apply matches_Lit in M3. now right. }
    destruct (digits_last _ Hu Hl) as (u' & c & -> & Hc).
    exists c, u1, u3, u4. split; [exact Hc|].
    split; [now apply white_length|]. split; [now apply white_length|].
    split; [exact P|]. exists (a ++ u'), b.
    rewrite app_nil_r. simpl. now rewrite <- !app_assoc.
  - intros (c & ws1 & pl & ws2 & Hc & W1 & W2 & P & a & b & ->).
    apply white_length in W1. apply white_length in W2.
    destruct W1 as [H1 L1]. destruct W2 as [H2 L2].
    exists a, (c :: ws1 ++ txt unit ++ pl ++ ws2 ++ txt "between"), b.
    split; [reflexivity|].
    exists [c], (ws1 ++ txt unit ++ pl ++ ws2 ++ txt "between").
    split; [reflexivity|]. split; [simpl; rewrite Hc; repeat split; auto|].
    exists ws1, (txt unit ++ pl ++ ws2 ++ txt "between").
    split; [reflexivity|]. split; [repeat split; trivial|].
    exists (txt unit), (pl ++ ws2 ++ txt "between").
    split; [reflexivity|]. split; [now apply matches_Lit|].
    exists pl, (ws2 ++ txt "between"). split; [reflexivity|]. split.
    { destruct P as [-> | ->]; [now right | left; now apply matches_Lit]. }
    exists ws2, (txt "between"). split; [reflexivity|].
    split; [repeat split; trivial|].
    exists (txt "between"), []. split; [now rewrite app_nil_r|].
    split; [now apply matches_Lit | reflexivity].
Qed.

(** X21.  The rest parser sets min_days exactly when the text holds a
    digit, white space, "day" or "days", white space and "between" in a
    row, and min_hours exactly when it holds the same with "hour" or
    "hours". *)
Theorem rest_periods_set (t : text) (d : rest_fields) :
  _parse_rest_constraint t = Ok d ->
  (min_days d <> None
   <-> exists c ws1 pl ws2,
         is_digit c = true /\ white ws1 /\ white ws2
         /\ (pl = [] \/ pl = txt "s")
         /\ piece_of (c :: ws1 ++ txt "day" ++ pl ++ ws2 ++ txt "between") t)
  /\ (min_hours d <> None
      <-> exists c ws1 pl ws2,
            is_digit c = true /\ white ws1 /\ white ws2
            /\ (pl = [] \/ pl = txt "s")
            /\ piece_of (c :: ws1 ++ txt "hour" ++ pl ++ ws2
                           ++ txt "between") t).
Proof.
  unfold _parse_rest_constraint.
  destruct (int_field (search false day_between_pattern t)) as [dd|e] eqn:Ed;
    cbn [bind]; [|discriminate].
  destruct (int_field (search false hour_between_pattern t)) as [hh|e]
    eqn:Eh; cbn [bind]; [|discriminate].
  intros H. injection H as <-. cbn [min_days min_hours].
  rewrite (int_field_some_iff _ Ed), (int_field_some_iff _ Eh).
  rewrite !search_iff. split.
  - apply (occurs_between "day").
  - apply (occurs_between "hour").
Qed.

Lemma rest_periods_set_witness :
  exists d,
    _parse_rest_constraint (txt "rest 2 days  between games") = Ok d
    /\ min_days d <> None.
Proof.
  eexists. split; [vm_compute; reflexivity|].
  apply (proj1 (@rest_periods_set (txt "rest 2 days  between games") _
                  ltac:(vm_compute; reflexivity))).
  exists "2"%char, (txt " "), (txt "s"), (txt "  ").
  split; [reflexivity|]. split; [split; [discriminate | reflexivity]|].
  split; [split; [discriminate | reflexivity]|]. split; [now right|].
  exists (txt "rest "), (txt " games"). reflexivity.
Defined.

Lemma matches_meridiem (prev : option ascii) (w rest : text) :
  matches false (Alt (Lit "am") (Lit "pm")) prev w rest
  <-> w = txt "am" \/ w = txt "pm".
Proof.
  cbn [matches]. now rewrite !matches_Lit.
Qed.

Lemma matches_lower_clock (prev : option ascii) (g rest : text) :
  matches false lower_clock prev g rest <-> clock_word g.
Proof.
  unfold lower_clock, clock, cat, Opt, clock_word.
  cbn [matches fold_right]. split.
  - intros [M | M].
    + destruct M as (h & v & -> & (Hh & L1 & L2)
                     & u1 & v1 & -> & M1
                     & mm & v2 & -> & (Hm & L3 & L4)
                     & sp & v3 & -> & (Hs & _ & _)
                     & o & v4 & -> & Mo & ->).
      apply matches_Lit in M1. subst u1. simpl in L2, L4.
      exists h. split; [auto|]. left.
      destruct mm as [|m1 [|m2 [|m3 mm]]]; simpl in L3, L4; try lia.
      simpl in Hm. apply andb_true_iff in Hm. destruct Hm as [Hm1 Hm2].
      rewrite andb_true_r in Hm2.
      exists m1, m2, sp, o. repeat split; trivial.
      * destruct Mo as [Mo | ->]; [|now left].
        apply matches_meridiem in Mo. now right.
      * now rewrite app_nil_r.
    + destruct M as (h & v & -> & (Hh & L1 & L2)
                     & sp & v1 & -> & (Hs & _ & _)
                     & mer & v2 & -> & Mm & ->).
      apply matches_meridiem in Mm. simpl in L2.
      exists h. split; [auto|]. right.
      exists sp, mer. repeat split; trivial. now rewrite app_nil_r.
  - intros (h & (Hh & L1 & L2) & [C | C]).
    + destruct C as (m1 & m2 & sp & mer & H1 & H2 & Hs & Hm & ->). left.
      exists h, (txt ":" ++ [m1; m2] ++ sp ++ mer).
      split; [reflexivity|]. split; [repeat split; trivial|].
      exists (txt ":"), ([m1; m2] ++ sp ++ mer).
      split; [reflexivity|]. split; [now apply matches_Lit|].
      exists [m1; m2], (sp ++ mer). split; [reflexivity|].
      split; [simpl; rewrite H1, H2; repeat split; auto|].
      exists sp, mer. split; [reflexivity|].
      split; [repeat split; trivial; lia|].
      exists mer, []. split; [now rewrite app_nil_r|]. split; [|reflexivity].
      destruct Hm as [-> | Hm]; [now right|]. left.
      now apply matches_meridiem.
    + destruct C as (sp & mer & Hs & Hm & ->). right.
      exists h, (sp ++ mer). split; [reflexivity|].
      split; [repeat split; trivial|].
      exists sp, mer. split; [reflexivity|].
      split; [repeat split; trivial; lia|].
      exists mer, []. split; [now rewrite app_nil_r|].
      split; [now apply matches_meridiem | reflexivity].
Qed.

(** When [word\s+(clock)] occurs in a text. *)
Lemma occurs_cue_time (word : string) (t : text) :
  occurs false (cat [Lit word; Rep is_space 1 None; Grp lower_clock]) t
  <-> exists ws g, white ws /\ clock_word g
                   /\ piece_of (txt word ++ ws ++ g) t.
Proof.
  unfold occurs, cat. cbn [matches fold_right]. split.
  - intros (a & w & b & -> & u & v & -> & Mu
            & ws & v1 & -> & (Hs & Ls & _)
            & g & v2 & -> & Mg & ->).
    apply matches_Lit in Mu. subst u. apply matches_lower_clock in Mg.
    exists ws, g. split; [now apply white_length|]. split; [exact Mg|].
    exists a, b. now rewrite app_nil_r.
  - intros (ws & g & W & G & a & b & ->). apply white_length in W.
    destruct W as [Hs Ls].
    exists a, (txt word ++ ws ++ g), b. split; [reflexivity|].
    exists (txt word), (ws ++ g). split; [reflexivity|].
    split; [now apply matches_Lit|].
    exists ws, g. split; [reflexivity|]. split; [repeat split; trivial|].
    exists g, []. split; [now rewrite app_nil_r|].
    split; [now apply matches_lower_clock | reflexivity].
Qed.

Lemma cue_time_set (word : string) (t : text) :
  (if kw_in word t
   then group1_of
          (search false (cat [Lit word; Rep is_space 1 None; Grp lower_clock])
                  t)
   else None) <> None
  <-> exists ws g, white ws /\ clock_word g
                   /\ piece_of (txt word ++ ws ++ g) t.
Proof.
  rewrite <- occurs_cue_time, <- search_iff. split.
  - destruct (kw_in word t); [|congruence].
    destruct (search false _ t); simpl; congruence.
  - intros N.
    destruct (search false (cat [Lit word; Rep is_space 1 None;
                                 Grp lower_clock]) t) as [m|] eqn:E;
      [|congruence].
    destruct (@cue_time_match word t m E)
      as (ws & c & g & G & _ & _ & _ & P).
    assert (K : kw_in word t = true).
    { apply piece_of_contains. now apply piece_of_prefix in P. }
    rewrite K. simpl. rewrite G. discriminate.
Qed.

(** X22.  The temporal parser records a before_time exactly when the
    text it is given (the pipeline hands it the lower-cased text) holds
    "before", white space and a clock time in a row, and an after_time exactly when it holds "after", white space
    and a clock time; a clock time is one or two digits followed by
    a colon, two digits, white space or none and an optional "am" or
    "pm", or followed by white space or none and "am" or "pm". *)
Theorem before_after_set (t : text) :
  (before_time (_parse_temporal_constraint t) <> None
   <-> exists ws g, white ws /\ clock_word g
                    /\ piece_of (txt "before" ++ ws ++ g) t)
  /\ (after_time (_parse_temporal_constraint t) <> None
      <-> exists ws g, white ws /\ clock_word g
                       /\ piece_of (txt "after" ++ ws ++ g) t).
Proof.
  unfold _parse_temporal_constraint. cbn [before_time after_time].
  split; [apply (cue_time_set "before") | apply (cue_time_set "after")].
Qed.

Lemma digit_is_word (c : ascii) : is_digit c = true -> is_word c = true.
Proof.
  unfold is_digit, is_word. intros ->. reflexivity.
Qed.

Lemma after_last (prev : option ascii) (w : text) (c : ascii) :
  after prev (w ++ [c]) = Some c.
Proof. now rewrite after_app. Qed.

(** When [\b(\d+)\b] occurs in a text. *)
Lemma occurs_number (t : text) :
  occurs false number_pattern t
  <-> exists a w b, t = a ++ w ++ b /\ standalone_digits a w b.
Proof.
  unfold occurs, number_pattern, cat, standalone_digits, digit_word.
  cbn [matches fold_right]. split.
  - intros (a & w & b & -> & u & v & -> & (-> & B1)
            & d & v1 & -> & (Hd & Ld & _)
            & u2 & v2 & -> & (-> & B2) & ->).
    exists a, d, b. simpl. rewrite app_nil_r. split; [reflexivity|].
    split; [auto|].
    simpl in B1, B2. split.
    + destruct (digits_head _ Hd Ld) as (c & d' & -> & Hc).
      simpl in B1. rewrite (digit_is_word _ Hc) in B1.
      now destruct (opt_is_word (after None a)).
    + destruct (digits_last _ Hd Ld) as (d' & c & -> & Hc).
      rewrite after_last in B2. simpl in B2.
      rewrite (digit_is_word _ Hc) in B2.
      now destruct (opt_is_word (hd_error b)).
  - intros (a & w & b & -> & (Hd & Ld) & A & B).
    exists a, w, b. split; [reflexivity|].
    exists [], w. split; [reflexivity|]. split.
    + split; [reflexivity|].
      destruct (digits_head _ Hd Ld) as (c & d' & -> & Hc).
      simpl. rewrite (digit_is_word _ Hc), A. reflexivity.
    + exists w, []. split; [now rewrite app_nil_r|].
      split; [repeat split; trivial|].
      exists [], []. split; [reflexivity|]. split; [|reflexivity].
      split; [reflexivity|]. simpl.
      destruct (digits_last _ Hd Ld) as (d' & c & -> & Hc).
      rewrite after_last. simpl. rewrite (digit_is_word _ Hc), B.
      reflexivity.
Qed.

Lemma map_result_nil {A B : Type} (f : A -> result B) (l : list A)
      (ys : list B) :
  map_result f l = Ok ys -> (ys = [] <-> l = []).
Proof.
  destruct l as [|x l]; simpl.
  - intros H. injection H as <-. tauto.
  - destruct (f x) as [y|e]; simpl; [|discriminate].
    destruct (map_result f l) as [ys0|e]; simpl; [|discriminate].
    intros H. injection H as <-. split; discriminate.
Qed.

Lemma number_scan_kind (t : text) (ns : list entity) (e : entity) :
  number_scan t = Ok ns -> In e ns -> e_type e = Number.
Proof.
  unfold number_scan. intros H Hin.
  destruct (map_result_inv _ _ H e Hin) as (m & _ & Hf).
  destruct (int (group0 m)); simpl in Hf; [|discriminate].
  injection Hf as <-. reflexivity.
Qed.

(** X23.  When entity extraction returns, its list holds a number entity
    exactly when the text holds a run of one or more digits with no word
    character right before it and none right after it. *)
Theorem number_entity_present (t : text) (es : list entity) :
  _extract_entities t = Ok es ->
  ((exists e, In e es /\ e_type e = Number)
   <-> exists a w b, t = a ++ w ++ b /\ standalone_digits a w b).
Proof.
  intros H. rewrite <- occurs_number, <- finditer_occurs. split.
  - intros (e & Hin & Hty).
    destruct (@entity_origin _ _ _ H Hin)
      as [(m & _ & ->) | [(m & _ & ->) | [(m & _ & ->)
         | [(m & n & Hm & _ & _) | (m & _ & ->)]]]];
      try discriminate Hty.
    intros N. rewrite N in Hm. contradiction.
  - intros N. apply extract_entities_inv in H.
    destruct H as (ns & Hns & ->).
    assert (K : ns <> []).
    { intros E. apply N. unfold number_scan in Hns.
      now apply (map_result_nil _ _ Hns). }
    destruct ns as [|e ns]; [congruence|].
    exists e. split.
    + apply in_or_app. right. apply in_or_app. right.
      apply in_or_app. right. apply in_or_app. left. now left.
    + apply (@number_scan_kind t (e :: ns) e Hns). now left.
Qed.

Lemma number_entity_present_witness :
  exists es,
    _extract_entities scenario1 = Ok es
    /\ ((exists e, In e es /\ e_type e = Number)
        <-> exists a w b, scenario1 = a ++ w ++ b
                          /\ standalone_digits a w b).
Proof.
  pose (es := ltac:(let v := eval vm_compute in
                        (match _extract_entities scenario1 with
                         | Ok x => x
                         | Raise _ => []
                         end) in exact v)).
  assert (E : _extract_entities scenario1 = Ok es)
    by (vm_compute; reflexivity).
  exists es. split; [exact E|].
  exact (@number_entity_present scenario1 es E).
Defined.

(** ** Overlapping scans *)

(** When [\b(\d+)\b] matches a word at a position. *)
Lemma matches_number (prev : option ascii) (w rest : text) :
  matches false number_pattern prev w rest
  <-> digit_word w /\ opt_is_word prev = false
      /\ opt_is_word (hd_error rest) = false.
Proof.
  unfold number_pattern, cat, digit_word.
  cbn [matches fold_right]. split.
  - intros (u & v & -> & (-> & B1)
            & d & v1 & -> & (Hd & Ld & _)
            & u2 & v2 & -> & (-> & B2) & ->).
    simpl. rewrite app_nil_r. split; [auto|].
    simpl in B1, B2. split.
    + destruct (digits_head _ Hd Ld) as (c & d' & -> & Hc).
      simpl in B1. rewrite (digit_is_word _ Hc) in B1.
      now destruct (opt_is_word prev).
    + destruct (digits_last _ Hd Ld) as (d' & c & -> & Hc).
      rewrite after_last in B2. simpl in B2.
      rewrite (digit_is_word _ Hc) in B2.
      now destruct (opt_is_word (hd_error rest)).
  - intros ((Hd & Ld) & A & B).
    exists [], w. split; [reflexivity|]. split.
    + split; [reflexivity|].
      destruct (digits_head _ Hd Ld) as (c & d' & -> & Hc).
      simpl. rewrite (digit_is_word _ Hc), A. reflexivity.
    + exists w, []. split; [now rewrite app_nil_r|].
      split; [repeat split; trivial|].
      exists [], []. split; [reflexivity|]. split; [|reflexivity].
      split; [reflexivity|]. simpl.
      destruct (digits_last _ Hd Ld) as (d' & c & -> & Hc).
      rewrite after_last. simpl. rewrite (digit_is_word _ Hc), B.
      reflexivity.
Qed.

(** [finditer] reaches a position when no match that starts before it
    runs past it, and then yields the match found there. *)
Lemma finditer_from_reach (icase : bool) (r : regex) (s' : text)
      (m : match_obj) :
  forall (a : text) (prev : option ascii) (skip : nat),
    skip <= List.length a ->
    (forall a1 a2 m0,
        a = a1 ++ a2 -> a2 <> [] ->
        match_here icase r (after prev a1) (a2 ++ s') = Some m0 ->
        List.length (group0 m0) <= List.length a2) ->
    match_here icase r (after prev a) s' = Some m ->
    In m (finditer_from icase r prev (a ++ s') skip).
Proof.
  induction a as [|c a IH]; intros prev skip Hs Hin Hm.
  - simpl in Hs. assert (skip = 0) by lia. subst skip.
    simpl in Hm. simpl app.
    destruct s' as [|c s']; simpl; rewrite Hm; now left.
  - assert (Hin' : forall a1 a2 m0,
               a = a1 ++ a2 -> a2 <> [] ->
               match_here icase r (after (Some c) a1) (a2 ++ s') = Some m0 ->
               List.length (group0 m0) <= List.length a2).
    { intros a1 a2 m0 -> Hne E. apply (Hin (c :: a1) a2 m0); trivial. }
    assert (Hm' : match_here icase r (after (Some c) a) s' = Some m)
      by exact Hm.
    simpl app. cbn [finditer_from].
    destruct skip as [|k].
    + destruct (match_here icase r prev (c :: a ++ s')) as [m0|] eqn:E.
      * right. apply IH; trivial.
        assert (L : List.length (group0 m0) <= List.length (c :: a)).
        { apply (Hin [] (c :: a) m0); [reflexivity | discriminate | exact E]. }
        simpl in L. lia.
      * apply IH; trivial. simpl. lia.
    + apply IH; trivial. simpl in Hs. simpl. lia.
Qed.

Lemma digits_prefix_last (a2 l : text) :
  a2 <> [] -> forallb is_digit (a2 ++ l) = true ->
  exists a2' c, a2 = a2' ++ [c] /\ is_word c = true.
Proof.
  intros Hne Hd. destruct (exists_last Hne) as (a2' & c & ->).
  exists a2', c. split; [reflexivity|].
  rewrite !forallb_app in Hd. apply andb_true_iff in Hd.
  destruct Hd as [Hd _]. apply andb_true_iff in Hd. destruct Hd as [_ Hd].
  simpl in Hd. rewrite andb_true_r in Hd. now apply digit_is_word.
Qed.

(** A number match that starts before a run of digits which follows a
    character that is no word character ends before the run. *)
Lemma number_match_inside (a a1 a2 s' : text) (m0 : match_obj) :
  a = a1 ++ a2 -> a2 <> [] ->
  opt_is_word (after None a) = false ->
  match_here false number_pattern (after None a1) (a2 ++ s') = Some m0 ->
  List.length (group0 m0) <= List.length a2.
Proof.
  intros -> Hne Hb E. apply match_here_matches in E.
  destruct E as (rest & E & M). apply matches_number in M.
  destruct M as ((Hd & _) & _).
  apply app_eq_app in E. destruct E as (l & [[E _] | [E _]]).
  - rewrite E, length_app. lia.
  - exfalso. rewrite E in Hd.
    destruct (@digits_prefix_last a2 l Hne Hd) as (a2' & c & -> & Hc).
    rewrite app_assoc, after_last in Hb. simpl in Hb. congruence.
Qed.

(** The match found at a run of digits that stands alone is the run. *)
Lemma number_match_at (a w b : text) :
  standalone_digits a w b ->
  exists m, match_here false number_pattern (after None a) (w ++ b) = Some m
            /\ group0 m = w.
Proof.
  intros (Hw & Ha & Hb).
  assert (M : matches false number_pattern (after None a) w b)
    by (apply matches_number; auto).
  apply match_here_complete in M.
  destruct (match_here false number_pattern (after None a) (w ++ b))
    as [m|] eqn:E; [|congruence].
  exists m. split; [reflexivity|].
  apply match_here_matches in E. destruct E as (rest & E & M').
  apply matches_number in M'. destruct M' as ((Hd & _) & _ & Hr).
  destruct Hw as (Hw & _).
  apply app_eq_app in E. destruct E as (l & [[E1 E2] | [E1 E2]]).
  - destruct l as [|c l]; [now rewrite app_nil_r in E1|]. exfalso.
    rewrite E1, forallb_app in Hw. apply andb_true_iff in Hw.
    destruct Hw as [_ Hw]. simpl in Hw. apply andb_true_iff in Hw.
    destruct Hw as [Hc _]. rewrite E2 in Hr. simpl in Hr.
    rewrite (digit_is_word _ Hc) in Hr. discriminate Hr.
  - destruct l as [|c l]; [now rewrite app_nil_r in E1|]. exfalso.
    rewrite E1, forallb_app in Hd. apply andb_true_iff in Hd.
    destruct Hd as [_ Hd]. simpl in Hd. apply andb_true_iff in Hd.
    destruct Hd as [Hc _]. rewrite E2 in Hb. simpl in Hb.
    rewrite (digit_is_word _ Hc) in Hb. discriminate Hb.
Qed.

Lemma map_result_in {A B : Type} (f : A -> result B) (l : list A)
      (ys : list B) (x : A) :
  map_result f l = Ok ys -> In x l -> exists y, f x = Ok y /\ In y ys.
Proof.
  revert ys. induction l as [|x0 l IH]; intros ys; simpl; [contradiction|].
  destruct (f x0) as [y0|e] eqn:E; simpl; [|discriminate].
  destruct (map_result f l) as [ys0|e]; simpl; [|discriminate].
  intros H [-> | Hin]; injection H as <-.
  - exists y0. split; [exact E | now left].
  - destruct (IH ys0 eq_refl Hin) as (y & Hy & Hys).
    exists y. split; [exact Hy | now right].
Qed.

(** Every run of digits that stands alone gives a number entity of its
    value, whatever the other scans matched. *)
Lemma number_entity_of_run (t : text) (es : list entity) (a w b : text) :
  _extract_entities t = Ok es -> t = a ++ w ++ b ->
  standalone_digits a w b ->
  In (mk_entity Number (EInt (int_of_digits w)) 0.85) es.
Proof.
  intros H -> S. destruct (@number_match_at a w b S) as (m & Hm & G).
  assert (I : In m (finditer false number_pattern (a ++ w ++ b))).
  { unfold finditer. apply finditer_from_reach; [lia | | exact Hm].
    intros a1 a2 m0 Ea Hne E.
    apply (@number_match_inside a a1 a2 (w ++ b) m0); trivial.
    apply S. }
  apply extract_entities_inv in H. destruct H as (ns & Hns & ->).
  unfold number_scan in Hns.
  destruct (map_result_in _ _ m Hns I) as (y & Hy & Hin).
  rewrite G in Hy. destruct (int w) as [n|e] eqn:Ei; simpl in Hy;
    [|discriminate].
  injection Hy as <-. apply int_inv in Ei. destruct Ei as (_ & _ & ->).
  apply in_or_app. right. apply in_or_app. right.
  apply in_or_app. right. apply in_or_app. left. exact Hin.
Qed.

(** "6:00" between characters that are no word characters matches the
    time pattern. *)
Lemma time_occurs_at_six (a b : text) :
  opt_is_word (after None a) = false ->
  opt_is_word (hd_error b) = false ->
  occurs false time_pattern (a ++ txt "6:00" ++ b).
Proof.
  intros Ha Hb. exists a, (txt "6:00"), b. split; [reflexivity|].
  unfold time_pattern, clock, cat, alts, Opt. cbn [matches fold_right].
  exists [], (txt "6:00"). split; [reflexivity|]. split.
  - split; [reflexivity|]. simpl. rewrite Ha. reflexivity.
  - exists (txt "6:00"), []. split; [reflexivity|]. split.
    + left. exists (txt "6"), (txt ":00"). split; [reflexivity|].
      split; [repeat split; simpl; lia|].
      exists (txt ":"), (txt "00"). split; [reflexivity|].
      split; [now apply matches_Lit|].
      exists (txt "00"), []. split; [reflexivity|].
      split; [repeat split; simpl; lia|].
      exists [], []. split; [reflexivity|].
      split; [repeat split; simpl; lia|].
      exists [], []. split; [reflexivity|]. split; [|reflexivity].
      right. reflexivity.
    + exists [], []. split; [reflexivity|]. split; [|reflexivity].
      split; [reflexivity|]. simpl. rewrite Hb. reflexivity.
Qed.

(** C6.  The entities are the concatenation of the five scans in the
    order team, day_of_week, time, number, venue; the entities of a
    result are those of the text, whatever its type.  The number scan is
    not held back by the other scans: every run of digits with no word
    character right before and right after it gives a number entity of
    its value.  So a text that holds "6:00" between characters that are
    no word characters yields the numbers 6 and 0 besides a time entity;
    "6:00" alone yields the time "6:00" and the numbers 6 and 0.  A text
    that merely contains "6:00" need not: "play at 6:00pm" yields the
    time "6:00pm" and the number 6 only, and "16:00" the time "16:00"
    and the numbers 16 and 0. *)
Theorem entities_concatenation :
  (forall t,
      _extract_entities t
      = (numbers <- number_scan t ;;
         Ok (team_scan t ++ day_scan t ++ time_scan t ++ numbers
             ++ venue_scan t))
      /\ (forall r, _parse_constraint t = Ok r ->
                    _extract_entities t = Ok (r_entities r)))
  /\ (forall t es a w b,
         _extract_entities t = Ok es -> t = a ++ w ++ b ->
         standalone_digits a w b ->
         In (mk_entity Number (EInt (int_of_digits w)) 0.85) es)
  /\ (forall a b es,
         opt_is_word (after None a) = false ->
         opt_is_word (hd_error b) = false ->
         _extract_entities (a ++ txt "6:00" ++ b) = Ok es ->
         In (mk_entity Number (EInt 6) 0.85) es
         /\ In (mk_entity Number (EInt 0) 0.85) es
         /\ exists e, In e es /\ e_type e = Time)
  /\ _extract_entities (txt "6:00")
     = Ok [mk_entity Time (EStr (txt "6:00")) 0.9;
           mk_entity Number (EInt 6) 0.85;
           mk_entity Number (EInt 0) 0.85]
  /\ _extract_entities (txt "play at 6:00pm")
     = Ok [mk_entity Time (EStr (txt "6:00pm")) 0.9;
           mk_entity Number (EInt 6) 0.85]
  /\ _extract_entities (txt "16:00")
     = Ok [mk_entity Time (EStr (txt "16:00")) 0.9;
           mk_entity Number (EInt 16) 0.85;
           mk_entity Number (EInt 0) 0.85].
Proof.
  split; [|split; [|split; [|repeat split; vm_compute; reflexivity]]].
  - intros t. split.
    + unfold _extract_entities. destruct (number_scan t) as [ns|e]; simpl;
        [|reflexivity].
      now rewrite <- !app_assoc.
    + intros r H. now apply parse_ok_fields in H.
  - apply number_entity_of_run.
  - intros a b es Ha Hb H. split; [|split].
    + apply (@number_entity_of_run _ es a (txt "6") (txt ":00" ++ b) H);
        [reflexivity|].
      split; [split; [reflexivity | simpl; lia]|]. split; [exact Ha|].
      reflexivity.
    + apply (@number_entity_of_run _ es (a ++ txt "6:") (txt "00") b H).
      * now rewrite <- app_assoc.
      * split; [split; [reflexivity | simpl; lia]|].
        split; [|exact Hb]. rewrite after_app. reflexivity.
    + pose proof (@time_occurs_at_six a b Ha Hb) as O.
      apply finditer_occurs in O.
      apply extract_entities_inv in H. destruct H as (ns & _ & ->).
      unfold time_scan.
      destruct (finditer false time_pattern (a ++ txt "6:00" ++ b))
        as [|m ms]; [congruence|].
      exists (mk_entity Time (EStr (group0 m)) 0.9). split; [|reflexivity].
      apply in_or_app. right. apply in_or_app. right.
      apply in_or_app. left. now left.
Qed.

Lemma entities_concatenation_witness :
  exists r, _parse_constraint scenario1 = Ok r
            /\ _extract_entities scenario1 = Ok (r_entities r)
            /\ In (mk_entity Number (EInt 6) 0.85) (r_entities r)
            /\ In (mk_entity Number (EInt 0) 0.85) (r_entities r)
            /\ exists e, In e (r_entities r) /\ e_type e = Time.
Proof.
  pose (r := ltac:(let v := eval vm_compute in
                         (match _parse_constraint scenario1 with
                          | Ok x => x
                          | Raise _ => initial_result
                          end) in exact v)).
  assert (E : _parse_constraint scenario1 = Ok r) by (vm_compute; reflexivity).
  destruct entities_concatenation as (A & _ & B & _).
  assert (X : _extract_entities scenario1 = Ok (r_entities r))
    by (apply (proj2 (A scenario1)); exact E).
  exists r. split; [exact E|]. split; [exact X|].
  apply (B (txt "Team A cannot play before ") (txt " PM on Fridays"));
    [reflexivity | reflexivity | exact X].
Defined.

(** C6, as stated, fails: "play at 6:00pm" contains "6:00", but the
    digits "00" are followed by the word character "p", so the number
    scan finds 6 only. *)
Lemma six_colon_without_numbers :
  contains (txt "6:00") (txt "play at 6:00pm") = true
  /\ ~ (forall t es,
           contains (txt "6:00") t = true ->
           _extract_entities t = Ok es ->
           In (mk_entity Number (EInt 6) 0.85) es
           /\ In (mk_entity Number (EInt 0) 0.85) es).
Proof.
  assert (C : contains (txt "6:00") (txt "play at 6:00pm") = true)
    by (vm_compute; reflexivity).
  split; [exact C|]. intros H.
  destruct (H (txt "play at 6:00pm")
              [mk_entity Time (EStr (txt "6:00pm")) 0.9;
               mk_entity Number (EInt 6) 0.85] C) as (_ & I);
    [vm_compute; reflexivity|].
  simpl in I. destruct I as [I | [I | []]]; discriminate I.
Qed.
